(** * Full Spectrum: the light-propagation engine of [full_spectrum.py]

    A shallow embedding of the board primitives ([in_bounds], [tile],
    [set_tile], [neighbors_line]), of the ray casters, the intersection
    resolver, the crystal refraction loop and the lock transition
    ([after_change]) of class [Game], and of the game around them
    ([__post_init__], [spend_energy], [interact], [move_selected],
    [reset_level], [is_win], [is_loss]), followed by their properties.
    Rendering and the command loop of [main] are not modelled.

    Conventions of the embedding:
    - Python integers are [Z]; coordinates are pairs [(y, x)] of [Z];
    - [Set[Coord]] is a [gset (Z * Z)], the ledger [Dict[Coord, Set[str]]]
      is a [gmap (Z * Z) (gset dir_key)];
    - a Python exception ([IndexError] of a list access, [ValueError] of
      the enum constructor [V(...)]) is the result [None]; code that can
      raise lives in the option monad;
    - [self] is passed explicitly and returned when it is mutated;
    - what a method prints is returned as a list of [Message]s;
    - the rows of [base] are distinct list objects (as built by
      [__post_init__] and [demo_level]), so the board is a value of type
      [list (list Z)]. *)

From stdpp Require Import gmap list sorting.

Local Open Scope Z_scope.
#[local] Set Warnings "-clear-no-such-hyp".

(** ** Voxels *)

Inductive V : Set :=
  | BG | BLOCK_MOV | BLOCK_IMMOV | ENERGY_USED | ENERGY_UNUSED
  | SOURCE_ON | SOURCE_OFF | LIGHT_DIRECT | LIGHT_SCATTER
  | CRYSTAL | LIFE_USED | LIFE_UNUSED.

#[global] Instance V_eq_dec : EqDecision V.
Proof. solve_decision. Defined.

(** [int(v)] for a member of the [IntEnum]. *)
Definition V_to_int (v : V) : Z :=
  match v with
  | BG => 0 | BLOCK_MOV => 1 | BLOCK_IMMOV => 2 | ENERGY_USED => 3
  | ENERGY_UNUSED => 4 | SOURCE_ON => 5 | SOURCE_OFF => 6
  | LIGHT_DIRECT => 7 | LIGHT_SCATTER => 8 | CRYSTAL => 9
  | LIFE_USED => 10 | LIFE_UNUSED => 11
  end.

(** [V(n)]: the enum constructor raises [ValueError] outside [0..11]. *)
Definition V_of_int (n : Z) : option V :=
  match n with
  | 0 => Some BG | 1 => Some BLOCK_MOV | 2 => Some BLOCK_IMMOV
  | 3 => Some ENERGY_USED | 4 => Some ENERGY_UNUSED | 5 => Some SOURCE_ON
  | 6 => Some SOURCE_OFF | 7 => Some LIGHT_DIRECT | 8 => Some LIGHT_SCATTER
  | 9 => Some CRYSTAL | 10 => Some LIFE_USED | 11 => Some LIFE_UNUSED
  | _ => None
  end.

(** [t in (V.BLOCK_MOV, V.BLOCK_IMMOV)] *)
Definition is_block (t : V) : bool :=
  match t with
  | BLOCK_MOV | BLOCK_IMMOV => true
  | _ => false
  end.

(** ** Coordinates and directions *)

Abbreviation Coord := (Z * Z)%type.

(** The keys of [DIRS]. *)
Inductive dir_key : Set := U | D | L | R.

#[global] Instance dir_key_eq_dec : EqDecision dir_key.
Proof. solve_decision. Defined.

Definition dir_key_code (d : dir_key) : nat :=
  match d with U => 0 | D => 1 | L => 2 | R => 3 end%nat.

Definition dir_key_decode (n : nat) : dir_key :=
  match n with
  | O => U
  | S O => D
  | S (S O) => L
  | _ => R
  end.

#[global] Instance dir_key_countable : Countable dir_key.
Proof.
  apply (inj_countable' dir_key_code dir_key_decode).
  intros []; reflexivity.
Defined.

Definition DIRS (d : dir_key) : Z * Z :=
  match d with
  | U => (-1, 0)
  | D => (1, 0)
  | L => (0, -1)
  | R => (0, 1)
  end.

(** The string ["UDLR"] iterated character by character. *)
Definition UDLR : list dir_key := [U; D; L; R].

(** ** Config and game state *)

Record Config : Set := mkConfig {
  width : Z;
  height : Z;
  energy_max : Z;
  lives_max : Z
}.

Record Game : Type := mkGame {
  cfg : Config;
  base : list (list Z);
  start_base : list (list Z);
  energy : Z;
  lives : Z;
  selected : option Coord;
  light_direct : gset Coord;
  light_scatter : gset Coord
}.

Definition with_base (g : Game) (b : list (list Z)) : Game :=
  mkGame (cfg g) b (start_base g) (energy g) (lives g) (selected g)
         (light_direct g) (light_scatter g).

Definition with_lights (g : Game) (ld ls : gset Coord) : Game :=
  mkGame (cfg g) (base g) (start_base g) (energy g) (lives g) (selected g)
         ld ls.

(** [self.light_direct.add(c)] and [self.light_scatter.add(c)]. *)
Definition add_direct (g : Game) (c : Coord) : Game :=
  with_lights g ({[c]} ∪ light_direct g) (light_scatter g).

Definition add_scatter (g : Game) (c : Coord) : Game :=
  with_lights g (light_direct g) ({[c]} ∪ light_scatter g).

(** ** Python list access *)

(** [l[i]]: a negative index counts from the end; outside
    [-len(l) .. len(l)-1] the access raises [IndexError]. *)
Definition py_index {A : Type} (l : list A) (i : Z) : option A :=
  let n := Z.of_nat (length l) in
  if bool_decide (0 ≤ i < n) then l !! Z.to_nat i
  else if bool_decide (- n ≤ i < 0) then l !! Z.to_nat (n + i)
  else None.

(** [l[i] = v], with the same index rule. *)
Definition py_setitem {A : Type} (l : list A) (i : Z) (v : A) : option (list A) :=
  let n := Z.of_nat (length l) in
  if bool_decide (0 ≤ i < n) then Some (<[Z.to_nat i := v]> l)
  else if bool_decide (- n ≤ i < 0) then Some (<[Z.to_nat (n + i) := v]> l)
  else None.

(** [range(n)] *)
Definition range (n : Z) : list Z := Z.of_nat <$> seq 0 (Z.to_nat n).

(** A [for] loop whose body may raise. *)
Fixpoint for_each {A S : Type} (body : S → A → option S) (s : S) (l : list A)
  : option S :=
  match l with
  | [] => Some s
  | a :: l' => s' ← body s a; for_each body s' l'
  end.

(** ** Helpers of [Game] *)

Definition in_bounds (g : Game) (y x : Z) : bool :=
  bool_decide (0 ≤ y < height (cfg g)) && bool_decide (0 ≤ x < width (cfg g)).

Definition tile (g : Game) (y x : Z) : option V :=
  row ← py_index (base g) y;
  n ← py_index row x;
  V_of_int n.

Definition set_tile (g : Game) (y x : Z) (v : V) : option Game :=
  row ← py_index (base g) y;
  row' ← py_setitem row x (V_to_int v);
  b ← py_setitem (base g) y row';
  Some (with_base g b).

(** The [while self.in_bounds(ny, nx)] loop of [neighbors_line], from the
    cell [(ny, nx)] on.  [fuel] bounds the number of cells yielded. *)
Fixpoint neighbors_line_from (fuel : nat) (g : Game) (dy dx ny nx : Z)
  : list Coord :=
  match fuel with
  | O => []
  | S fuel' =>
      if in_bounds g ny nx
      then (ny, nx) :: neighbors_line_from fuel' g dy dx (ny + dy) (nx + dx)
      else []
  end.

(** The cells yielded by the generator [neighbors_line(y, x, dir_key)].
    A line never holds more than [max(height, width)] cells, which
    [neighbors_line_exits] below establishes. *)
Definition neighbors_line (g : Game) (y x : Z) (dir : dir_key) : list Coord :=
  let '(dy, dx) := DIRS dir in
  neighbors_line_from (Z.to_nat (Z.max (height (cfg g)) (width (cfg g))))
                      g dy dx (y + dy) (x + dx).

(** ** Light propagation *)

Abbreviation Ledger := (gmap Coord (gset dir_key)).

(** [beams.setdefault(c, set()).add(dir_key)] *)
Definition ledger_add (beams : Ledger) (c : Coord) (dir : dir_key) : Ledger :=
  <[c := {[dir]} ∪ default ∅ (beams !! c)]> beams.

Fixpoint cast_beam_direct_walk (g : Game) (dir : dir_key) (beams : Ledger)
    (line : list Coord) : option (Game * Ledger) :=
  match line with
  | [] => Some (g, beams)
  | (y, x) :: rest =>
      t ← tile g y x;
      if is_block t then Some (add_direct g (y, x), beams)
      else cast_beam_direct_walk (add_direct g (y, x)) dir
                                 (ledger_add beams (y, x) dir) rest
  end.

Definition cast_beam_direct (g : Game) (origin : Coord) (dir : dir_key)
    (beams : Ledger) : option (Game * Ledger) :=
  let '(oy, ox) := origin in
  cast_beam_direct_walk g dir beams (neighbors_line g oy ox dir).

Fixpoint cast_scatter_walk (g : Game) (line : list Coord) : option Game :=
  match line with
  | [] => Some g
  | (y, x) :: rest =>
      t ← tile g y x;
      if is_block t then Some (add_scatter g (y, x))
      else cast_scatter_walk (add_scatter g (y, x)) rest
  end.

Definition cast_scatter_from (g : Game) (start : Coord) (dir : dir_key)
  : option Game :=
  let '(sy, sx) := start in
  cast_scatter_walk g (neighbors_line g sy sx dir).

(** The items of the ledger in iteration order, each with the directions
    of its entry in iteration order. *)
Definition ledger_items (beams : Ledger) : list (Coord * list dir_key) :=
  (λ kv : Coord * gset dir_key, (kv.1, elements kv.2)) <$> map_to_list beams.

(** The body of [apply_scattering] over the items of [beams]. *)
Definition apply_scattering_items (g : Game)
    (items : list (Coord * list dir_key)) : option Game :=
  for_each (λ g1 (item : Coord * list dir_key),
              let '(c, dirs) := item in
              if bool_decide (2 ≤ length dirs)%nat
              then for_each (λ g2 d, cast_scatter_from g2 c d) g1 dirs
              else Some g1)
           g items.

Definition apply_scattering (g : Game) (beams : Ledger) : option Game :=
  apply_scattering_items g (ledger_items beams).

Fixpoint cast_direct_line_walk (g : Game) (changed : bool) (line : list Coord)
  : option (Game * bool) :=
  match line with
  | [] => Some (g, changed)
  | (y, x) :: rest =>
      t ← tile g y x;
      let changed' :=
        if bool_decide ((y, x) ∉ light_direct g) then true else changed in
      if is_block t then Some (add_direct g (y, x), changed')
      else cast_direct_line_walk (add_direct g (y, x)) changed' rest
  end.

Definition cast_direct_line_from (g : Game) (start : Coord) (dir : dir_key)
  : option (Game * bool) :=
  let '(sy, sx) := start in
  cast_direct_line_walk g false (neighbors_line g sy sx dir).

Fixpoint cast_scatter_line_walk (g : Game) (changed : bool) (line : list Coord)
  : option (Game * bool) :=
  match line with
  | [] => Some (g, changed)
  | (y, x) :: rest =>
      t ← tile g y x;
      let changed' :=
        if bool_decide ((y, x) ∉ light_scatter g) then true else changed in
      if is_block t then Some (add_scatter g (y, x), changed')
      else cast_scatter_line_walk (add_scatter g (y, x)) changed' rest
  end.

Definition cast_scatter_line_from (g : Game) (start : Coord) (dir : dir_key)
  : option (Game * bool) :=
  let '(sy, sx) := start in
  cast_scatter_line_walk g false (neighbors_line g sy sx dir).

(** The body of the two nested [range] loops of [apply_crystals] at the
    cell [(y, x)]; [lit] is the union computed before the loops.  The two
    [for d in "UDLR": pass] loops of the source do nothing and are left
    out; the third one emits in all four directions. *)
Definition apply_crystals_cell (lit : gset Coord) (y : Z)
    (st : Game * bool) (x : Z) : option (Game * bool) :=
  let '(g, changed) := st in
  t ← tile g y x;
  if bool_decide (t = CRYSTAL) && bool_decide ((y, x) ∈ lit) then
    let is_direct := bool_decide ((y, x) ∈ light_direct g) in
    for_each (λ (st' : Game * bool) d,
                let '(g', changed') := st' in
                if is_direct
                then '(g'', c) ← cast_direct_line_from g' (y, x) d;
                     Some (g'', changed' || c)
                else '(g'', c) ← cast_scatter_line_from g' (y, x) d;
                     Some (g'', changed' || c))
             (g, changed) UDLR
  else Some (g, changed).

Definition apply_crystals (g : Game) : option (Game * bool) :=
  let lit := light_direct g ∪ light_scatter g in
  for_each (λ st y,
              for_each (apply_crystals_cell lit y) st (range (width (cfg g))))
           (g, false) (range (height (cfg g))).

(** The first pass of [recompute_light]: direct beams from every
    [SOURCE_ON] cell; returns the ledger [beams] it filled. *)
Definition cast_sources_cell (y : Z) (st : Game * Ledger) (x : Z)
  : option (Game * Ledger) :=
  let '(g, beams) := st in
  t ← tile g y x;
  if bool_decide (t = SOURCE_ON) then
    for_each (λ (st' : Game * Ledger) d,
                let '(g', beams') := st' in
                cast_beam_direct g' (y, x) d beams')
             (g, beams) UDLR
  else Some (g, beams).

Definition cast_sources (g : Game) : option (Game * Ledger) :=
  for_each (λ st y,
              for_each (cast_sources_cell y) st (range (width (cfg g))))
           (g, ∅) (range (height (cfg g))).

(** [while changed and iterations < 16], with the two loop variables.
    [fuel] is structural only: from [iterations = 0] sixteen units are
    never used up. *)
Fixpoint refraction_loop (fuel : nat) (g : Game) (changed : bool)
    (iterations : Z) : option (Game * bool * Z) :=
  if changed && bool_decide (iterations < 16) then
    match fuel with
    | O => None
    | S fuel' =>
        '(g', changed') ← apply_crystals g;
        refraction_loop fuel' g' changed' (iterations + 1)
    end
  else Some (g, changed, iterations).

(** [recompute_light] up to the refraction loop: both sets cleared, the
    direct beams cast, the intersections scattered. *)
Definition light_before_crystals (g : Game) : option Game :=
  '(g1, beams) ← cast_sources (with_lights g ∅ ∅);
  apply_scattering g1 beams.

Definition recompute_light (g : Game) : option Game :=
  g2 ← light_before_crystals g;
  '(g3, _, _) ← refraction_loop 16 g2 true 0;
  Some g3.

(** The body of the locking loop of [after_change]. *)
Definition lock_cell (g : Game) (c : Coord) : option Game :=
  let '(y, x) := c in
  t ← tile g y x;
  if bool_decide (t = BLOCK_MOV) then set_tile g y x BLOCK_IMMOV else Some g.

Definition after_change (g : Game) : option Game :=
  g1 ← recompute_light g;
  g2 ← for_each lock_cell g1 (elements (light_direct g1));
  recompute_light g2.

(** ** Well-formed games *)

(** The board has [height] rows of [width] cells, each holding the integer
    of a voxel. *)
Definition well_formed (g : Game) : bool :=
  bool_decide (Z.of_nat (length (base g)) = height (cfg g))
  && forallb (λ row,
                bool_decide (Z.of_nat (length row) = width (cfg g))
                && forallb (λ n, bool_decide (0 ≤ n ≤ 11)) row)
             (base g).

(** ** Scenario boards *)

(** A layout given by the kinds of its cells, as [demo_level] builds one
    from its legend. *)
Definition board_of_kinds (rows : list (list V)) : list (list Z) :=
  map (map V_to_int) rows.

(** The fields set by [__post_init__] for a given layout, before its call
    of [recompute_light]. *)
Definition new_game (c : Config) (b : list (list Z)) : Game :=
  mkGame c b b (energy_max c) (lives_max c) None ∅ ∅.

Definition cfg5 : Config := mkConfig 5 5 20 3.

(** 5x5, all empty except [SOURCE_ON] at (2,0). *)
Definition scenario_A : Game :=
  new_game cfg5 (board_of_kinds
    [ [BG; BG; BG; BG; BG];
      [BG; BG; BG; BG; BG];
      [SOURCE_ON; BG; BG; BG; BG];
      [BG; BG; BG; BG; BG];
      [BG; BG; BG; BG; BG] ]).

(** Two sources facing each other on row 2. *)
Definition scenario_B : Game :=
  new_game cfg5 (board_of_kinds
    [ [BG; BG; BG; BG; BG];
      [BG; BG; BG; BG; BG];
      [SOURCE_ON; BG; BG; BG; SOURCE_ON];
      [BG; BG; BG; BG; BG];
      [BG; BG; BG; BG; BG] ]).

(** A source at (2,0) and a movable block at (2,2). *)
Definition scenario_block : Game :=
  new_game cfg5 (board_of_kinds
    [ [BG; BG; BG; BG; BG];
      [BG; BG; BG; BG; BG];
      [SOURCE_ON; BG; BLOCK_MOV; BG; BG];
      [BG; BG; BG; BG; BG];
      [BG; BG; BG; BG; BG] ]).

(** A source at (2,0), a switched-off source at (2,2). *)
Definition scenario_through : Game :=
  new_game cfg5 (board_of_kinds
    [ [BG; BG; BG; BG; BG];
      [BG; BG; BG; BG; BG];
      [SOURCE_ON; BG; SOURCE_OFF; BG; BG];
      [BG; BG; BG; BG; BG];
      [BG; BG; BG; BG; BG] ]).

(** A source at (2,0), crystals at (2,2) and (4,2). *)
Definition scenario_crystals : Game :=
  new_game cfg5 (board_of_kinds
    [ [BG; BG; BG; BG; BG];
      [BG; BG; BG; BG; BG];
      [SOURCE_ON; BG; CRYSTAL; BG; BG];
      [BG; BG; BG; BG; BG];
      [BG; BG; CRYSTAL; BG; BG] ]).

(** ** Notions used in the statements and proofs *)

(** Row-major enumeration of the two nested [range] loops. *)
Definition grid (ys xs : list Z) : list Coord :=
  flat_map (λ y, pair y <$> xs) ys.

(** The cells of the board in the order of
    [for y in range(height): for x in range(width)]. *)
Definition cells (g : Game) : list Coord :=
  grid (range (height (cfg g))) (range (width (cfg g))).

(** Steps left before the walk from an in-range cell leaves the grid. *)
Definition steps_left (g : Game) (dir : dir_key) (ny nx : Z) : Z :=
  match dir with
  | U => ny + 1
  | D => height (cfg g) - ny
  | L => nx + 1
  | R => width (cfg g) - nx
  end.

(** The cell at [c] holds a block. *)
Definition is_block_at (g : Game) (c : Coord) : bool :=
  match tile g c.1 c.2 with
  | Some t => is_block t
  | None => false
  end.

(** The cells a cast walks over: the line up to and including its first
    block. *)
Fixpoint beam_cells (g : Game) (line : list Coord) : list Coord :=
  match line with
  | [] => []
  | c :: rest => if is_block_at g c then [c] else c :: beam_cells g rest
  end.

(** The cells a cast from [c] in direction [dir] walks over. *)
Definition beam_path (g : Game) (c : Coord) (dir : dir_key) : list Coord :=
  beam_cells g (neighbors_line g c.1 c.2 dir).

(** The cells of a cast that are entered in the ledger: those before the
    first block. *)
Fixpoint ledger_cells (g : Game) (line : list Coord) : list Coord :=
  match line with
  | [] => []
  | c :: rest => if is_block_at g c then [] else c :: ledger_cells g rest
  end.

(** [tile] does not raise on the cells of [line]. *)
Definition tiles_ok (g : Game) (line : list Coord) : Prop :=
  ∀ c, c ∈ line → is_Some (tile g c.1 c.2).

(** Everything a crystal at [c] emits: its four casts. *)
Definition crystal_rays (g : Game) (c : Coord) : gset Coord :=
  ⋃ ((λ d, list_to_set (beam_path g c d)) <$> UDLR).

(** The cell at [c] holds a crystal. *)
Definition is_crystal_at (g : Game) (c : Coord) : bool :=
  bool_decide (tile g c.1 c.2 = Some CRYSTAL).

(** The two sets and the flag [changed] during a pass. *)
Abbreviation pass_state := (gset Coord * gset Coord * bool)%type.

(** What the body of [apply_crystals] does to the sets and the flag at
    the cell [c]. *)
Definition crystal_step (g : Game) (lit : gset Coord) (st : pass_state)
    (c : Coord) : pass_state :=
  let '(ld, ls, ch) := st in
  if is_crystal_at g c && bool_decide (c ∈ lit) then
    if bool_decide (c ∈ ld)
    then (crystal_rays g c ∪ ld, ls,
          ch || bool_decide (crystal_rays g c ∪ ld ≠ ld))
    else (ld, crystal_rays g c ∪ ls,
          ch || bool_decide (crystal_rays g c ∪ ls ≠ ls))
  else st.

(** The game and the flag that a pass state stands for. *)
Definition pass_repr (g : Game) (st : pass_state) : Game * bool :=
  (with_lights g st.1.1 st.1.2, st.2).

(** One pass of [apply_crystals] from the sets [ld] and [ls]. *)
Definition crystal_pass (g : Game) (ld ls : gset Coord) : pass_state :=
  foldl (crystal_step g (ld ∪ ls)) (ld, ls, false) (cells g).

(** The number of cells of the board that hold a crystal. *)
Definition crystal_count (g : Game) : nat :=
  length (filter (λ c, is_crystal_at g c = true) (cells g)).

(** The crystals of the board that lie in [X]. *)
Definition crystals_in (g : Game) (X : gset Coord) : list Coord :=
  filter (λ c, is_crystal_at g c = true ∧ c ∈ X) (cells g).

(** The invariant behind the bound on the number of passes.  After [k]
    passes, a crystal that is directly lit but has not emitted all of its
    direct rays can only exist if more than [k] crystals are directly lit;
    likewise for a crystal lit by scatter light only.  Each pass that
    changes a set lights a crystal that no earlier pass had lit in that
    class. *)
Definition pending_bound (g : Game) (k : nat) (ld ls : gset Coord) : Prop :=
  (∀ c, c ∈ cells g → is_crystal_at g c = true → c ∈ ld →
        ¬ crystal_rays g c ⊆ ld → (k < length (crystals_in g ld))%nat)
  ∧ (∀ c, c ∈ cells g → is_crystal_at g c = true → c ∈ ls → c ∉ ld →
          ¬ crystal_rays g c ⊆ ls → (k < length (crystals_in g ls))%nat).

(** Every coordinate of [X] is on the board. *)
Definition within (g : Game) (X : gset Coord) : Prop :=
  ∀ c, c ∈ X → in_bounds g c.1 c.2 = true.

(** What the first pass of [recompute_light] maintains: only the direct
    set grows, it stays on the board, and every key of the ledger is a
    directly lit cell. *)
Definition sources_inv (g : Game) (ld ls : gset Coord)
    (st : Game * Ledger) : Prop :=
  ∃ ld1, st.1 = with_lights g ld1 ls ∧ ld ⊆ ld1
         ∧ (within g ld → within g ld1)
         ∧ (∀ c, is_Some (st.2 !! c) → c ∈ ld ∨ c ∈ ld1).

(** The cells of the casts from [c] in the directions [dirs]. *)
Definition dirs_rays (g : Game) (c : Coord) (dirs : list dir_key)
  : gset Coord :=
  ⋃ ((λ d, list_to_set (beam_path g c d)) <$> dirs).

(** Everything the scatter casts of [apply_scattering] light. *)
Definition scatter_rays (g : Game) (items : list (Coord * list dir_key))
  : gset Coord :=
  ⋃ ((λ item : Coord * list dir_key,
        if bool_decide (2 ≤ length item.2)%nat
        then dirs_rays g item.1 item.2 else ∅) <$> items).

(** The loop variables of [recompute_light] after [k] passes from the
    sets [ld0], [ls0]. *)
Definition loop_inv (g : Game) (ld0 ls0 : gset Coord) (k : nat)
    (ld ls : gset Coord) (ch : bool) : Prop :=
  ld0 ⊆ ld ∧ ls0 ⊆ ls
  ∧ (within g ld0 → within g ls0 → within g ld ∧ within g ls)
  ∧ pending_bound g k ld ls
  ∧ (ch = true → (k ≤ crystal_count g)%nat)
  ∧ (k ≤ crystal_count g + 1)%nat
  ∧ (ch = false → (1 ≤ k)%nat)
  ∧ (ch = false → crystal_pass g ld ls = (ld, ls, false)).

(** [items'] lists the entries of [items] in another order, each with
    its directions in another order. *)
Definition items_reordered (items items' : list (Coord * list dir_key)) : Prop :=
  ∃ mid, items ≡ₚ mid
         ∧ Forall2 (λ a b : Coord * list dir_key, a.1 = b.1 ∧ a.2 ≡ₚ b.2)
                   mid items'.

(** ** The game around the engine *)

(** What the methods below print, one constructor per [print] call:
    [msg_energy_depleted n] is ">> Energy depleted: life lost. Lives
    remaining: n", [msg_selected c] is ">> Selected at c", the others are
    the fixed texts "Out of bounds.", ">> Selection cleared.", "Nothing
    selected. ...", "Selected item is no longer movable.", "Blocked by
    boundary.", "Blocked." and ">> Level reset. Energy refilled.". *)
Inductive Message : Type :=
  | msg_energy_depleted (lives_left : Z)
  | msg_out_of_bounds
  | msg_selected (c : Coord)
  | msg_selection_cleared
  | msg_nothing_selected
  | msg_no_longer_movable
  | msg_blocked_by_boundary
  | msg_blocked
  | msg_level_reset.

Definition with_selected (g : Game) (s : option Coord) : Game :=
  mkGame (cfg g) (base g) (start_base g) (energy g) (lives g) s
         (light_direct g) (light_scatter g).

Definition with_energy (g : Game) (e : Z) : Game :=
  mkGame (cfg g) (base g) (start_base g) e (lives g) (selected g)
         (light_direct g) (light_scatter g).

Definition with_lives (g : Game) (l : Z) : Game :=
  mkGame (cfg g) (base g) (start_base g) (energy g) l (selected g)
         (light_direct g) (light_scatter g).

(** The default grid of [__post_init__]. *)
Definition default_base (c : Config) : list (list Z) :=
  (λ _ : Z, (λ _ : Z, V_to_int BG) <$> range (width c)) <$> range (height c).

(** [__post_init__] for [Game(cfg, base)]: an empty [base] is replaced by
    the default grid; [start_base] is a copy of the rows. *)
Definition post_init (c : Config) (b : list (list Z)) : option Game :=
  let b0 := if bool_decide (b = []) then default_base c else b in
  recompute_light (mkGame c b0 b0 (energy_max c) (lives_max c) None ∅ ∅).

Definition spend_energy (g : Game) (cost : Z) : Game * list Message :=
  let g1 := with_energy g (energy g - cost) in
  if bool_decide (energy g1 ≤ 0) then
    let g2 := with_lives g1 (lives g1 - 1) in
    let g3 := with_energy g2 (energy_max (cfg g2)) in
    (g3, [msg_energy_depleted (lives g3)])
  else (g1, []).

(** [t in (V.BLOCK_MOV, V.CRYSTAL)] *)
Definition is_movable (t : V) : bool :=
  match t with
  | BLOCK_MOV | CRYSTAL => true
  | _ => false
  end.

(** [dest in (V.BLOCK_MOV, V.BLOCK_IMMOV, V.CRYSTAL, V.SOURCE_OFF,
    V.SOURCE_ON)] *)
Definition stops_move (dest : V) : bool :=
  match dest with
  | BLOCK_MOV | BLOCK_IMMOV | CRYSTAL | SOURCE_OFF | SOURCE_ON => true
  | _ => false
  end.

Definition interact (g : Game) (y x : Z) : option (Game * list Message) :=
  if negb (in_bounds g y x) then Some (g, [msg_out_of_bounds])
  else
    t ← tile g y x;
    if bool_decide (t = SOURCE_OFF) then
      g1 ← set_tile g y x SOURCE_ON;
      let '(g2, out) := spend_energy g1 1 in
      g3 ← after_change g2;
      Some (g3, out)
    else if bool_decide (t = SOURCE_ON) then
      g1 ← set_tile g y x SOURCE_OFF;
      let '(g2, out) := spend_energy g1 1 in
      g3 ← after_change g2;
      Some (g3, out)
    else if is_movable t then
      Some (with_selected g (Some (y, x)), [msg_selected (y, x)])
    else Some (with_selected g None, [msg_selection_cleared]).

Definition move_selected (g : Game) (dir : dir_key)
  : option (Game * list Message) :=
  match selected g with
  | None => Some (g, [msg_nothing_selected])
  | Some (sy, sx) =>
      t ← tile g sy sx;
      if negb (is_movable t)
      then Some (with_selected g None, [msg_no_longer_movable])
      else
        let '(dy, dx) := DIRS dir in
        let ny := sy + dy in
        let nx := sx + dx in
        if negb (in_bounds g ny nx) then Some (g, [msg_blocked_by_boundary])
        else
          dest ← tile g ny nx;
          let blocked :=
            if bool_decide (t = BLOCK_MOV) then stops_move dest
            else if bool_decide (t = CRYSTAL) then stops_move dest
            else false in
          if blocked then Some (g, [msg_blocked])
          else
            g1 ← set_tile g ny nx t;
            g2 ← set_tile g1 sy sx BG;
            let g3 := with_selected g2 (Some (ny, nx)) in
            let '(g4, out) := spend_energy g3 1 in
            g5 ← after_change g4;
            Some (g5, out)
  end.

(** [self.base] becomes a copy of the rows of [self.start_base]. *)
Definition reset_level (g : Game) : option (Game * list Message) :=
  let g1 := with_base g (start_base g) in
  let g2 := with_selected g1 None in
  let g3 := with_energy g2 (energy_max (cfg g2)) in
  g4 ← after_change g3;
  Some (g4, [msg_level_reset]).

(** The list comprehension of [is_win] over the cells [l]: the
    coordinates whose tile is a block, in order. *)
Fixpoint block_coords (g : Game) (l : list Coord) : option (list Coord) :=
  match l with
  | [] => Some []
  | c :: l' =>
      t ← tile g c.1 c.2;
      rest ← block_coords g l';
      Some (if is_block t then c :: rest else rest)
  end.

(** [sorted(set(l))] *)
Definition sorted_set (l : list Z) : list Z :=
  merge_sort Z.le (remove_dups l).

(** [seq[i]] where the index is known to be in range. *)
Definition item (seq : list Z) (i : Z) : Z := default 0 (py_index seq i).

Definition is_arith (seq : list Z) : bool :=
  if bool_decide (Z.of_nat (length seq) ≤ 2) then true
  else
    let d := item seq 1 - item seq 0 in
    forallb (λ i, bool_decide (item seq (i + 1) - item seq i = d))
            (range (Z.of_nat (length seq) - 1)).

Definition is_win (g : Game) : option bool :=
  blocks ← block_coords g (cells g);
  if bool_decide (blocks = []) then Some false
  else
    let ys := sorted_set (blocks.*1) in
    let xs := sorted_set (blocks.*2) in
    if bool_decide (length ys = 1%nat) && bool_decide (length xs = 1%nat)
    then Some true
    else if negb (is_arith ys && is_arith xs) then Some false
    else
      let want : gset Coord := list_to_set (grid ys xs) in
      let have : gset Coord := list_to_set blocks in
      Some (bool_decide (want = have)).

Definition is_loss (g : Game) : bool := bool_decide (lives g ≤ 0).

(** ** Notions for the game *)

(** What the game keeps true between two commands: the board and the
    start layout are well-formed, a selection is on the board, the energy
    is between 1 and its maximum, and the light sets are those of the
    board. *)
Definition game_ok (g : Game) : Prop :=
  well_formed g = true
  ∧ well_formed (with_base g (start_base g)) = true
  ∧ (∀ c, selected g = Some c → in_bounds g c.1 c.2 = true)
  ∧ 1 ≤ energy g ≤ energy_max (cfg g)
  ∧ recompute_light g = Some g.

(** [h] has the extent of [g] and the same cells, but for movable blocks
    of [g] that may be immovable in [h]. *)
Definition locked_from (g h : Game) : Prop :=
  cfg h = cfg g
  ∧ ∀ y x, in_bounds g y x = true →
      tile h y x = tile g y x
      ∨ (tile g y x = Some BLOCK_MOV ∧ tile h y x = Some BLOCK_IMMOV).

(** The states of the first pass on [g] and on [h]: same sets, same
    ledger. *)
Definition sources_rel (g h : Game) (s t : Game * Ledger) : Prop :=
  ∃ ld ls, s.1 = with_lights g ld ls ∧ t.1 = with_lights h ld ls ∧ s.2 = t.2.

(** A board without a switched-on source. *)
Definition no_source_on (g : Game) : Prop :=
  ∀ y x, in_bounds g y x = true → tile g y x ≠ Some SOURCE_ON.

Definition toggled (t : V) : V :=
  match t with
  | SOURCE_OFF => SOURCE_ON
  | SOURCE_ON => SOURCE_OFF
  | _ => t
  end.

(** ** More scenario boards *)

(** [scenario_block] with its block locked. *)
Definition scenario_locked : Game :=
  new_game cfg5 (board_of_kinds
    [ [BG; BG; BG; BG; BG];
      [BG; BG; BG; BG; BG];
      [SOURCE_ON; BG; BLOCK_IMMOV; BG; BG];
      [BG; BG; BG; BG; BG];
      [BG; BG; BG; BG; BG] ]).

(** A switched-off source at (2,0), a movable block at (2,2), a crystal
    at (4,2), an immovable block at (0,4); nothing is lit. *)
Definition scenario_play : Game :=
  new_game cfg5 (board_of_kinds
    [ [BG; BG; BG; BG; BLOCK_IMMOV];
      [BG; BG; BG; BG; BG];
      [SOURCE_OFF; BG; BLOCK_MOV; BG; BG];
      [BG; BG; BG; BG; BG];
      [BG; BG; CRYSTAL; BG; BG] ]).

(** Four blocks at the corners of a square. *)
Definition scenario_grid : Game :=
  new_game cfg5 (board_of_kinds
    [ [BG; BG; BG; BG; BG];
      [BG; BLOCK_MOV; BG; BLOCK_IMMOV; BG];
      [BG; BG; BG; BG; BG];
      [BG; BLOCK_MOV; BG; BLOCK_MOV; BG];
      [BG; BG; BG; BG; BG] ]).

(** [scenario_crystals] as [recompute_light] has it when the refraction
    loop begins: the beams of the source at (2,0) are cast, the crystal
    at (2,2) is lit directly and has not emitted yet. *)
Definition scenario_crystals_lit : Game :=
  with_lights scenario_crystals
    {[ (2, 1); (2, 2); (2, 3); (2, 4); (1, 0); (0, 0); (3, 0); (4, 0) ]} ∅.

(** [scenario_play] after three commands: the block at (2,2) selected,
    moved down to (3,2), and the source at (2,0) switched on.  Two units
    of energy are spent, the block is selected, the source lights its
    row and its column. *)
Definition scenario_played : Game :=
  mkGame cfg5
    (board_of_kinds
       [ [BG; BG; BG; BG; BLOCK_IMMOV];
         [BG; BG; BG; BG; BG];
         [SOURCE_ON; BG; BG; BG; BG];
         [BG; BG; BLOCK_MOV; BG; BG];
         [BG; BG; CRYSTAL; BG; BG] ])
    (base scenario_play) 18 3 (Some (3, 2))
    {[ (2, 1); (2, 2); (2, 3); (2, 4); (1, 0); (0, 0); (3, 0); (4, 0) ]} ∅.

(** ** Pieces *)

(** What a cell counts as: a block (movable or not), a crystal, a
    source (on or off), or nothing. *)
Inductive piece : Set := piece_block | piece_crystal | piece_source | piece_none.

#[global] Instance piece_eq_dec : EqDecision piece.
Proof. solve_decision. Defined.

Definition kind_piece (t : V) : piece :=
  match t with
  | BLOCK_MOV | BLOCK_IMMOV => piece_block
  | CRYSTAL => piece_crystal
  | SOURCE_ON | SOURCE_OFF => piece_source
  | _ => piece_none
  end.

(** The cells of the board that hold a piece [p], in row-major order,
    and their number. *)
Definition pieces (g : Game) (p : piece) : list Coord :=
  filter (λ c, kind_piece <$> tile g c.1 c.2 = Some p) (cells g).

Definition census (g : Game) (p : piece) : nat := length (pieces g p).

(** * Properties *)

(** ** Loops *)

Lemma for_each_app {A S : Type} (body : S → A → option S) (s : S) (l1 l2 : list A) :
  for_each body s (l1 ++ l2) = s' ← for_each body s l1; for_each body s' l2.
Proof.
  revert s. induction l1 as [|a l1 IH]; intros s; simpl; [done|].
  destruct (body s a) as [s1|]; simpl; [apply IH | done].
Qed.

Lemma for_each_fmap {A B S : Type} (body : S → B → option S) (h : A → B)
    (s : S) (l : list A) :
  for_each body s (h <$> l) = for_each (λ s a, body s (h a)) s l.
Proof.
  revert s. induction l as [|a l IH]; intros s; simpl; [done|].
  destruct (body s (h a)); simpl; [apply IH | done].
Qed.

Lemma for_each_grid {S : Type} (body : Z → S → Z → option S) (s : S)
    (ys xs : list Z) :
  for_each (λ s y, for_each (body y) s xs) s ys
  = for_each (λ s (c : Coord), body c.1 s c.2) s (grid ys xs).
Proof.
  revert s. induction ys as [|y ys IH]; intros s; simpl; [done|].
  rewrite for_each_app, for_each_fmap. simpl.
  destruct (for_each (body y) s xs); simpl; [apply IH | done].
Qed.

(** A loop whose body maintains an invariant and never raises under it. *)
Lemma for_each_inv {A S : Type} (P : S → Prop) (body : S → A → option S)
    (l : list A) (s : S) :
  P s →
  (∀ s a, a ∈ l → P s → ∃ s', body s a = Some s' ∧ P s') →
  ∃ s', for_each body s l = Some s' ∧ P s'.
Proof.
  revert s. induction l as [|a l IH]; intros s Hs Hbody; simpl; [eauto|].
  destruct (Hbody s a) as (s1 & -> & Hs1); [left | done |]. simpl.
  apply IH; [done|]. intros s2 b Hb. apply Hbody. by right.
Qed.

(** A loop whose body is a pure step on a representation of the state. *)
Lemma for_each_repr {A S T : Type} (body : S → A → option S)
    (step : T → A → T) (repr : T → S) (l : list A) :
  (∀ t a, a ∈ l → body (repr t) a = Some (repr (step t a))) →
  ∀ t, for_each body (repr t) l = Some (repr (foldl step t l)).
Proof.
  induction l as [|a l IH]; intros Hbody t; simpl; [done|].
  rewrite Hbody by left. simpl. apply IH. intros t' b Hb. apply Hbody. by right.
Qed.

(** ** The board *)

Lemma in_bounds_spec g y x :
  in_bounds g y x = true ↔ 0 ≤ y < height (cfg g) ∧ 0 ≤ x < width (cfg g).
Proof.
  unfold in_bounds. by rewrite andb_true_iff, !bool_decide_eq_true.
Qed.

Lemma well_formed_spec g :
  well_formed g = true ↔
  Z.of_nat (length (base g)) = height (cfg g)
  ∧ ∀ row, row ∈ base g →
      Z.of_nat (length row) = width (cfg g) ∧ ∀ n, n ∈ row → 0 ≤ n ≤ 11.
Proof.
  unfold well_formed.
  rewrite andb_true_iff, bool_decide_eq_true, forallb_forall.
  split; intros [Hh Hrows]; (split; [done|]).
  - intros row Hrow. apply list_elem_of_In, Hrows in Hrow.
    apply andb_true_iff in Hrow as [Hw Hcells].
    apply bool_decide_eq_true in Hw. split; [done|].
    intros n Hn. rewrite forallb_forall in Hcells.
    apply list_elem_of_In, Hcells in Hn. by apply bool_decide_eq_true in Hn.
  - intros row Hrow. apply list_elem_of_In, Hrows in Hrow as [Hw Hcells].
    apply andb_true_iff. split; [by apply bool_decide_eq_true|].
    apply forallb_forall. intros n Hn. apply bool_decide_eq_true.
    by apply Hcells, list_elem_of_In.
Qed.

Lemma V_of_to_int v : V_of_int (V_to_int v) = Some v.
Proof. by destruct v. Qed.

Lemma V_to_int_range v : 0 ≤ V_to_int v ≤ 11.
Proof. destruct v; simpl; lia. Qed.

Lemma V_of_int_total n : 0 ≤ n ≤ 11 → is_Some (V_of_int n).
Proof.
  intros Hn.
  assert (n = 0 ∨ n = 1 ∨ n = 2 ∨ n = 3 ∨ n = 4 ∨ n = 5 ∨ n = 6 ∨ n = 7
          ∨ n = 8 ∨ n = 9 ∨ n = 10 ∨ n = 11) as Hcases by lia.
  repeat (destruct Hcases as [-> | Hcases]; [by eexists|]).
  subst n. by eexists.
Qed.

Lemma py_index_nonneg {A : Type} (l : list A) (i : Z) :
  0 ≤ i < Z.of_nat (length l) → py_index l i = l !! Z.to_nat i.
Proof. intros Hi. unfold py_index. by rewrite bool_decide_eq_true_2. Qed.

Lemma py_setitem_nonneg {A : Type} (l : list A) (i : Z) (v : A) :
  0 ≤ i < Z.of_nat (length l) →
  py_setitem l i v = Some (<[Z.to_nat i := v]> l).
Proof. intros Hi. unfold py_setitem. by rewrite bool_decide_eq_true_2. Qed.

(** The row and the integer behind an in-range cell of a well-formed board. *)
Lemma tile_in_bounds g y x :
  well_formed g = true → in_bounds g y x = true →
  ∃ row n t,
    base g !! Z.to_nat y = Some row ∧ Z.of_nat (length row) = width (cfg g)
    ∧ row !! Z.to_nat x = Some n ∧ V_of_int n = Some t
    ∧ tile g y x = Some t.
Proof.
  intros [Hh Hrows]%well_formed_spec [Hy Hx]%in_bounds_spec.
  destruct (lookup_lt_is_Some_2 (base g) (Z.to_nat y)) as [row Hrow]; [lia|].
  destruct (Hrows row) as [Hw Hcells]; [by eapply list_elem_of_lookup_2|].
  destruct (lookup_lt_is_Some_2 row (Z.to_nat x)) as [n Hn]; [lia|].
  destruct (V_of_int_total n) as [t Ht];
    [by eapply Hcells, list_elem_of_lookup_2|].
  exists row, n, t. repeat split; try done.
  unfold tile. rewrite py_index_nonneg, Hrow by lia. simpl.
  rewrite py_index_nonneg, Hn by lia. done.
Qed.

Lemma tile_total g y x :
  well_formed g = true → in_bounds g y x = true → is_Some (tile g y x).
Proof.
  intros Hwf Hin. destruct (tile_in_bounds g y x Hwf Hin) as (?&?&t&?&?&?&?&?).
  by exists t.
Qed.

(** [set_tile] on an in-range cell of a well-formed board. *)
Lemma set_tile_in_bounds g y x v :
  well_formed g = true → in_bounds g y x = true →
  ∃ g', set_tile g y x v = Some g'
        ∧ g' = with_base g (base g')
        ∧ well_formed g' = true
        ∧ tile g' y x = Some v
        ∧ ∀ y' x', in_bounds g y' x' = true → (y', x') ≠ (y, x) →
                   tile g' y' x' = tile g y' x'.
Proof.
  intros Hwf Hin.
  destruct (tile_in_bounds g y x Hwf Hin) as (row & n & t & Hrow & Hw & Hn & _).
  pose proof Hwf as [Hh Hrows]%well_formed_spec.
  pose proof Hin as [Hy Hx]%in_bounds_spec.
  set (row' := <[Z.to_nat x := V_to_int v]> row).
  set (b := <[Z.to_nat y := row']> (base g)).
  assert (set_tile g y x v = Some (with_base g b)) as Hset.
  { unfold set_tile. rewrite py_index_nonneg, Hrow by lia. simpl.
    rewrite py_setitem_nonneg by lia. simpl.
    rewrite py_setitem_nonneg by lia. done. }
  assert (Z.of_nat (length row') = width (cfg g)) as Hw'.
  { unfold row'. by rewrite length_insert. }
  assert (Z.of_nat (length b) = height (cfg g)) as Hh'.
  { unfold b. by rewrite length_insert. }
  assert (well_formed (with_base g b) = true) as Hwf'.
  { apply well_formed_spec. simpl. split; [done|].
    intros r [i Hi]%list_elem_of_lookup_1.
    destruct (decide (i = Z.to_nat y)) as [->|Hne].
    - unfold b in Hi. rewrite list_lookup_insert_eq in Hi by lia.
      injection Hi as <-. split; [done|].
      intros m [j Hj]%list_elem_of_lookup_1.
      destruct (decide (j = Z.to_nat x)) as [->|Hnej].
      + unfold row' in Hj. rewrite list_lookup_insert_eq in Hj by lia.
        injection Hj as <-. apply V_to_int_range.
      + unfold row' in Hj. rewrite list_lookup_insert_ne in Hj by done.
        destruct (Hrows row) as [_ Hc]; [by eapply list_elem_of_lookup_2|].
        by eapply Hc, list_elem_of_lookup_2.
    - unfold b in Hi. rewrite list_lookup_insert_ne in Hi by done.
      by eapply Hrows, list_elem_of_lookup_2. }
  exists (with_base g b). split; [done|]. split; [done|]. split; [done|]. split.
  - unfold tile. simpl. rewrite py_index_nonneg by lia.
    unfold b. rewrite list_lookup_insert_eq by lia. simpl.
    rewrite py_index_nonneg by lia.
    unfold row'. rewrite list_lookup_insert_eq by lia. simpl.
    apply V_of_to_int.
  - intros y' x' [Hy' Hx']%in_bounds_spec Hne.
    unfold tile. simpl. rewrite !py_index_nonneg by lia.
    destruct (decide (Z.to_nat y' = Z.to_nat y)) as [Heq|Hney].
    + rewrite Heq. unfold b. rewrite list_lookup_insert_eq, Hrow by lia. simpl.
      rewrite !py_index_nonneg by lia.
      unfold row'. rewrite list_lookup_insert_ne; [done|].
      intros Hx2. apply Hne. f_equal; lia.
    + unfold b. by rewrite list_lookup_insert_ne.
Qed.

(** ** Lines *)

Lemma neighbors_line_from_lookup fuel g dy dx ny nx (i : nat) c :
  neighbors_line_from fuel g dy dx ny nx !! i = Some c →
  c = (ny + Z.of_nat i * dy, nx + Z.of_nat i * dx) ∧ in_bounds g c.1 c.2 = true.
Proof.
  revert ny nx i. induction fuel as [|fuel IH]; intros ny nx i; simpl; [done|].
  destruct (in_bounds g ny nx) eqn:Hin; [|done].
  destruct i as [|i]; simpl.
  - intros [= <-]. split; [f_equal; lia | done].
  - intros [-> Hc]%IH. split; [f_equal; lia | done].
Qed.

Lemma neighbors_line_lookup g y x dir (i : nat) c :
  neighbors_line g y x dir !! i = Some c →
  c = (y + (Z.of_nat i + 1) * (DIRS dir).1, x + (Z.of_nat i + 1) * (DIRS dir).2)
  ∧ in_bounds g c.1 c.2 = true.
Proof.
  unfold neighbors_line. destruct (DIRS dir) as [dy dx] eqn:Hd. simpl.
  intros [-> Hc]%neighbors_line_from_lookup. split; [f_equal; lia | done].
Qed.

Lemma neighbors_line_in_bounds g y x dir c :
  c ∈ neighbors_line g y x dir → in_bounds g c.1 c.2 = true.
Proof.
  intros [i Hi]%list_elem_of_lookup_1.
  by apply neighbors_line_lookup in Hi as [_ ?].
Qed.

Lemma neighbors_line_NoDup g y x dir : NoDup (neighbors_line g y x dir).
Proof.
  apply NoDup_alt. intros i j c Hi Hj.
  apply neighbors_line_lookup in Hi as [Hi _].
  apply neighbors_line_lookup in Hj as [Hj _].
  rewrite Hi in Hj. destruct dir; simpl in Hj; injection Hj; lia.
Qed.

Lemma neighbors_line_from_exits fuel g dir ny nx :
  (in_bounds g ny nx = true → steps_left g dir ny nx ≤ Z.of_nat fuel) →
  let l := neighbors_line_from fuel g (DIRS dir).1 (DIRS dir).2 ny nx in
  in_bounds g (ny + Z.of_nat (length l) * (DIRS dir).1)
              (nx + Z.of_nat (length l) * (DIRS dir).2) = false.
Proof.
  revert ny nx. induction fuel as [|fuel IH]; intros ny nx Hfuel; simpl.
  - destruct (in_bounds g ny nx) eqn:Hin.
    + apply in_bounds_spec in Hin. specialize (Hfuel eq_refl).
      destruct dir; simpl in Hfuel; lia.
    + by replace (ny + 0 * _) with ny by lia; replace (nx + 0 * _) with nx by lia.
  - destruct (in_bounds g ny nx) eqn:Hin; simpl.
    + specialize (IH (ny + (DIRS dir).1) (nx + (DIRS dir).2)). simpl in IH.
      rewrite <- IH.
      * f_equal; lia.
      * intros Hin'. specialize (Hfuel eq_refl).
        destruct dir; simpl in *; lia.
    + by replace (ny + 0 * _) with ny by lia; replace (nx + 0 * _) with nx by lia.
Qed.

(** The generator's loop has exited when the model's list ends: the cell
    after the last one yielded is out of range, so the fuel of
    [neighbors_line] never cuts a line short. *)
Lemma neighbors_line_exits g y x dir :
  let l := neighbors_line g y x dir in
  in_bounds g (y + (Z.of_nat (length l) + 1) * (DIRS dir).1)
              (x + (Z.of_nat (length l) + 1) * (DIRS dir).2) = false.
Proof.
  simpl. unfold neighbors_line.
  pose proof (neighbors_line_from_exits
                (Z.to_nat (Z.max (height (cfg g)) (width (cfg g)))) g dir
                (y + (DIRS dir).1) (x + (DIRS dir).2)) as Hex.
  destruct (DIRS dir) as [dy dx] eqn:Hd. simpl in *.
  rewrite <- Hex.
  - f_equal; lia.
  - intros [Hy Hx]%in_bounds_spec. destruct dir; simpl; lia.
Qed.

(** ** Single casts *)

Lemma tiles_ok_cons g c line :
  tiles_ok g (c :: line) → is_Some (tile g c.1 c.2) ∧ tiles_ok g line.
Proof.
  intros Hok. split; [apply Hok; left|]. intros c' Hc'. apply Hok. by right.
Qed.

Lemma tiles_ok_line g y x dir :
  well_formed g = true → tiles_ok g (neighbors_line g y x dir).
Proof.
  intros Hwf c Hc. apply tile_total; [done|].
  by eapply neighbors_line_in_bounds.
Qed.

Lemma beam_cells_subseteq g line c : c ∈ beam_cells g line → c ∈ line.
Proof.
  induction line as [|c' line IH]; simpl; [done|].
  destruct (is_block_at g c').
  - intros ->%list_elem_of_singleton. left.
  - intros [->|Hc]%elem_of_cons; [left | right; auto].
Qed.

Lemma ledger_cells_subseteq g line c :
  c ∈ ledger_cells g line → c ∈ beam_cells g line.
Proof.
  induction line as [|c' line IH]; simpl; [done|].
  destruct (is_block_at g c'); [by intros ?%elem_of_nil|].
  intros [->|Hc]%elem_of_cons; [left | right; auto].
Qed.

(** Cells before the first block are all walked over, and so is the cell
    that follows them. *)
Lemma beam_cells_prefix g pre c post :
  (∀ p, p ∈ pre → is_block_at g p = false) →
  (∀ p, p ∈ pre → p ∈ beam_cells g (pre ++ c :: post))
  ∧ c ∈ beam_cells g (pre ++ c :: post).
Proof.
  induction pre as [|p pre IH]; intros Hpre; simpl.
  - split; [by intros ? ?%elem_of_nil|]. destruct (is_block_at g c); left.
  - rewrite (Hpre p) by left.
    destruct IH as [IH1 IH2]; [intros q Hq; apply Hpre; by right|].
    split; [|by right].
    intros q [->|Hq]%elem_of_cons; [left | right; auto].
Qed.


Lemma beam_path_in_bounds g c dir c' :
  c' ∈ beam_path g c dir → in_bounds g c'.1 c'.2 = true.
Proof.
  intros Hc'%beam_cells_subseteq. by eapply neighbors_line_in_bounds.
Qed.

(** The flag of a cast is raised exactly when its set grows. *)
Lemma changed_flag_step (c : Coord) (X ld : gset Coord) (ch : bool) :
  (if bool_decide (c ∉ ld) then true else ch)
  || bool_decide (X ∪ ({[c]} ∪ ld) ≠ {[c]} ∪ ld)
  = ch || bool_decide (({[c]} ∪ X) ∪ ld ≠ ld).
Proof.
  destruct (decide (c ∈ ld)) as [Hc|Hc].
  - rewrite (bool_decide_eq_false_2 (c ∉ ld)) by tauto.
    replace ({[c]} ∪ ld) with ld by set_solver.
    replace (({[c]} ∪ X) ∪ ld) with (X ∪ ld) by set_solver. done.
  - rewrite (bool_decide_eq_true_2 (c ∉ ld)) by done. simpl.
    rewrite (bool_decide_eq_true_2 (_ ≠ ld)) by set_solver.
    by rewrite orb_true_r.
Qed.

Lemma cast_scatter_walk_spec g line :
  tiles_ok g line →
  ∀ ld ls, cast_scatter_walk (with_lights g ld ls) line
           = Some (with_lights g ld (list_to_set (beam_cells g line) ∪ ls)).
Proof.
  induction line as [|[y x] line IH]; intros Hok ld ls; simpl.
  - f_equal. f_equal. set_solver.
  - apply tiles_ok_cons in Hok as [[t Ht] Hok]. simpl in Ht.
    change (tile (with_lights g ld ls) y x) with (tile g y x).
    unfold is_block_at. simpl. rewrite Ht. simpl.
    destruct (is_block t).
    + unfold add_scatter. simpl. f_equal. unfold with_lights. simpl.
      f_equal. set_solver.
    + change (add_scatter (with_lights g ld ls) (y, x))
        with (with_lights g ld ({[(y, x)]} ∪ ls)).
      rewrite IH by done. f_equal. unfold with_lights. f_equal. set_solver.
Qed.

Lemma cast_scatter_line_walk_spec g line :
  tiles_ok g line →
  ∀ ld ls ch,
    cast_scatter_line_walk (with_lights g ld ls) ch line
    = Some (with_lights g ld (list_to_set (beam_cells g line) ∪ ls),
            ch || bool_decide (list_to_set (beam_cells g line) ∪ ls ≠ ls)).
Proof.
  induction line as [|[y x] line IH]; intros Hok ld ls ch; simpl.
  - replace (∅ ∪ ls) with ls by set_solver.
    rewrite bool_decide_eq_false_2 by tauto. by rewrite orb_false_r.
  - apply tiles_ok_cons in Hok as [[t Ht] Hok]. simpl in Ht.
    change (tile (with_lights g ld ls) y x) with (tile g y x).
    unfold is_block_at. simpl. rewrite Ht. simpl.
    destruct (is_block t).
    + unfold add_scatter. simpl.
      pose proof (changed_flag_step (y, x) ∅ ls ch) as Hflag.
      replace (∅ ∪ ({[(y, x)]} ∪ ls)) with ({[(y, x)]} ∪ ls) in Hflag
        by set_solver.
      rewrite (bool_decide_eq_false_2 (_ ∪ ls ≠ _ ∪ ls)) in Hflag by tauto.
      rewrite orb_false_r in Hflag. rewrite Hflag.
      replace (list_to_set [(y, x)] ∪ ls) with ({[(y, x)]} ∪ ls) by set_solver.
      replace (({[(y, x)]} ∪ ∅) ∪ ls) with ({[(y, x)]} ∪ ls) by set_solver.
      done.
    + change (add_scatter (with_lights g ld ls) (y, x))
        with (with_lights g ld ({[(y, x)]} ∪ ls)).
      rewrite IH by done. rewrite changed_flag_step.
      replace (list_to_set (beam_cells g line) ∪ ({[(y, x)]} ∪ ls))
        with (({[(y, x)]} ∪ list_to_set (beam_cells g line)) ∪ ls)
        by set_solver.
      done.
Qed.

Lemma cast_direct_line_walk_spec g line :
  tiles_ok g line →
  ∀ ld ls ch,
    cast_direct_line_walk (with_lights g ld ls) ch line
    = Some (with_lights g (list_to_set (beam_cells g line) ∪ ld) ls,
            ch || bool_decide (list_to_set (beam_cells g line) ∪ ld ≠ ld)).
Proof.
  induction line as [|[y x] line IH]; intros Hok ld ls ch; simpl.
  - replace (∅ ∪ ld) with ld by set_solver.
    rewrite bool_decide_eq_false_2 by tauto. by rewrite orb_false_r.
  - apply tiles_ok_cons in Hok as [[t Ht] Hok]. simpl in Ht.
    change (tile (with_lights g ld ls) y x) with (tile g y x).
    unfold is_block_at. simpl. rewrite Ht. simpl.
    destruct (is_block t).
    + unfold add_direct. simpl.
      pose proof (changed_flag_step (y, x) ∅ ld ch) as Hflag.
      replace (∅ ∪ ({[(y, x)]} ∪ ld)) with ({[(y, x)]} ∪ ld) in Hflag
        by set_solver.
      rewrite (bool_decide_eq_false_2 (_ ∪ ld ≠ _ ∪ ld)) in Hflag by tauto.
      rewrite orb_false_r in Hflag. rewrite Hflag.
      replace (list_to_set [(y, x)] ∪ ld) with ({[(y, x)]} ∪ ld) by set_solver.
      replace (({[(y, x)]} ∪ ∅) ∪ ld) with ({[(y, x)]} ∪ ld) by set_solver.
      done.
    + change (add_direct (with_lights g ld ls) (y, x))
        with (with_lights g ({[(y, x)]} ∪ ld) ls).
      rewrite IH by done. rewrite changed_flag_step.
      replace (list_to_set (beam_cells g line) ∪ ({[(y, x)]} ∪ ld))
        with (({[(y, x)]} ∪ list_to_set (beam_cells g line)) ∪ ld)
        by set_solver.
      done.
Qed.

Lemma cast_beam_direct_walk_spec g dir line :
  tiles_ok g line →
  ∀ ld ls beams,
    cast_beam_direct_walk (with_lights g ld ls) dir beams line
    = Some (with_lights g (list_to_set (beam_cells g line) ∪ ld) ls,
            foldl (λ b c, ledger_add b c dir) beams (ledger_cells g line)).
Proof.
  induction line as [|[y x] line IH]; intros Hok ld ls beams; simpl.
  - f_equal. f_equal. unfold with_lights. f_equal. set_solver.
  - apply tiles_ok_cons in Hok as [[t Ht] Hok]. simpl in Ht.
    change (tile (with_lights g ld ls) y x) with (tile g y x).
    unfold is_block_at. simpl. rewrite Ht. simpl.
    destruct (is_block t).
    + unfold add_direct. simpl. f_equal. f_equal. unfold with_lights. simpl.
      f_equal. set_solver.
    + change (add_direct (with_lights g ld ls) (y, x))
        with (with_lights g ({[(y, x)]} ∪ ld) ls).
      rewrite IH by done. simpl. f_equal. f_equal. unfold with_lights.
      f_equal. set_solver.
Qed.

Lemma with_lights_id g : with_lights g (light_direct g) (light_scatter g) = g.
Proof. by destruct g. Qed.

Lemma neighbors_line_with_lights g ld ls y x dir :
  neighbors_line (with_lights g ld ls) y x dir = neighbors_line g y x dir.
Proof.
  unfold neighbors_line. destruct (DIRS dir) as [dy dx]. simpl.
  generalize (Z.to_nat (Z.max (height (cfg g)) (width (cfg g)))).
  generalize (y + dy) (x + dx).
  intros ny nx fuel. revert ny nx.
  induction fuel as [|fuel IH]; intros ny nx; simpl; [done|].
  change (in_bounds (with_lights g ld ls) ny nx) with (in_bounds g ny nx).
  by rewrite IH.
Qed.

Lemma cast_scatter_from_spec g c dir ld ls :
  well_formed g = true →
  cast_scatter_from (with_lights g ld ls) c dir
  = Some (with_lights g ld (list_to_set (beam_path g c dir) ∪ ls)).
Proof.
  intros Hwf. destruct c as [y x]. unfold cast_scatter_from, beam_path.
  rewrite neighbors_line_with_lights.
  apply cast_scatter_walk_spec. by apply tiles_ok_line.
Qed.

Lemma cast_beam_direct_spec g c dir ld ls beams :
  well_formed g = true →
  cast_beam_direct (with_lights g ld ls) c dir beams
  = Some (with_lights g (list_to_set (beam_path g c dir) ∪ ld) ls,
          foldl (λ b c', ledger_add b c' dir) beams
                (ledger_cells g (neighbors_line g c.1 c.2 dir))).
Proof.
  intros Hwf. destruct c as [y x]. unfold cast_beam_direct, beam_path.
  rewrite neighbors_line_with_lights.
  apply cast_beam_direct_walk_spec. by apply tiles_ok_line.
Qed.

Lemma cast_direct_line_from_spec g c dir ld ls :
  well_formed g = true →
  cast_direct_line_from (with_lights g ld ls) c dir
  = Some (with_lights g (list_to_set (beam_path g c dir) ∪ ld) ls,
          bool_decide (list_to_set (beam_path g c dir) ∪ ld ≠ ld)).
Proof.
  intros Hwf. destruct c as [y x]. unfold cast_direct_line_from, beam_path.
  rewrite neighbors_line_with_lights.
  rewrite cast_direct_line_walk_spec by by apply tiles_ok_line. done.
Qed.

Lemma cast_scatter_line_from_spec g c dir ld ls :
  well_formed g = true →
  cast_scatter_line_from (with_lights g ld ls) c dir
  = Some (with_lights g ld (list_to_set (beam_path g c dir) ∪ ls),
          bool_decide (list_to_set (beam_path g c dir) ∪ ls ≠ ls)).
Proof.
  intros Hwf. destruct c as [y x]. unfold cast_scatter_line_from, beam_path.
  rewrite neighbors_line_with_lights.
  rewrite cast_scatter_line_walk_spec by by apply tiles_ok_line. done.
Qed.

(** ** One refraction pass *)

Lemma flag_chain (X Y s : gset Coord) :
  bool_decide (X ∪ s ≠ s) || bool_decide (Y ∪ (X ∪ s) ≠ X ∪ s)
  = bool_decide ((X ∪ Y) ∪ s ≠ s).
Proof.
  destruct (decide (X ∪ s = s)) as [Heq|Hne].
  - rewrite (bool_decide_eq_false_2 (X ∪ s ≠ s)) by tauto. simpl.
    rewrite Heq. by replace ((X ∪ Y) ∪ s) with (Y ∪ s) by set_solver.
  - rewrite (bool_decide_eq_true_2 (X ∪ s ≠ s)) by done. simpl.
    symmetry. apply bool_decide_eq_true_2. set_solver.
Qed.

Lemma four_casts_sets (a b c d s : gset Coord) :
  d ∪ (c ∪ (b ∪ (a ∪ s))) = ⋃ [a; b; c; d] ∪ s.
Proof. simpl. set_solver. Qed.

Lemma four_casts_flag (a b c d s : gset Coord) (ch : bool) :
  (((ch || bool_decide (a ∪ s ≠ s))
     || bool_decide (b ∪ (a ∪ s) ≠ a ∪ s))
     || bool_decide (c ∪ (b ∪ (a ∪ s)) ≠ b ∪ (a ∪ s)))
     || bool_decide (d ∪ (c ∪ (b ∪ (a ∪ s))) ≠ c ∪ (b ∪ (a ∪ s)))
  = ch || bool_decide (⋃ [a; b; c; d] ∪ s ≠ s).
Proof.
  replace (⋃ [a; b; c; d]) with (((a ∪ b) ∪ c) ∪ d) by (simpl; set_solver).
  rewrite <- !orb_assoc. f_equal.
  rewrite orb_assoc, flag_chain.
  replace (b ∪ (a ∪ s)) with ((a ∪ b) ∪ s) by set_solver.
  rewrite orb_assoc, flag_chain.
  replace (c ∪ ((a ∪ b) ∪ s)) with (((a ∪ b) ∪ c) ∪ s) by set_solver.
  by rewrite flag_chain.
Qed.

Lemma elem_of_range (n y : Z) : y ∈ range n ↔ 0 ≤ y < n.
Proof.
  unfold range. rewrite list_elem_of_fmap. split.
  - intros (k & -> & Hk). apply elem_of_seq in Hk. lia.
  - intros Hy. exists (Z.to_nat y). split; [lia|]. apply elem_of_seq. lia.
Qed.

Lemma elem_of_grid (ys xs : list Z) (c : Coord) :
  c ∈ grid ys xs ↔ c.1 ∈ ys ∧ c.2 ∈ xs.
Proof.
  unfold grid. rewrite list_elem_of_In, in_flat_map. split.
  - intros (y & Hy%list_elem_of_In & Hc%list_elem_of_In).
    apply list_elem_of_fmap in Hc as (x & -> & Hx). done.
  - intros [Hy Hx]. exists c.1. split; [by apply list_elem_of_In|].
    apply list_elem_of_In, list_elem_of_fmap. exists c.2.
    split; [by destruct c | done].
Qed.

Lemma elem_of_cells g c : c ∈ cells g ↔ in_bounds g c.1 c.2 = true.
Proof.
  unfold cells. by rewrite elem_of_grid, !elem_of_range, in_bounds_spec.
Qed.

#[local] Opaque cast_direct_line_from cast_scatter_line_from.

Lemma apply_crystals_cell_spec g lit y x st :
  well_formed g = true → in_bounds g y x = true →
  apply_crystals_cell lit y (pass_repr g st) x
  = Some (pass_repr g (crystal_step g lit st (y, x))).
Proof.
  intros Hwf Hin. destruct st as [[ld ls] ch].
  destruct (tile_total g y x Hwf Hin) as [t Ht].
  unfold apply_crystals_cell, pass_repr, crystal_step, is_crystal_at. simpl.
  change (tile (with_lights g ld ls) y x) with (tile g y x).
  rewrite Ht. simpl.
  destruct (decide (t = CRYSTAL)) as [->|Hne].
  - rewrite !bool_decide_eq_true_2 by done. simpl.
    destruct (bool_decide ((y, x) ∈ lit)); [|done].
    unfold crystal_rays, UDLR.
    destruct (bool_decide ((y, x) ∈ ld)).
    + rewrite !cast_direct_line_from_spec by done. simpl.
      rewrite !cast_direct_line_from_spec by done. simpl.
      rewrite !cast_direct_line_from_spec by done. simpl.
      rewrite !cast_direct_line_from_spec by done. simpl.
      rewrite four_casts_flag, four_casts_sets. done.
    + rewrite !cast_scatter_line_from_spec by done. simpl.
      rewrite !cast_scatter_line_from_spec by done. simpl.
      rewrite !cast_scatter_line_from_spec by done. simpl.
      rewrite !cast_scatter_line_from_spec by done. simpl.
      rewrite four_casts_flag, four_casts_sets. done.
  - rewrite (bool_decide_eq_false_2 (t = CRYSTAL)) by done.
    rewrite (bool_decide_eq_false_2 (Some t = Some CRYSTAL)) by congruence.
    done.
Qed.

#[local] Transparent cast_direct_line_from cast_scatter_line_from.

(** A pass of [apply_crystals] is the fold of [crystal_step] over the
    cells in row-major order; it never raises on a well-formed board. *)
Lemma apply_crystals_spec g ld ls :
  well_formed g = true →
  apply_crystals (with_lights g ld ls)
  = Some (pass_repr g (crystal_pass g ld ls)).
Proof.
  intros Hwf. unfold apply_crystals, crystal_pass. rewrite for_each_grid.
  change (with_lights g ld ls, false) with (pass_repr g (ld, ls, false)).
  apply (for_each_repr _ (crystal_step g (ld ∪ ls)) (pass_repr g)).
  intros st [y x] Hc. apply elem_of_cells in Hc.
  by apply apply_crystals_cell_spec.
Qed.

Section pass_facts.
Context (g : Game) (lit : gset Coord).

Lemma crystal_step_mono st c :
  st.1.1 ⊆ (crystal_step g lit st c).1.1
  ∧ st.1.2 ⊆ (crystal_step g lit st c).1.2.
Proof.
  destruct st as [[ld ls] ch]. unfold crystal_step.
  destruct (_ && _); [|done].
  destruct (bool_decide _); simpl; set_solver.
Qed.

Lemma crystal_fold_mono l st :
  st.1.1 ⊆ (foldl (crystal_step g lit) st l).1.1
  ∧ st.1.2 ⊆ (foldl (crystal_step g lit) st l).1.2.
Proof.
  revert st. induction l as [|c l IH]; intros st; simpl; [done|].
  destruct (crystal_step_mono st c) as [H1 H2].
  destruct (IH (crystal_step g lit st c)) as [H3 H4].
  split; set_solver.
Qed.

(** The flag returned is raised exactly when one of the sets grew. *)
Lemma crystal_fold_flag l ld ls ch :
  (foldl (crystal_step g lit) (ld, ls, ch) l).2
  = ch || bool_decide ((foldl (crystal_step g lit) (ld, ls, ch) l).1.1 ≠ ld)
       || bool_decide ((foldl (crystal_step g lit) (ld, ls, ch) l).1.2 ≠ ls).
Proof.
  revert ld ls ch. induction l as [|c l IH]; intros ld ls ch; cbn [foldl].
  - simpl. rewrite !bool_decide_eq_false_2 by tauto. by rewrite !orb_false_r.
  - pose proof (crystal_fold_mono l (crystal_step g lit (ld, ls, ch) c))
      as [Hm1 Hm2].
    destruct (crystal_step g lit (ld, ls, ch) c) as [[ld1 ls1] ch1] eqn:Hstep.
    rewrite IH. simpl in Hm1, Hm2.
    set (ld2 := (foldl (crystal_step g lit) (ld1, ls1, ch1) l).1.1) in *.
    set (ls2 := (foldl (crystal_step g lit) (ld1, ls1, ch1) l).1.2) in *.
    unfold crystal_step in Hstep.
    destruct (_ && _); [|by injection Hstep as <- <- <-].
    destruct (bool_decide ((c ∈ ld))); injection Hstep as <- <- <-.
    + assert (bool_decide (crystal_rays g c ∪ ld ≠ ld)
              || bool_decide (ld2 ≠ crystal_rays g c ∪ ld)
              = bool_decide (ld2 ≠ ld)) as <-.
      { destruct (decide (crystal_rays g c ∪ ld = ld)) as [Heq|Hne].
        - rewrite (bool_decide_eq_false_2 (_ ∪ ld ≠ ld)) by tauto.
          by rewrite Heq.
        - rewrite (bool_decide_eq_true_2 (_ ∪ ld ≠ ld)) by done. simpl.
          symmetry. apply bool_decide_eq_true_2. set_solver. }
      by destruct ch, (bool_decide (crystal_rays g c ∪ ld ≠ ld)),
           (bool_decide (ld2 ≠ crystal_rays g c ∪ ld)),
           (bool_decide (ls2 ≠ ls)).
    + assert (bool_decide (crystal_rays g c ∪ ls ≠ ls)
              || bool_decide (ls2 ≠ crystal_rays g c ∪ ls)
              = bool_decide (ls2 ≠ ls)) as <-.
      { destruct (decide (crystal_rays g c ∪ ls = ls)) as [Heq|Hne].
        - rewrite (bool_decide_eq_false_2 (_ ∪ ls ≠ ls)) by tauto.
          by rewrite Heq.
        - rewrite (bool_decide_eq_true_2 (_ ∪ ls ≠ ls)) by done. simpl.
          symmetry. apply bool_decide_eq_true_2. set_solver. }
      by destruct ch, (bool_decide (crystal_rays g c ∪ ls ≠ ls)),
           (bool_decide (ls2 ≠ crystal_rays g c ∪ ls)),
           (bool_decide (ld2 ≠ ld)).
Qed.

(** A crystal that is directly lit when the pass begins emits direct
    light during the pass. *)
Lemma crystal_fold_direct_emits l st c :
  c ∈ l → is_crystal_at g c = true → c ∈ lit → c ∈ st.1.1 →
  crystal_rays g c ⊆ (foldl (crystal_step g lit) st l).1.1.
Proof.
  revert st. induction l as [|c' l IH]; intros st Hc Hcr Hlit Hld;
    [by apply elem_of_nil in Hc|]. simpl.
  pose proof (crystal_step_mono st c') as [Hm _].
  apply elem_of_cons in Hc as [<-|Hc].
  - pose proof (crystal_fold_mono l (crystal_step g lit st c)) as [Hm2 _].
    etrans; [|exact Hm2].
    destruct st as [[ld ls] ch]. unfold crystal_step. simpl in *.
    rewrite Hcr. rewrite !bool_decide_eq_true_2 by done. simpl. set_solver.
  - apply IH; try done. set_solver.
Qed.

(** A lit crystal that is still not directly lit when the pass ends has
    emitted scatter light during the pass. *)
Lemma crystal_fold_scatter_emits l st c :
  c ∈ l → is_crystal_at g c = true → c ∈ lit →
  c ∉ (foldl (crystal_step g lit) st l).1.1 →
  crystal_rays g c ⊆ (foldl (crystal_step g lit) st l).1.2.
Proof.
  revert st. induction l as [|c' l IH]; intros st Hc Hcr Hlit Hld;
    [by apply elem_of_nil in Hc|]. simpl in *.
  apply elem_of_cons in Hc as [<-|Hc]; [|by apply IH].
  pose proof (crystal_fold_mono l (crystal_step g lit st c)) as [Hm1 Hm2].
  etrans; [|exact Hm2].
  destruct st as [[ld ls] ch]. unfold crystal_step in *. simpl in *.
  rewrite Hcr in *. rewrite (bool_decide_eq_true_2 (c ∈ lit)) in * by done.
  simpl in *. destruct (decide (c ∈ ld)) as [Hin|Hnin].
  - rewrite (bool_decide_eq_true_2 (c ∈ ld)) in * by done. simpl in *.
    set_solver.
  - rewrite (bool_decide_eq_false_2 (c ∈ ld)) in * by done. simpl in *.
    set_solver.
Qed.

(** If every directly lit crystal has already emitted, the pass leaves
    the direct set alone. *)
Lemma crystal_fold_direct_stable l ld ls ch :
  (∀ c, c ∈ l → is_crystal_at g c = true → c ∈ lit → c ∈ ld →
        crystal_rays g c ⊆ ld) →
  (foldl (crystal_step g lit) (ld, ls, ch) l).1.1 = ld.
Proof.
  revert ls ch. induction l as [|c l IH]; intros ls ch Hsat; cbn [foldl]; [done|].
  unfold crystal_step at 2.
  destruct (is_crystal_at g c && bool_decide (c ∈ lit)) eqn:Hc.
  - apply andb_true_iff in Hc as [Hcr Hlit%bool_decide_eq_true].
    destruct (decide (c ∈ ld)) as [Hin|Hnin].
    + rewrite (bool_decide_eq_true_2 (c ∈ ld)) by done.
      replace (crystal_rays g c ∪ ld) with ld.
      * apply IH. intros c' Hc'. apply Hsat. by right.
      * specialize (Hsat c (list_elem_of_here _ _) Hcr Hlit Hin). set_solver.
    + rewrite (bool_decide_eq_false_2 (c ∈ ld)) by done.
      apply IH. intros c' Hc'. apply Hsat. by right.
  - apply IH. intros c' Hc'. apply Hsat. by right.
Qed.

(** If every lit crystal outside the direct set has already emitted,
    the pass leaves the scatter set alone. *)
Lemma crystal_fold_scatter_stable l ld ls ch :
  (∀ c, c ∈ l → is_crystal_at g c = true → c ∈ lit → c ∉ ld →
        crystal_rays g c ⊆ ls) →
  (foldl (crystal_step g lit) (ld, ls, ch) l).1.2 = ls.
Proof.
  revert ld ch. induction l as [|c l IH]; intros ld ch Hsat; cbn [foldl]; [done|].
  unfold crystal_step at 2.
  destruct (is_crystal_at g c && bool_decide (c ∈ lit)) eqn:Hc.
  - apply andb_true_iff in Hc as [Hcr Hlit%bool_decide_eq_true].
    destruct (decide (c ∈ ld)) as [Hin|Hnin].
    + rewrite (bool_decide_eq_true_2 (c ∈ ld)) by done.
      apply IH. intros c' Hc' Hcr' Hlit' Hnin'. apply Hsat; try done.
      * by right.
      * set_solver.
    + rewrite (bool_decide_eq_false_2 (c ∈ ld)) by done.
      replace (crystal_rays g c ∪ ls) with ls.
      * apply IH. intros c' Hc'. apply Hsat. by right.
      * specialize (Hsat c (list_elem_of_here _ _) Hcr Hlit Hnin). set_solver.
  - apply IH. intros c' Hc'. apply Hsat. by right.
Qed.
End pass_facts.

(** ** Counting crystals *)

Lemma filter_length_le {A : Type} (P Q : A → Prop)
    `{!∀ x, Decision (P x), !∀ x, Decision (Q x)} (l : list A) :
  (∀ x, x ∈ l → P x → Q x) →
  (length (filter P l) ≤ length (filter Q l))%nat.
Proof.
  induction l as [|a l IH]; intros HPQ; [done|].
  assert (length (filter P l) ≤ length (filter Q l))%nat as Hle.
  { apply IH. intros x Hx. apply HPQ. by right. }
  rewrite !filter_cons.
  destruct (decide (P a)) as [HP|HP].
  - rewrite decide_True by (apply HPQ; [left | done]). simpl. lia.
  - destruct (decide (Q a)); simpl; lia.
Qed.

Lemma filter_length_lt {A : Type} (P Q : A → Prop)
    `{!∀ x, Decision (P x), !∀ x, Decision (Q x)} (l : list A) (a : A) :
  (∀ x, x ∈ l → P x → Q x) → a ∈ l → Q a → ¬ P a →
  (length (filter P l) < length (filter Q l))%nat.
Proof.
  induction l as [|b l IH]; intros HPQ Ha HQ HnP; [by apply elem_of_nil in Ha|].
  assert (length (filter P l) ≤ length (filter Q l))%nat as Hle.
  { apply filter_length_le. intros x Hx. apply HPQ. by right. }
  rewrite !filter_cons.
  apply elem_of_cons in Ha as [<-|Ha].
  - rewrite decide_False, decide_True by done. simpl. lia.
  - assert (length (filter P l) < length (filter Q l))%nat as Hlt.
    { apply IH; try done. intros x Hx. apply HPQ. by right. }
    destruct (decide (P b)) as [HP|HP].
    + rewrite decide_True by (apply HPQ; [left | done]). simpl. lia.
    + destruct (decide (Q b)); simpl; lia.
Qed.

Lemma crystals_in_le_count g X :
  (length (crystals_in g X) ≤ crystal_count g)%nat.
Proof. apply filter_length_le. by intros c _ [? _]. Qed.

Lemma crystals_in_lt g X Y c :
  X ⊆ Y → c ∈ cells g → is_crystal_at g c = true → c ∈ Y → c ∉ X →
  (length (crystals_in g X) < length (crystals_in g Y))%nat.
Proof.
  intros HXY Hc Hcr HY HX. apply (filter_length_lt _ _ _ c); try done.
  - intros x _ [? ?]. split; [done | set_solver].
  - tauto.
Qed.

Lemma crystals_in_pos g X c :
  c ∈ cells g → is_crystal_at g c = true → c ∈ X →
  (0 < length (crystals_in g X))%nat.
Proof.
  intros Hc Hcr HX.
  assert (c ∈ crystals_in g X) as Hin by by apply list_elem_of_filter.
  destruct (crystals_in g X); [by apply elem_of_nil in Hin | simpl; lia].
Qed.

(** ** The refraction loop *)

Lemma pending_bound_init g ld ls : pending_bound g 0 ld ls.
Proof.
  split; intros c Hc Hcr Hin; intros; by eapply crystals_in_pos.
Qed.

Lemma crystal_pass_mono g ld ls :
  ld ⊆ (crystal_pass g ld ls).1.1 ∧ ls ⊆ (crystal_pass g ld ls).1.2.
Proof. apply (crystal_fold_mono g (ld ∪ ls) (cells g) (ld, ls, false)). Qed.

Lemma crystal_pass_flag g ld ls :
  (crystal_pass g ld ls).2 = false ↔
  (crystal_pass g ld ls).1.1 = ld ∧ (crystal_pass g ld ls).1.2 = ls.
Proof.
  unfold crystal_pass. rewrite crystal_fold_flag. simpl.
  rewrite orb_false_iff, !bool_decide_eq_false. split.
  - intros [H1 H2]. split.
    + by destruct (decide ((foldl (crystal_step g (ld ∪ ls)) (ld, ls, false)
                                 (cells g)).1.1 = ld)).
    + by destruct (decide ((foldl (crystal_step g (ld ∪ ls)) (ld, ls, false)
                                 (cells g)).1.2 = ls)).
  - intros [-> ->]. tauto.
Qed.

(** A pass that changes the direct set needs more than [k] directly lit
    crystals before it; the same for the scatter set. *)
Lemma crystal_pass_changes g k ld ls :
  pending_bound g k ld ls →
  ((crystal_pass g ld ls).1.1 ≠ ld → (k < length (crystals_in g ld))%nat)
  ∧ ((crystal_pass g ld ls).1.2 ≠ ls → (k < length (crystals_in g ls))%nat).
Proof.
  intros [HD HS]. split; intros Hne.
  - destruct (decide (k < length (crystals_in g ld))%nat) as [|Hk]; [done|].
    exfalso. apply Hne. apply crystal_fold_direct_stable.
    intros c Hc Hcr _ Hin.
    destruct (decide (crystal_rays g c ⊆ ld)) as [|Hns]; [done|].
    exfalso. apply Hk. by eapply HD.
  - destruct (decide (k < length (crystals_in g ls))%nat) as [|Hk]; [done|].
    exfalso. apply Hne. apply crystal_fold_scatter_stable.
    intros c Hc Hcr Hlit Hnin.
    destruct (decide (crystal_rays g c ⊆ ls)) as [|Hns]; [done|].
    exfalso. apply Hk. eapply HS; try done. set_solver.
Qed.

Lemma crystal_pass_bound g k ld ls :
  pending_bound g k ld ls →
  pending_bound g (S k) (crystal_pass g ld ls).1.1 (crystal_pass g ld ls).1.2
  ∧ ((crystal_pass g ld ls).2 = true → (k < crystal_count g)%nat).
Proof.
  intros Hpb. pose proof (crystal_pass_changes g k ld ls Hpb) as [HcD HcS].
  pose proof (crystal_pass_mono g ld ls) as [HmD HmS].
  split; [split|].
  - intros c Hc Hcr Hin Hns.
    assert (c ∉ ld) as Hnin.
    { intros Hin0. apply Hns.
      apply (crystal_fold_direct_emits g (ld ∪ ls) (cells g) (ld, ls, false));
        try done. set_solver. }
    assert (k < length (crystals_in g ld))%nat as Hk.
    { apply HcD. intros Heq. by rewrite Heq in Hin. }
    pose proof (crystals_in_lt g ld _ c HmD Hc Hcr Hin Hnin). lia.
  - intros c Hc Hcr Hin HninD Hns.
    assert (c ∉ ld ∪ ls) as Hnlit.
    { intros Hlit. apply Hns.
      by apply (crystal_fold_scatter_emits g (ld ∪ ls) (cells g) (ld, ls, false)). }
    assert (c ∉ ls) as Hnin by set_solver.
    assert (k < length (crystals_in g ls))%nat as Hk.
    { apply HcS. intros Heq. by rewrite Heq in Hin. }
    pose proof (crystals_in_lt g ls _ c HmS Hc Hcr Hin Hnin). lia.
  - intros Hch.
    destruct (decide ((crystal_pass g ld ls).1.1 = ld)) as [HeqD|HneD].
    + destruct (decide ((crystal_pass g ld ls).1.2 = ls)) as [HeqS|HneS].
      * assert ((crystal_pass g ld ls).2 = false) as Hf
          by by apply crystal_pass_flag.
        congruence.
      * pose proof (crystals_in_le_count g ls). specialize (HcS HneS). lia.
    + pose proof (crystals_in_le_count g ld). specialize (HcD HneD). lia.
Qed.

(** The loop under an invariant [Inv] of its variables: it returns, and
    leaves either with the flag down or at the cap. *)
Lemma refraction_loop_inv (g : Game)
    (Inv : nat → gset Coord → gset Coord → bool → Prop) :
  well_formed g = true →
  (∀ k ld ls, Inv k ld ls true → (k < 16)%nat →
     Inv (S k) (crystal_pass g ld ls).1.1 (crystal_pass g ld ls).1.2
       (crystal_pass g ld ls).2) →
  ∀ fuel k ld ls ch,
    (16 ≤ k + fuel)%nat → Inv k ld ls ch →
    ∃ ld' ls' ch' k',
      refraction_loop fuel (with_lights g ld ls) ch (Z.of_nat k)
      = Some (with_lights g ld' ls', ch', Z.of_nat k')
      ∧ Inv k' ld' ls' ch' ∧ (k ≤ k')%nat ∧ (ch' = false ∨ 16 ≤ k')%nat.
Proof.
  intros Hwf Hstep fuel.
  induction fuel as [|fuel IH]; intros k ld ls ch Hfuel HI.
  - exists ld, ls, ch, k. simpl.
    rewrite (bool_decide_eq_false_2 (Z.of_nat k < 16)) by lia.
    rewrite andb_false_r. split; [done|]. split; [done|]. split; [done|].
    right. lia.
  - simpl. destruct ch; simpl.
    + destruct (decide (k < 16)%nat) as [Hk|Hk].
      * rewrite bool_decide_eq_true_2 by lia.
        rewrite apply_crystals_spec by done. simpl.
        destruct (crystal_pass g ld ls) as [[ld1 ls1] ch1] eqn:Hpass. simpl.
        specialize (Hstep k ld ls HI Hk). rewrite Hpass in Hstep. simpl in Hstep.
        destruct (IH (S k) ld1 ls1 ch1) as (ld' & ls' & ch' & k' & Hrun & HI' & Hk' & Hexit);
          [lia | done |].
        exists ld', ls', ch', k'.
        replace (Z.of_nat k + 1) with (Z.of_nat (S k)) by lia.
        split; [done|]. split; [done|]. split; [lia | done].
      * rewrite bool_decide_eq_false_2 by lia.
        exists ld, ls, true, k. split; [done|]. split; [done|].
        split; [done|]. right. lia.
    + exists ld, ls, false, k. split; [done|]. split; [done|].
      split; [done|]. by left.
Qed.

(** ** Lit cells stay on the board *)

Lemma within_empty g : within g ∅.
Proof. by intros c ?%not_elem_of_empty. Qed.

Lemma within_union g X Y : within g X → within g Y → within g (X ∪ Y).
Proof. intros HX HY c [?|?]%elem_of_union; auto. Qed.

Lemma within_beam_path g c dir : within g (list_to_set (beam_path g c dir)).
Proof. intros c' Hc'%elem_of_list_to_set. by eapply beam_path_in_bounds. Qed.

Lemma elem_of_crystal_rays g c c' :
  c' ∈ crystal_rays g c ↔ ∃ dir, c' ∈ beam_path g c dir.
Proof.
  unfold crystal_rays, UDLR. simpl.
  rewrite !elem_of_union, !elem_of_list_to_set. split.
  - intros [?|[?|[?|[?|[]%not_elem_of_empty]]]]; eauto.
  - intros [[] ?]; tauto.
Qed.

Lemma within_crystal_rays g c : within g (crystal_rays g c).
Proof.
  intros c' [dir Hc']%elem_of_crystal_rays. by eapply beam_path_in_bounds.
Qed.

Lemma crystal_fold_within g lit l st :
  within g st.1.1 → within g st.1.2 →
  within g (foldl (crystal_step g lit) st l).1.1
  ∧ within g (foldl (crystal_step g lit) st l).1.2.
Proof.
  revert st. induction l as [|c l IH]; intros st HD HS; cbn [foldl]; [done|].
  apply IH; destruct st as [[ld ls] ch]; unfold crystal_step; simpl in *;
    destruct (_ && _); try done;
    destruct (bool_decide _); simpl; try done;
    apply within_union; auto using within_crystal_rays.
Qed.

(** ** Direct beams from the sources *)

Lemma ledger_add_lookup beams c dir c' :
  is_Some (ledger_add beams c dir !! c') ↔ c' = c ∨ is_Some (beams !! c').
Proof.
  unfold ledger_add. destruct (decide (c = c')) as [->|Hne].
  - rewrite lookup_insert_eq. split; [by left | by eexists].
  - rewrite lookup_insert_ne by done. split; [by right|].
    intros [?|?]; [congruence | done].
Qed.

Lemma ledger_fold_lookup dir l beams c' :
  is_Some (foldl (λ b c, ledger_add b c dir) beams l !! c') →
  c' ∈ l ∨ is_Some (beams !! c').
Proof.
  revert beams. induction l as [|c l IH]; intros beams; simpl; [by right|].
  intros [Hl|[->|Hb]%ledger_add_lookup]%IH.
  - left. by right.
  - left. left.
  - by right.
Qed.

Lemma cast_beam_direct_inv g ld ls st c dir :
  well_formed g = true → sources_inv g ld ls st →
  ∃ st', cast_beam_direct st.1 c dir st.2 = Some st' ∧ sources_inv g ld ls st'.
Proof.
  intros Hwf (ld1 & Hg & Hsub & Hin & Hdom). destruct st as [g1 beams].
  simpl in *. subst g1. rewrite cast_beam_direct_spec by done.
  eexists. split; [done|].
  exists (list_to_set (beam_path g c dir) ∪ ld1). simpl.
  split; [done|]. split; [set_solver|]. split.
  - intros Hld. apply within_union; [apply within_beam_path | auto].
  - intros c' [Hc'|Hc']%ledger_fold_lookup.
    + right. apply elem_of_union. left. apply elem_of_list_to_set.
      by apply ledger_cells_subseteq.
    + destruct (Hdom c' Hc'); [by left | right; set_solver].
Qed.

#[local] Opaque cast_beam_direct.

Lemma cast_sources_cell_inv g ld ls st y x :
  well_formed g = true → in_bounds g y x = true → sources_inv g ld ls st →
  ∃ st', cast_sources_cell y st x = Some st' ∧ sources_inv g ld ls st'.
Proof.
  intros Hwf Hin Hinv. destruct st as [g1 beams].
  pose proof Hinv as (ld1 & Hg & _). simpl in Hg.
  destruct (tile_total g y x Hwf Hin) as [t Ht].
  unfold cast_sources_cell. subst g1.
  change (tile (with_lights g ld1 ls) y x) with (tile g y x).
  rewrite Ht. cbn [mbind option_bind].
  destruct (bool_decide (t = SOURCE_ON)); [|eauto].
  apply (for_each_inv (sources_inv g ld ls)); [done|].
  intros [g2 beams2] d _ Hinv2.
  by apply (cast_beam_direct_inv g ld ls (g2, beams2)).
Qed.

#[local] Transparent cast_beam_direct.

Lemma cast_sources_spec g ld ls :
  well_formed g = true →
  ∃ ld1 beams,
    cast_sources (with_lights g ld ls) = Some (with_lights g ld1 ls, beams)
    ∧ ld ⊆ ld1 ∧ (within g ld → within g ld1)
    ∧ (∀ c, is_Some (beams !! c) → c ∈ ld1).
Proof.
  intros Hwf. unfold cast_sources. rewrite for_each_grid.
  destruct (for_each_inv (sources_inv g ld ls)
              (λ s (c : Coord), cast_sources_cell c.1 s c.2)
              (cells g) (with_lights g ld ls, ∅))
    as ([g1 beams] & Hrun & ld1 & Hg & Hsub & Hin & Hdom).
  - exists ld. simpl. split; [done|]. split; [done|]. split; [done|].
    intros c. rewrite lookup_empty. by intros [? ?].
  - intros st [y x] Hc Hinv. apply elem_of_cells in Hc.
    by apply cast_sources_cell_inv.
  - simpl in *. subst g1. exists ld1, beams. split; [exact Hrun|].
    split; [done|]. split; [done|]. intros c Hc.
    destruct (Hdom c Hc); [set_solver | done].
Qed.

(** ** Scattering at intersections *)

Lemma elem_of_dirs_rays g c dirs c' :
  c' ∈ dirs_rays g c dirs ↔ ∃ d, d ∈ dirs ∧ c' ∈ beam_path g c d.
Proof.
  unfold dirs_rays. rewrite elem_of_union_list. split.
  - intros (X & (d & -> & Hd)%list_elem_of_fmap & Hc').
    exists d. split; [done|]. by apply elem_of_list_to_set in Hc'.
  - intros (d & Hd & Hc'). exists (list_to_set (beam_path g c d)).
    split; [|by apply elem_of_list_to_set].
    apply list_elem_of_fmap. by exists d.
Qed.

Lemma elem_of_scatter_rays g items c' :
  c' ∈ scatter_rays g items ↔
  ∃ c dirs d, (c, dirs) ∈ items ∧ (2 ≤ length dirs)%nat ∧ d ∈ dirs
              ∧ c' ∈ beam_path g c d.
Proof.
  unfold scatter_rays. rewrite elem_of_union_list. split.
  - intros (X & ([c dirs] & -> & Hitem)%list_elem_of_fmap & Hc'). simpl in Hc'.
    destruct (decide (2 ≤ length dirs)%nat) as [Hlen|Hlen].
    + rewrite bool_decide_eq_true_2 in Hc' by done.
      apply elem_of_dirs_rays in Hc' as (d & Hd & Hc'). by exists c, dirs, d.
    + rewrite bool_decide_eq_false_2 in Hc' by done.
      by apply not_elem_of_empty in Hc'.
  - intros (c & dirs & d & Hitem & Hlen & Hd & Hc').
    exists (dirs_rays g c dirs). split.
    + apply list_elem_of_fmap. exists (c, dirs). simpl.
      by rewrite bool_decide_eq_true_2.
    + apply elem_of_dirs_rays. by exists d.
Qed.

Lemma within_scatter_rays g items : within g (scatter_rays g items).
Proof.
  intros c' (c & dirs & d & _ & _ & _ & Hc')%elem_of_scatter_rays.
  by eapply beam_path_in_bounds.
Qed.

Lemma scatter_dirs_spec g c dirs ld ls :
  well_formed g = true →
  for_each (λ g2 d, cast_scatter_from g2 c d) (with_lights g ld ls) dirs
  = Some (with_lights g ld (dirs_rays g c dirs ∪ ls)).
Proof.
  intros Hwf. revert ls. induction dirs as [|d dirs IH]; intros ls.
  - simpl. f_equal. unfold with_lights. f_equal. unfold dirs_rays. simpl.
    set_solver.
  - cbn [for_each]. rewrite cast_scatter_from_spec by done. simpl.
    rewrite IH. f_equal. unfold with_lights. f_equal.
    unfold dirs_rays. simpl. set_solver.
Qed.

Lemma apply_scattering_items_spec g items ld ls :
  well_formed g = true →
  apply_scattering_items (with_lights g ld ls) items
  = Some (with_lights g ld (scatter_rays g items ∪ ls)).
Proof.
  intros Hwf. unfold apply_scattering_items. revert ls.
  induction items as [|[c dirs] items IH]; intros ls.
  - simpl. f_equal. unfold with_lights. f_equal. unfold scatter_rays. simpl.
    set_solver.
  - cbn [for_each]. unfold scatter_rays. cbn [fmap list_fmap union_list].
    simpl (_.1). simpl (_.2).
    destruct (bool_decide (2 ≤ length dirs)%nat).
    + rewrite scatter_dirs_spec by done. simpl. rewrite IH.
      f_equal. unfold with_lights. f_equal. unfold scatter_rays. set_solver.
    + simpl. rewrite IH.
      f_equal. unfold with_lights. f_equal. unfold scatter_rays. set_solver.
Qed.

Lemma elem_of_ledger_items (beams : Ledger) c ds :
  (c, ds) ∈ ledger_items beams ↔
  ∃ dirs, beams !! c = Some dirs ∧ ds = elements dirs.
Proof.
  unfold ledger_items. rewrite list_elem_of_fmap. split.
  - intros ([c0 dirs] & [= -> ->] & Hin%elem_of_map_to_list). by exists dirs.
  - intros (dirs & Hl & ->). exists (c, dirs). split; [done|].
    by apply elem_of_map_to_list.
Qed.

(** ** [recompute_light] as a whole *)

Lemma light_before_crystals_spec g :
  well_formed g = true →
  ∃ ld1 beams,
    cast_sources (with_lights g ∅ ∅) = Some (with_lights g ld1 ∅, beams)
    ∧ light_before_crystals g
      = Some (with_lights g ld1 (scatter_rays g (ledger_items beams)))
    ∧ within g ld1
    ∧ (∀ c, is_Some (beams !! c) → c ∈ ld1).
Proof.
  intros Hwf.
  destruct (cast_sources_spec g ∅ ∅ Hwf) as (ld1 & beams & Hrun & _ & Hin & Hdom).
  exists ld1, beams. split; [done|]. split; [|split; [|done]].
  - unfold light_before_crystals. rewrite Hrun. simpl.
    unfold apply_scattering. rewrite apply_scattering_items_spec by done.
    f_equal. unfold with_lights. f_equal. set_solver.
  - apply Hin, within_empty.
Qed.

Lemma loop_inv_step g ld0 ls0 k ld ls :
  loop_inv g ld0 ls0 k ld ls true →
  loop_inv g ld0 ls0 (S k) (crystal_pass g ld ls).1.1
           (crystal_pass g ld ls).1.2 (crystal_pass g ld ls).2.
Proof.
  intros (HD & HS & Hin & Hpb & Hk & _ & _ & _).
  pose proof (crystal_pass_mono g ld ls) as [HmD HmS].
  pose proof (crystal_pass_bound g k ld ls Hpb) as [Hpb' Hch].
  specialize (Hk eq_refl).
  split; [set_solver|]. split; [set_solver|]. split; [|split; [done|]].
  - intros H1 H2. destruct (Hin H1 H2).
    by apply (crystal_fold_within g (ld ∪ ls) (cells g) (ld, ls, false)).
  - split; [intros Ht; specialize (Hch Ht); lia|]. split; [lia|].
    split; [lia|].
    intros [HeqD HeqS]%crystal_pass_flag.
    destruct (crystal_pass g ld ls) as [[ld1 ls1] ch1] eqn:Hpass.
    simpl in *. subst ld1 ls1. rewrite Hpass.
    assert (ch1 = false) as ->; [|done].
    change ch1 with (ld, ls, ch1).2. rewrite <- Hpass.
    apply crystal_pass_flag. by rewrite Hpass.
Qed.

(** The refraction loop of [recompute_light] on a well-formed board: it
    returns, the sets only grow and stay on the board, the number of
    passes is at most the number of crystals plus one, and with at most
    fourteen crystals the loop leaves below the cap, after a pass that
    changed nothing. *)
Lemma refraction_loop_spec g ld ls :
  well_formed g = true →
  ∃ ld' ls' ch (k : nat),
    refraction_loop 16 (with_lights g ld ls) true 0
    = Some (with_lights g ld' ls', ch, Z.of_nat k)
    ∧ ld ⊆ ld' ∧ ls ⊆ ls'
    ∧ (within g ld → within g ls → within g ld' ∧ within g ls')
    ∧ (k ≤ crystal_count g + 1)%nat
    ∧ (ch = false ∨ 16 ≤ k)%nat
    ∧ (ch = true → k ≤ crystal_count g)%nat
    ∧ (ch = false → (1 ≤ k)%nat)
    ∧ (ch = false → crystal_pass g ld' ls' = (ld', ls', false)).
Proof.
  intros Hwf.
  destruct (refraction_loop_inv g (loop_inv g ld ls) Hwf) with
    (fuel := 16%nat) (k := 0%nat) (ld := ld) (ls := ls) (ch := true)
    as (ld' & ls' & ch & k & Hrun & Hinv & _ & Hexit).
  - intros k ld1 ls1 Hinv _. by apply loop_inv_step.
  - lia.
  - split; [done|]. split; [done|]. split; [done|].
    split; [apply pending_bound_init|]. split; [lia|]. split; [lia|]. done.
  - destruct Hinv as (HD & HS & Hin & _ & Hk & Hk1 & Hk2 & Hstable).
    exists ld', ls', ch, k. repeat (split; [done|]). done.
Qed.

Lemma recompute_light_spec g :
  well_formed g = true →
  ∃ ld ls, recompute_light g = Some (with_lights g ld ls)
           ∧ within g ld ∧ within g ls.
Proof.
  intros Hwf.
  destruct (light_before_crystals_spec g Hwf)
    as (ld1 & beams & _ & Hbefore & Hin1 & _).
  destruct (refraction_loop_spec g ld1 (scatter_rays g (ledger_items beams)) Hwf)
    as (ld & ls & ch & k & Hrun & _ & _ & Hin & _).
  exists ld, ls. unfold recompute_light. rewrite Hbefore.
  cbn [mbind option_bind]. rewrite Hrun. simpl. split; [done|].
  apply Hin; [done | apply within_scatter_rays].
Qed.

(** [recompute_light] reads the board only: the sets it starts from are
    cleared first. *)
Lemma recompute_light_with_lights g ld ls :
  recompute_light (with_lights g ld ls) = recompute_light g.
Proof. reflexivity. Qed.

(** ** The lock transition *)

Lemma lock_cell_spec g c :
  well_formed g = true → in_bounds g c.1 c.2 = true →
  ∃ g', lock_cell g c = Some g'
        ∧ g' = with_base g (base g')
        ∧ well_formed g' = true
        ∧ ∀ y x, in_bounds g y x = true →
            tile g' y x
            = if bool_decide ((y, x) = c)
                 && bool_decide (tile g y x = Some BLOCK_MOV)
              then Some BLOCK_IMMOV else tile g y x.
Proof.
  intros Hwf Hin. destruct c as [cy cx]. simpl in Hin.
  destruct (tile_total g cy cx Hwf Hin) as [t Ht].
  unfold lock_cell. rewrite Ht. simpl.
  destruct (decide (t = BLOCK_MOV)) as [->|Hne].
  - rewrite bool_decide_eq_true_2 by done.
    destruct (set_tile_in_bounds g cy cx BLOCK_IMMOV Hwf Hin)
      as (g' & Hset & Hg' & Hwf' & Hsame & Hother).
    exists g'. split; [done|]. split; [done|]. split; [done|].
    intros y x Hyx. destruct (decide ((y, x) = (cy, cx))) as [[= -> ->]|Hneq].
    + rewrite bool_decide_eq_true_2 by done.
      rewrite Ht, bool_decide_eq_true_2 by done. done.
    + rewrite (bool_decide_eq_false_2 ((y, x) = _)) by done. simpl. auto.
  - rewrite bool_decide_eq_false_2 by done.
    exists g. split; [done|]. split; [by destruct g|]. split; [done|].
    intros y x Hyx. destruct (decide ((y, x) = (cy, cx))) as [[= -> ->]|Hneq].
    + rewrite Ht. rewrite (bool_decide_eq_false_2 (Some t = _)) by congruence.
      by rewrite andb_false_r.
    + by rewrite (bool_decide_eq_false_2 ((y, x) = _)) by done.
Qed.

(** The locking loop of [after_change] over the cells [l]. *)
Lemma lock_loop_spec l g :
  well_formed g = true → (∀ c, c ∈ l → in_bounds g c.1 c.2 = true) →
  ∃ g', for_each lock_cell g l = Some g'
        ∧ g' = with_base g (base g')
        ∧ well_formed g' = true
        ∧ ∀ y x, in_bounds g y x = true →
            tile g' y x
            = if bool_decide ((y, x) ∈ l)
                 && bool_decide (tile g y x = Some BLOCK_MOV)
              then Some BLOCK_IMMOV else tile g y x.
Proof.
  revert g. induction l as [|c l IH]; intros g Hwf Hl.
  - exists g. split; [done|]. split; [by destruct g|]. split; [done|].
    intros y x _. rewrite bool_decide_eq_false_2; [done|]. apply not_elem_of_nil.
  - destruct (lock_cell_spec g c Hwf) as (g1 & Hlock & Hg1 & Hwf1 & Htile1);
      [apply Hl; left|].
    assert (∀ y x, in_bounds g1 y x = in_bounds g y x) as Hb1.
    { intros y x. by rewrite Hg1. }
    destruct (IH g1 Hwf1) as (g2 & Hrun & Hg2 & Hwf2 & Htile2).
    { intros c' Hc'. rewrite Hb1. apply Hl. by right. }
    exists g2. cbn [for_each]. rewrite Hlock. simpl.
    split; [done|]. split; [by rewrite Hg2, Hg1|]. split; [done|].
    intros y x Hyx. rewrite Htile2 by by rewrite Hb1.
    rewrite Htile1 by done.
    destruct (decide ((y, x) = c)) as [<-|Hne].
    + rewrite (bool_decide_eq_true_2 ((y, x) ∈ (y, x) :: l)) by left.
      rewrite (bool_decide_eq_true_2 ((y, x) = (y, x))) by done. simpl.
      destruct (bool_decide (tile g y x = Some BLOCK_MOV)) eqn:Hmov.
      * rewrite (bool_decide_eq_false_2 (Some BLOCK_IMMOV = _)) by done.
        by rewrite andb_false_r.
      * rewrite Hmov. by rewrite andb_false_r.
    + rewrite (bool_decide_eq_false_2 ((y, x) = c)) by done. simpl.
      destruct (decide ((y, x) ∈ l)) as [Hin|Hnin].
      * rewrite !(bool_decide_eq_true_2 ((y, x) ∈ _)); [done | | done].
        by right.
      * rewrite !(bool_decide_eq_false_2 ((y, x) ∈ _)); [done | | done].
        intros [?|?]%elem_of_cons; done.
Qed.

(** [after_change] on a well-formed game: it returns; the board it leaves
    differs from the one it found exactly at the movable blocks that the
    first recomputation lit directly, which are immovable now. *)
Lemma after_change_spec g :
  well_formed g = true →
  ∃ ld1 ls1 g',
    recompute_light g = Some (with_lights g ld1 ls1)
    ∧ within g ld1
    ∧ after_change g = Some g'
    ∧ cfg g' = cfg g
    ∧ well_formed g' = true
    ∧ recompute_light g' = Some g'
    ∧ ∀ y x, in_bounds g y x = true →
        tile g' y x
        = if bool_decide ((y, x) ∈ ld1)
             && bool_decide (tile g y x = Some BLOCK_MOV)
          then Some BLOCK_IMMOV else tile g y x.
Proof.
  intros Hwf.
  destruct (recompute_light_spec g Hwf) as (ld1 & ls1 & Hre1 & Hin1 & _).
  destruct (lock_loop_spec (elements ld1) (with_lights g ld1 ls1))
    as (g2 & Hlock & Hg2 & Hwf2 & Htile2); [done | |].
  { intros c Hc%elem_of_elements. by apply Hin1. }
  destruct (recompute_light_spec g2 Hwf2) as (ld3 & ls3 & Hre3 & _).
  exists ld1, ls1, (with_lights g2 ld3 ls3).
  split; [done|]. split; [done|]. split; [|split; [|split; [done|split]]].
  - unfold after_change. rewrite Hre1. simpl. rewrite Hlock. simpl. done.
  - simpl. by rewrite Hg2.
  - by rewrite recompute_light_with_lights.
  - intros y x Hyx.
    change (tile (with_lights g2 ld3 ls3) y x) with (tile g2 y x).
    rewrite Htile2 by done.
    change (tile (with_lights g ld1 ls1) y x) with (tile g y x).
    destruct (decide ((y, x) ∈ ld1)) as [Hin|Hnin].
    + rewrite !(bool_decide_eq_true_2 (_ ∈ _)); [done.. |].
      by apply elem_of_elements.
    + rewrite !(bool_decide_eq_false_2 (_ ∈ _)); [done.. |].
      by rewrite elem_of_elements.
Qed.

(** ** Reordering the scatter casts *)

Lemma scatter_rays_reordered_sub g items items' :
  items_reordered items items' →
  scatter_rays g items ⊆ scatter_rays g items'.
Proof.
  intros (mid & Hperm & Hall) c'.
  rewrite !elem_of_scatter_rays.
  intros (c & dirs & d & Hitem & Hlen & Hd & Hc').
  rewrite Hperm in Hitem.
  apply list_elem_of_lookup_1 in Hitem as [i Hi].
  destruct (Forall2_lookup_l _ _ _ _ _ Hall Hi) as ([c2 dirs2] & Hi2 & Hc2 & Hp).
  simpl in *. subst c2. exists c, dirs2, d.
  split; [by eapply list_elem_of_lookup_2|].
  split; [by rewrite <- Hp|]. split; [by rewrite <- Hp | done].
Qed.

Lemma scatter_rays_reordered_sup g items items' :
  items_reordered items items' →
  scatter_rays g items' ⊆ scatter_rays g items.
Proof.
  intros (mid & Hperm & Hall) c'.
  rewrite !elem_of_scatter_rays.
  intros (c & dirs & d & Hitem & Hlen & Hd & Hc').
  apply list_elem_of_lookup_1 in Hitem as [i Hi].
  destruct (Forall2_lookup_r _ _ _ _ _ Hall Hi) as ([c2 dirs2] & Hi2 & Hc2 & Hp).
  simpl in *. subst c2. exists c, dirs2, d.
  split; [rewrite Hperm; by eapply list_elem_of_lookup_2|].
  split; [by rewrite Hp|]. split; [by rewrite Hp | done].
Qed.

Lemma not_block_at g p :
  tile g p.1 p.2 ≠ Some BLOCK_MOV → tile g p.1 p.2 ≠ Some BLOCK_IMMOV →
  is_block_at g p = false.
Proof.
  unfold is_block_at. destruct (tile g p.1 p.2) as [[]|]; simpl; congruence.
Qed.

(** * The claims *)

(** C1 (Scenario A).  On the 5x5 board whose cells are all empty except
    [SOURCE_ON] at (2,0), [recompute_light] returns with
    [light_direct] = {(2,1),(2,2),(2,3),(2,4),(1,0),(0,0),(3,0),(4,0)} and
    [light_scatter] empty; the source's own cell (2,0) is in neither set. *)
Theorem C1_scenario_A :
  Forall (λ c : Coord, tile scenario_A c.1 c.2
                       = Some (if bool_decide (c = (2, 0)) then SOURCE_ON else BG))
         (cells scenario_A)
  ∧ ∃ g, recompute_light scenario_A = Some g
         ∧ light_direct g
           = {[ (2, 1); (2, 2); (2, 3); (2, 4); (1, 0); (0, 0); (3, 0); (4, 0) ]}
         ∧ light_scatter g = ∅
         ∧ ((2, 0) ∉ light_direct g) ∧ ((2, 0) ∉ light_scatter g).
Proof.
  split; [vm_compute; repeat constructor|].
  eexists. split; [vm_compute; reflexivity|].
  split; [vm_compute; reflexivity|]. split; [vm_compute; reflexivity|].
  split; apply (bool_decide_unpack _); vm_compute; exact I.
Qed.



(** C3 (intersection scattering).  Let [beams] be the ledger after the
    initial direct casting.  For every coordinate [c] whose entry holds
    two or more directions and every such direction [d], the cells
    strictly beyond [c] along [d] that the scatter cast from [c] reaches
    (every cell of the line with no block before it) are in the scatter
    set, right after [apply_scattering] and when [recompute_light]
    returns; [c] itself is in the direct set at both points.  The scatter
    set after [apply_scattering] holds nothing but the cells of these
    casts. *)
Theorem C3_intersection_scatter g :
  well_formed g = true →
  ∃ g1 beams g2 g3,
    cast_sources (with_lights g ∅ ∅) = Some (g1, beams)
    ∧ apply_scattering g1 beams = Some g2
    ∧ recompute_light g = Some g3
    ∧ (∀ c dirs d,
         beams !! c = Some dirs → (2 ≤ size dirs)%nat → d ∈ dirs →
         (∀ pre c' post,
            neighbors_line g c.1 c.2 d = pre ++ c' :: post →
            (∀ p, p ∈ pre → tile g p.1 p.2 ≠ Some BLOCK_MOV
                            ∧ tile g p.1 p.2 ≠ Some BLOCK_IMMOV) →
            c' ∈ light_scatter g2 ∧ c' ∈ light_scatter g3)
         ∧ c ∈ light_direct g2 ∧ c ∈ light_direct g3)
    ∧ (∀ c', c' ∈ light_scatter g2 →
         ∃ c dirs d, beams !! c = Some dirs ∧ (2 ≤ size dirs)%nat ∧ d ∈ dirs
                     ∧ c' ∈ neighbors_line g c.1 c.2 d).
Proof.
  intros Hwf.
  destruct (light_before_crystals_spec g Hwf)
    as (ld1 & beams & Hsrc & Hbefore & Hin1 & Hdom).
  set (ls1 := scatter_rays g (ledger_items beams)) in *.
  destruct (refraction_loop_spec g ld1 ls1 Hwf)
    as (ld & ls & ch & k & Hrun & HsubD & HsubS & _).
  assert (apply_scattering (with_lights g ld1 ∅) beams
          = Some (with_lights g ld1 ls1)) as Hscat.
  { unfold light_before_crystals in Hbefore. rewrite Hsrc in Hbefore.
    exact Hbefore. }
  exists (with_lights g ld1 ∅), beams, (with_lights g ld1 ls1),
         (with_lights g ld ls).
  split; [done|]. split; [done|]. split; [|split].
  - unfold recompute_light. rewrite Hbefore. cbn [mbind option_bind].
    by rewrite Hrun.
  - intros c dirs d Hc Hsize Hd. simpl. split; [|split].
    + intros pre c' post Hline Hpre.
      assert (c' ∈ ls1) as Hc'; [|split; [done | set_solver]].
      apply elem_of_scatter_rays. exists c, (elements dirs), d.
      split; [apply elem_of_ledger_items; by exists dirs|].
      split; [done|]. split; [by apply elem_of_elements|].
      unfold beam_path. rewrite Hline. apply beam_cells_prefix.
      intros p Hp. destruct (Hpre p Hp). by apply not_block_at.
    + apply Hdom. by exists dirs.
    + apply HsubD, Hdom. by exists dirs.
  - simpl. intros c' (c & ds & d & Hitem & Hlen & Hd & Hc')%elem_of_scatter_rays.
    apply elem_of_ledger_items in Hitem as (dirs & Hl & ->).
    exists c, dirs, d. split; [done|]. split; [done|].
    split; [by apply elem_of_elements|]. by eapply beam_cells_subseteq.
Qed.

Lemma C3_intersection_scatter_witness :
  ∃ g1 beams g2 g3,
    cast_sources (with_lights scenario_B ∅ ∅) = Some (g1, beams)
    ∧ apply_scattering g1 beams = Some g2
    ∧ recompute_light scenario_B = Some g3
    ∧ (∀ c dirs d,
         beams !! c = Some dirs → (2 ≤ size dirs)%nat → d ∈ dirs →
         (∀ pre c' post,
            neighbors_line scenario_B c.1 c.2 d = pre ++ c' :: post →
            (∀ p, p ∈ pre → tile scenario_B p.1 p.2 ≠ Some BLOCK_MOV
                            ∧ tile scenario_B p.1 p.2 ≠ Some BLOCK_IMMOV) →
            c' ∈ light_scatter g2 ∧ c' ∈ light_scatter g3)
         ∧ c ∈ light_direct g2 ∧ c ∈ light_direct g3)
    ∧ (∀ c', c' ∈ light_scatter g2 →
         ∃ c dirs d, beams !! c = Some dirs ∧ (2 ≤ size dirs)%nat ∧ d ∈ dirs
                     ∧ c' ∈ neighbors_line scenario_B c.1 c.2 d).
Proof. apply (C3_intersection_scatter scenario_B). reflexivity. Defined.

(** Scenario B: between two facing sources the ledger holds both
    directions, so the theorem above is not vacuous there. *)
Example scenario_B_ledger :
  ∃ g1 beams,
    cast_sources (with_lights scenario_B ∅ ∅) = Some (g1, beams)
    ∧ beams !! (2, 2) = Some {[L; R]}
    ∧ ∃ g3, recompute_light scenario_B = Some g3
            ∧ light_scatter g3
              = {[ (2, 0); (2, 1); (2, 2); (2, 3); (2, 4) ]}.
Proof.
  eexists _, _. split; [vm_compute; reflexivity|].
  split; [vm_compute; reflexivity|].
  eexists. split; vm_compute; reflexivity.
Qed.

(** C4 (lock one-way).  On a well-formed game [after_change] returns, and
    every coordinate that its first recomputation put in the direct set
    and that held [BLOCK_MOV] holds [BLOCK_IMMOV] afterwards; a second
    [after_change] on the result leaves that cell [BLOCK_IMMOV]. *)
Theorem C4_lock_one_way g :
  well_formed g = true →
  ∃ g1 g' g'',
    recompute_light g = Some g1
    ∧ after_change g = Some g'
    ∧ after_change g' = Some g''
    ∧ ∀ y x, (y, x) ∈ light_direct g1 → tile g y x = Some BLOCK_MOV →
             tile g' y x = Some BLOCK_IMMOV ∧ tile g'' y x = Some BLOCK_IMMOV.
Proof.
  intros Hwf.
  destruct (after_change_spec g Hwf)
    as (ld1 & ls1 & g' & Hre & Hin1 & Hac & Hcfg & Hwf' & _ & Htile).
  destruct (after_change_spec g' Hwf')
    as (ld2 & ls2 & g'' & _ & _ & Hac' & _ & _ & _ & Htile').
  exists (with_lights g ld1 ls1), g', g''.
  split; [done|]. split; [done|]. split; [done|].
  intros y x Hd Hmov. simpl in Hd.
  assert (in_bounds g y x = true) as Hyx by apply (Hin1 (y, x) Hd).
  assert (tile g' y x = Some BLOCK_IMMOV) as Himm.
  { rewrite Htile by done. by rewrite !bool_decide_eq_true_2. }
  split; [done|].
  rewrite Htile' by (unfold in_bounds; by rewrite Hcfg).
  rewrite Himm. by destruct (_ && _).
Qed.

Lemma C4_lock_one_way_witness :
  ∃ g1 g' g'',
    recompute_light scenario_block = Some g1
    ∧ after_change scenario_block = Some g'
    ∧ after_change g' = Some g''
    ∧ ∀ y x, (y, x) ∈ light_direct g1 →
             tile scenario_block y x = Some BLOCK_MOV →
             tile g' y x = Some BLOCK_IMMOV ∧ tile g'' y x = Some BLOCK_IMMOV.
Proof. apply (C4_lock_one_way scenario_block). reflexivity. Defined.

(** The movable block of [scenario_block] is under direct light, and
    [after_change] locks it. *)
Example scenario_block_locks :
  ∃ g1 g',
    recompute_light scenario_block = Some g1
    ∧ (2, 2) ∈ light_direct g1
    ∧ tile scenario_block 2 2 = Some BLOCK_MOV
    ∧ after_change scenario_block = Some g'
    ∧ tile g' 2 2 = Some BLOCK_IMMOV
    ∧ (2, 3) ∉ light_direct g'.
Proof.
  eexists _, _. split; [vm_compute; reflexivity|].
  split; [apply (bool_decide_unpack _); vm_compute; exact I|].
  split; [reflexivity|]. split; [vm_compute; reflexivity|].
  split; [reflexivity|]. apply (bool_decide_unpack _); vm_compute; exact I.
Qed.

(** C5 (monotonic growth).  A pass of [apply_crystals] on a well-formed
    game returns and only adds coordinates: the direct and the scatter
    set before the pass are included in those after it.  The same holds
    from the start to the end of the refraction loop. *)
Theorem C5_monotonic_growth g :
  well_formed g = true →
  (∃ g' changed,
     apply_crystals g = Some (g', changed)
     ∧ light_direct g ⊆ light_direct g'
     ∧ light_scatter g ⊆ light_scatter g')
  ∧ (∃ g' changed iterations,
       refraction_loop 16 g true 0 = Some (g', changed, iterations)
       ∧ light_direct g ⊆ light_direct g'
       ∧ light_scatter g ⊆ light_scatter g').
Proof.
  intros Hwf. split.
  - pose proof (apply_crystals_spec g (light_direct g) (light_scatter g) Hwf)
      as Hpass.
    rewrite with_lights_id in Hpass.
    eexists _, _. split; [exact Hpass|]. simpl. apply crystal_pass_mono.
  - destruct (refraction_loop_spec g (light_direct g) (light_scatter g) Hwf)
      as (ld & ls & ch & k & Hrun & HD & HS & _).
    rewrite with_lights_id in Hrun.
    eexists _, _, _. split; [exact Hrun|]. done.
Qed.

Lemma C5_monotonic_growth_witness :
  (∃ g' changed,
     apply_crystals scenario_crystals_lit = Some (g', changed)
     ∧ light_direct scenario_crystals_lit ⊆ light_direct g'
     ∧ light_scatter scenario_crystals_lit ⊆ light_scatter g')
  ∧ (∃ g' changed iterations,
       refraction_loop 16 scenario_crystals_lit true 0
       = Some (g', changed, iterations)
       ∧ light_direct scenario_crystals_lit ⊆ light_direct g'
       ∧ light_scatter scenario_crystals_lit ⊆ light_scatter g').
Proof. apply (C5_monotonic_growth scenario_crystals_lit). reflexivity. Defined.

(** [scenario_crystals_lit] is the state in which [recompute_light]
    enters the refraction loop on [scenario_crystals], and the passes
    from it do cast: the first one lights the column of the crystal at
    (2,2), the second one the row of the crystal at (4,2), the third one
    adds nothing; every set includes the one before it. *)
Example scenario_crystals_lit_passes :
  light_before_crystals scenario_crystals = Some scenario_crystals_lit
  ∧ ∃ g1 g2,
      apply_crystals scenario_crystals_lit = Some (g1, true)
      ∧ apply_crystals g1 = Some (g2, true)
      ∧ apply_crystals g2 = Some (g2, false)
      ∧ light_direct scenario_crystals_lit
        = {[ (2, 1); (2, 2); (2, 3); (2, 4); (1, 0); (0, 0); (3, 0); (4, 0) ]}
      ∧ light_direct g1
        = light_direct scenario_crystals_lit
          ∪ {[ (2, 0); (0, 2); (1, 2); (3, 2); (4, 2) ]}
      ∧ light_direct g2
        = light_direct g1 ∪ {[ (4, 1); (4, 3); (4, 4) ]}
      ∧ light_scatter g2 = ∅.
Proof.
  split; [vm_compute; reflexivity|]. eexists _, _.
  split; [vm_compute; reflexivity|].
  split; [vm_compute; reflexivity|].
  split; [vm_compute; reflexivity|].
  split; [vm_compute; reflexivity|].
  split; [vm_compute; reflexivity|].
  split; vm_compute; reflexivity.
Qed.

(** C6 (termination of the refraction loop).  On a well-formed game with
    at most fourteen crystal cells, in any arrangement, the loop returns
    with the flag down after at most (number of crystal cells + 1)
    passes, fewer than the cap of 16: its last pass added no coordinate,
    and one more pass on the result changes nothing. *)
Theorem C6_refraction_terminates g :
  well_formed g = true →
  (crystal_count g ≤ 14)%nat →
  ∃ g' (passes : nat),
    refraction_loop 16 g true 0 = Some (g', false, Z.of_nat passes)
    ∧ (1 ≤ passes ≤ crystal_count g + 1)%nat
    ∧ (passes < 16)%nat
    ∧ apply_crystals g' = Some (g', false).
Proof.
  intros Hwf Hcount.
  destruct (refraction_loop_spec g (light_direct g) (light_scatter g) Hwf)
    as (ld & ls & ch & k & Hrun & _ & _ & _ & Hk & Hexit & Hch & Hpos & Hstable).
  rewrite with_lights_id in Hrun.
  assert (ch = false) as ->.
  { destruct ch; [|done]. specialize (Hch eq_refl).
    destruct Hexit as [|]; [done | lia]. }
  exists (with_lights g ld ls), k. split; [done|].
  specialize (Hpos eq_refl). split; [lia|]. split; [lia|].
  rewrite apply_crystals_spec by done. rewrite Hstable by done. done.
Qed.

Lemma C6_refraction_terminates_witness :
  ∃ g' (passes : nat),
    refraction_loop 16 scenario_crystals true 0
    = Some (g', false, Z.of_nat passes)
    ∧ (1 ≤ passes ≤ crystal_count scenario_crystals + 1)%nat
    ∧ (passes < 16)%nat
    ∧ apply_crystals g' = Some (g', false).
Proof.
  apply (C6_refraction_terminates scenario_crystals).
  - reflexivity.
  - vm_compute. lia.
Defined.

(** In [scenario_crystals] the two crystals are lit one pass after the
    other: inside [recompute_light] the loop makes three passes, the
    bound of the theorem above. *)
Example scenario_crystals_passes :
  crystal_count scenario_crystals = 2%nat
  ∧ ∃ g2 g3,
      light_before_crystals scenario_crystals = Some g2
      ∧ refraction_loop 16 g2 true 0 = Some (g3, false, 3).
Proof.
  split; [reflexivity|]. eexists _, _.
  split; [vm_compute; reflexivity|]. vm_compute. reflexivity.
Qed.

(** C7 (determinism and idempotence).  On a well-formed game
    [recompute_light] returns a game [g1]; invoked again on [g1], whose
    board is unchanged, it returns [g1] again, with the same two sets;
    its result does not depend on the sets the game held before the call.
    The casts of [apply_scattering], the only ones whose order the code
    leaves to the iteration order of a dict and of sets, give the same
    result in any order. *)
Theorem C7_recompute_idempotent g :
  well_formed g = true →
  ∃ g1,
    recompute_light g = Some g1
    ∧ recompute_light g1 = Some g1
    ∧ (∀ ld ls, recompute_light (with_lights g ld ls) = Some g1)
    ∧ (∀ beams items,
         items_reordered (ledger_items beams) items →
         apply_scattering_items g items = apply_scattering g beams).
Proof.
  intros Hwf.
  destruct (recompute_light_spec g Hwf) as (ld1 & ls1 & Hre & _).
  exists (with_lights g ld1 ls1).
  split; [done|]. split; [by rewrite recompute_light_with_lights|].
  split; [intros ld ls; by rewrite recompute_light_with_lights|].
  intros beams items Hre'. unfold apply_scattering.
  rewrite <- (with_lights_id g).
  rewrite !apply_scattering_items_spec by done.
  f_equal. unfold with_lights. f_equal. simpl. f_equal.
  apply set_eq. intros c'. split.
  - by apply scatter_rays_reordered_sup.
  - by apply scatter_rays_reordered_sub.
Qed.

Lemma C7_recompute_idempotent_witness :
  ∃ g1,
    recompute_light scenario_B = Some g1
    ∧ recompute_light g1 = Some g1
    ∧ (∀ ld ls, recompute_light (with_lights scenario_B ld ls) = Some g1)
    ∧ (∀ beams items,
         items_reordered (ledger_items beams) items →
         apply_scattering_items scenario_B items
         = apply_scattering scenario_B beams).
Proof. apply (C7_recompute_idempotent scenario_B). reflexivity. Defined.

(** C8 (source non-opacity).  In each of the four casts, a cell [c] of
    the line that is reached (no block before it) and holds anything but
    a block (so [SOURCE_ON], [SOURCE_OFF], [BG] or [CRYSTAL]) is put in
    the set the cast feeds, and so is the next cell of the line: the beam
    goes on past [c]. *)
Theorem C8_non_blocks_transparent g start dir beams pre c post t :
  well_formed g = true →
  neighbors_line g start.1 start.2 dir = pre ++ c :: post →
  (∀ p, p ∈ pre → tile g p.1 p.2 ≠ Some BLOCK_MOV
                  ∧ tile g p.1 p.2 ≠ Some BLOCK_IMMOV) →
  tile g c.1 c.2 = Some t → t ≠ BLOCK_MOV → t ≠ BLOCK_IMMOV →
  (∃ g' beams',
     cast_beam_direct g start dir beams = Some (g', beams')
     ∧ c ∈ light_direct g'
     ∧ ∀ n, head post = Some n → n ∈ light_direct g')
  ∧ (∃ g', cast_scatter_from g start dir = Some g'
           ∧ c ∈ light_scatter g'
           ∧ ∀ n, head post = Some n → n ∈ light_scatter g')
  ∧ (∃ g' changed,
       cast_direct_line_from g start dir = Some (g', changed)
       ∧ c ∈ light_direct g'
       ∧ ∀ n, head post = Some n → n ∈ light_direct g')
  ∧ (∃ g' changed,
       cast_scatter_line_from g start dir = Some (g', changed)
       ∧ c ∈ light_scatter g'
       ∧ ∀ n, head post = Some n → n ∈ light_scatter g').
Proof.
  intros Hwf Hline Hpre Ht Hmov Himm.
  assert (∀ p, p ∈ pre → is_block_at g p = false) as Hpre'.
  { intros p Hp. destruct (Hpre p Hp). by apply not_block_at. }
  assert (is_block_at g c = false) as Hc.
  { unfold is_block_at. rewrite Ht. by destruct t. }
  assert (c ∈ beam_path g start dir) as Hin.
  { unfold beam_path. rewrite Hline. by apply beam_cells_prefix. }
  assert (∀ n, head post = Some n → n ∈ beam_path g start dir) as Hnext.
  { intros n Hn. destruct post as [|n' post']; [done|]. injection Hn as ->.
    unfold beam_path. rewrite Hline.
    change (pre ++ c :: n :: post') with (pre ++ [c] ++ n :: post').
    rewrite app_assoc. apply beam_cells_prefix.
    intros p [Hp| ->%list_elem_of_singleton]%elem_of_app; auto. }
  pose proof (cast_beam_direct_spec g start dir (light_direct g)
                (light_scatter g) beams Hwf) as H1.
  pose proof (cast_scatter_from_spec g start dir (light_direct g)
                (light_scatter g) Hwf) as H2.
  pose proof (cast_direct_line_from_spec g start dir (light_direct g)
                (light_scatter g) Hwf) as H3.
  pose proof (cast_scatter_line_from_spec g start dir (light_direct g)
                (light_scatter g) Hwf) as H4.
  rewrite with_lights_id in H1, H2, H3, H4.
  split; [|split; [|split]].
  - eexists _, _. split; [exact H1|]. simpl.
    split; [|intros n Hn; apply Hnext in Hn]; set_solver.
  - eexists. split; [exact H2|]. simpl.
    split; [|intros n Hn; apply Hnext in Hn]; set_solver.
  - eexists _, _. split; [exact H3|]. simpl.
    split; [|intros n Hn; apply Hnext in Hn]; set_solver.
  - eexists _, _. split; [exact H4|]. simpl.
    split; [|intros n Hn; apply Hnext in Hn]; set_solver.
Qed.

Lemma C8_non_blocks_transparent_witness :
  (∃ g' beams',
     cast_beam_direct scenario_through (2, 0) R ∅ = Some (g', beams')
     ∧ (2, 2) ∈ light_direct g'
     ∧ ∀ n, head [(2, 3); (2, 4)] = Some n → n ∈ light_direct g')
  ∧ (∃ g', cast_scatter_from scenario_through (2, 0) R = Some g'
           ∧ (2, 2) ∈ light_scatter g'
           ∧ ∀ n, head [(2, 3); (2, 4)] = Some n → n ∈ light_scatter g')
  ∧ (∃ g' changed,
       cast_direct_line_from scenario_through (2, 0) R = Some (g', changed)
       ∧ (2, 2) ∈ light_direct g'
       ∧ ∀ n, head [(2, 3); (2, 4)] = Some n → n ∈ light_direct g')
  ∧ (∃ g' changed,
       cast_scatter_line_from scenario_through (2, 0) R = Some (g', changed)
       ∧ (2, 2) ∈ light_scatter g'
       ∧ ∀ n, head [(2, 3); (2, 4)] = Some n → n ∈ light_scatter g').
Proof.
  apply (C8_non_blocks_transparent scenario_through (2, 0) R ∅ [(2, 1)] (2, 2)
                                   [(2, 3); (2, 4)] SOURCE_OFF).
  - reflexivity.
  - reflexivity.
  - intros p ->%list_elem_of_singleton. split; vm_compute; discriminate.
  - reflexivity.
  - discriminate.
  - discriminate.
Defined.

(** Python's index rule in closed form. *)
Lemma py_index_None {A : Type} (l : list A) (i : Z) :
  i < - Z.of_nat (length l) ∨ Z.of_nat (length l) ≤ i → py_index l i = None.
Proof.
  intros Hi. unfold py_index. by rewrite !bool_decide_eq_false_2 by lia.
Qed.

Lemma py_index_mod {A : Type} (l : list A) (i : Z) :
  - Z.of_nat (length l) ≤ i < Z.of_nat (length l) →
  py_index l i = l !! Z.to_nat (i mod Z.of_nat (length l)).
Proof.
  intros Hi. unfold py_index.
  destruct (decide (0 ≤ i)) as [Hpos|Hneg].
  - rewrite bool_decide_eq_true_2 by lia. by rewrite Z.mod_small by lia.
  - rewrite bool_decide_eq_false_2 by lia.
    rewrite bool_decide_eq_true_2 by lia.
    rewrite <- (Z_mod_plus_full i 1 (Z.of_nat (length l))).
    rewrite Z.mod_small by lia. do 2 f_equal. lia.
Qed.

(** C9 (out-of-range access), as the code has it.  For a coordinate
    outside the grid, [tile] fails when an index is at or beyond the
    extent ([y ≥ height], [x ≥ width]) or below its negation
    ([y < -height], [x < -width]).  A negative index down to [-height]
    (resp. [-width]) is not rejected: the list access counts it from the
    end, and [tile] returns the kind of the in-range cell
    [(y mod height, x mod width)]. *)
Theorem C9_tile_out_of_range g y x :
  well_formed g = true → in_bounds g y x = false →
  (y < - height (cfg g) ∨ height (cfg g) ≤ y
   ∨ x < - width (cfg g) ∨ width (cfg g) ≤ x →
   tile g y x = None)
  ∧ (- height (cfg g) ≤ y < height (cfg g) →
     - width (cfg g) ≤ x < width (cfg g) →
     in_bounds g (y mod height (cfg g)) (x mod width (cfg g)) = true
     ∧ is_Some (tile g y x)
     ∧ tile g y x = tile g (y mod height (cfg g)) (x mod width (cfg g))).
Proof.
  intros Hwf _. pose proof Hwf as [Hh Hrows]%well_formed_spec. split.
  - intros Hout. unfold tile.
    destruct (decide (- height (cfg g) ≤ y < height (cfg g))) as [Hy|Hy].
    + rewrite py_index_mod by lia.
      destruct (base g !! _) as [row|] eqn:Hrow; [|done]. simpl.
      destruct (Hrows row) as [Hw _]; [by eapply list_elem_of_lookup_2|].
      by rewrite py_index_None by lia.
    + by rewrite py_index_None by lia.
  - intros Hy Hx.
    assert (0 ≤ y mod height (cfg g) < height (cfg g)) as Hy'
      by (apply Z.mod_pos_bound; lia).
    assert (0 ≤ x mod width (cfg g) < width (cfg g)) as Hx'
      by (apply Z.mod_pos_bound; lia).
    assert (in_bounds g (y mod height (cfg g)) (x mod width (cfg g)) = true)
      as Hin by by apply in_bounds_spec.
    split; [done|].
    destruct (tile_in_bounds g _ _ Hwf Hin)
      as (row & n & t & Hrow & Hw & Hn & Ht & Htile).
    assert (tile g y x = Some t) as Hyx.
    { unfold tile. rewrite py_index_mod by lia. rewrite Hh, Hrow. simpl.
      rewrite py_index_mod by lia. rewrite Hw, Hn. done. }
    rewrite Hyx, Htile. split; [by eexists | done].
Qed.

Lemma C9_tile_out_of_range_witness :
  (-1 < - height (cfg scenario_A) ∨ height (cfg scenario_A) ≤ -1
   ∨ 7 < - width (cfg scenario_A) ∨ width (cfg scenario_A) ≤ 7 →
   tile scenario_A (-1) 7 = None)
  ∧ (- height (cfg scenario_A) ≤ -1 < height (cfg scenario_A) →
     - width (cfg scenario_A) ≤ 7 < width (cfg scenario_A) →
     in_bounds scenario_A (-1 mod height (cfg scenario_A))
               (7 mod width (cfg scenario_A)) = true
     ∧ is_Some (tile scenario_A (-1) 7)
     ∧ tile scenario_A (-1) 7
       = tile scenario_A (-1 mod height (cfg scenario_A))
              (7 mod width (cfg scenario_A))).
Proof.
  apply (C9_tile_out_of_range scenario_A (-1) 7); reflexivity.
Defined.

(** C9, as stated, fails: (-3, 0) is out of bounds, yet [tile] does not
    reject it and returns the kind of the in-range cell (2, 0). *)
Lemma C9_counterexample :
  in_bounds scenario_A (-3) 0 = false
  ∧ tile scenario_A (-3) 0 = Some SOURCE_ON
  ∧ tile scenario_A 2 0 = Some SOURCE_ON.
Proof. repeat split; reflexivity. Qed.

(** Beyond the extent, and below its negation, the access is rejected. *)
Example tile_beyond_extent :
  tile scenario_A 5 0 = None ∧ tile scenario_A 0 5 = None
  ∧ tile scenario_A (-6) 0 = None ∧ tile scenario_A 0 (-6) = None.
Proof. repeat split; reflexivity. Qed.

(** C10 (frame of the lock transition).  [after_change] changes the kind
    of a cell of the board only where its first recomputation lit a
    [BLOCK_MOV] directly (that cell becomes [BLOCK_IMMOV]); every other
    cell of the board holds the kind it held before, and the extent of
    the board is the same. *)
Theorem C10_lock_frame g :
  well_formed g = true →
  ∃ g1 g',
    recompute_light g = Some g1
    ∧ after_change g = Some g'
    ∧ cfg g' = cfg g
    ∧ ∀ y x, in_bounds g y x = true →
        ((y, x) ∈ light_direct g1 ∧ tile g y x = Some BLOCK_MOV →
         tile g' y x = Some BLOCK_IMMOV)
        ∧ (¬ ((y, x) ∈ light_direct g1 ∧ tile g y x = Some BLOCK_MOV) →
           tile g' y x = tile g y x).
Proof.
  intros Hwf.
  destruct (after_change_spec g Hwf)
    as (ld1 & ls1 & g' & Hre & _ & Hac & Hcfg & _ & _ & Htile).
  exists (with_lights g ld1 ls1), g'.
  split; [done|]. split; [done|]. split; [done|].
  intros y x Hyx. rewrite Htile by done. simpl. split.
  - intros [Hd Hmov]. by rewrite !bool_decide_eq_true_2.
  - intros Hnot.
    destruct (decide ((y, x) ∈ ld1)) as [Hd|Hd].
    + rewrite (bool_decide_eq_false_2 (tile g y x = _)) by tauto.
      by rewrite andb_false_r.
    + by rewrite (bool_decide_eq_false_2 ((y, x) ∈ ld1)).
Qed.

Lemma C10_lock_frame_witness :
  ∃ g1 g',
    recompute_light scenario_block = Some g1
    ∧ after_change scenario_block = Some g'
    ∧ cfg g' = cfg scenario_block
    ∧ ∀ y x, in_bounds scenario_block y x = true →
        ((y, x) ∈ light_direct g1 ∧ tile scenario_block y x = Some BLOCK_MOV →
         tile g' y x = Some BLOCK_IMMOV)
        ∧ (¬ ((y, x) ∈ light_direct g1
              ∧ tile scenario_block y x = Some BLOCK_MOV) →
           tile g' y x = tile scenario_block y x).
Proof. apply (C10_lock_frame scenario_block). reflexivity. Defined.

(** * Lemmas on the engine and the game beyond the claims *)

(** ** Locking does not change the light *)

Lemma neighbors_line_cfg g h y x dir :
  cfg h = cfg g → neighbors_line h y x dir = neighbors_line g y x dir.
Proof.
  intros Hcfg. unfold neighbors_line. rewrite Hcfg.
  destruct (DIRS dir) as [dy dx].
  generalize (Z.to_nat (Z.max (height (cfg g)) (width (cfg g)))).
  generalize (y + dy) (x + dx).
  intros ny nx fuel. revert ny nx.
  induction fuel as [|fuel IH]; intros ny nx; simpl; [done|].
  unfold in_bounds at 1 2. rewrite Hcfg. fold (in_bounds g ny nx).
  by rewrite IH.
Qed.

Lemma locked_from_refl g : locked_from g g.
Proof. split; [done|]. intros; by left. Qed.

Lemma locked_from_in_bounds g h y x :
  locked_from g h → in_bounds h y x = in_bounds g y x.
Proof. intros [Hcfg _]. unfold in_bounds. by rewrite Hcfg. Qed.

Lemma locked_from_block g h c :
  locked_from g h → in_bounds g c.1 c.2 = true →
  is_block_at h c = is_block_at g c.
Proof.
  intros [_ Ht] Hin. unfold is_block_at.
  destruct (Ht _ _ Hin) as [-> | [-> ->]]; done.
Qed.

Lemma locked_from_crystal g h c :
  locked_from g h → in_bounds g c.1 c.2 = true →
  is_crystal_at h c = is_crystal_at g c.
Proof.
  intros [_ Ht] Hin. unfold is_crystal_at.
  destruct (Ht _ _ Hin) as [-> | [-> ->]]; [done|].
  by rewrite !bool_decide_eq_false_2.
Qed.

Lemma locked_from_beam_cells g h line :
  locked_from g h → (∀ c, c ∈ line → in_bounds g c.1 c.2 = true) →
  beam_cells h line = beam_cells g line
  ∧ ledger_cells h line = ledger_cells g line.
Proof.
  intros Hl. induction line as [|c line IH]; intros Hin; simpl; [done|].
  rewrite (locked_from_block g h c Hl) by (apply Hin; left).
  destruct IH as [-> ->]; [intros c' Hc'; apply Hin; by right|]. done.
Qed.

Lemma locked_from_beam_path g h c dir :
  locked_from g h → beam_path h c dir = beam_path g c dir.
Proof.
  intros Hl. unfold beam_path. rewrite (neighbors_line_cfg g h) by apply Hl.
  apply (locked_from_beam_cells g h _ Hl).
  intros c' Hc'. by eapply neighbors_line_in_bounds.
Qed.

Lemma locked_from_crystal_rays g h c :
  locked_from g h → crystal_rays h c = crystal_rays g c.
Proof.
  intros Hl. unfold crystal_rays, UDLR. simpl.
  by rewrite !(locked_from_beam_path g h).
Qed.

Lemma locked_from_scatter_rays g h items :
  locked_from g h → scatter_rays h items = scatter_rays g items.
Proof.
  intros Hl. apply set_eq. intros c'. rewrite !elem_of_scatter_rays.
  split; intros (c & dirs & d & ? & ? & ? & Hc'); exists c, dirs, d;
    repeat (split; [done|]).
  - by rewrite <- (locked_from_beam_path g h).
  - by rewrite (locked_from_beam_path g h).
Qed.

Lemma foldl_ext_in {A B : Type} (f f' : B → A → B) (l : list A) (b : B) :
  (∀ b a, a ∈ l → f b a = f' b a) → foldl f b l = foldl f' b l.
Proof.
  revert b. induction l as [|a l IH]; intros b Hf; simpl; [done|].
  rewrite (Hf b a) by left. apply IH. intros b' a' Ha'. apply Hf. by right.
Qed.

Lemma locked_from_crystal_pass g h ld ls :
  locked_from g h → crystal_pass h ld ls = crystal_pass g ld ls.
Proof.
  intros Hl. unfold crystal_pass.
  assert (cells h = cells g) as -> by (unfold cells; by rewrite (proj1 Hl)).
  apply foldl_ext_in. intros [[ld1 ls1] ch] c Hc%elem_of_cells.
  unfold crystal_step.
  by rewrite (locked_from_crystal g h c Hl Hc), (locked_from_crystal_rays g h c Hl).
Qed.

(** Two runs of a loop whose bodies keep the states related. *)
Lemma for_each_sim {A S T : Type} (Rel : S → T → Prop)
    (body1 : S → A → option S) (body2 : T → A → option T) (l : list A) s t :
  Rel s t →
  (∀ s t a, a ∈ l → Rel s t → option_Forall2 Rel (body1 s a) (body2 t a)) →
  option_Forall2 Rel (for_each body1 s l) (for_each body2 t l).
Proof.
  revert s t. induction l as [|a l IH]; intros s t Hst Hbody; simpl.
  - by constructor.
  - pose proof (Hbody s t a (list_elem_of_here _ _) Hst) as Hstep.
    destruct (body1 s a) as [s'|], (body2 t a) as [t'|];
      inversion Hstep; subst; simpl; [|constructor].
    apply IH; [done|]. intros s2 t2 b Hb. apply Hbody. by right.
Qed.

#[local] Opaque cast_beam_direct.

Lemma locked_from_cast_sources g h ld ls :
  well_formed g = true → well_formed h = true → locked_from g h →
  option_Forall2 (sources_rel g h)
    (cast_sources (with_lights g ld ls)) (cast_sources (with_lights h ld ls)).
Proof.
  intros Hwg Hwh Hl. unfold cast_sources. rewrite !for_each_grid.
  replace (grid (range (height (cfg (with_lights h ld ls))))
                (range (width (cfg (with_lights h ld ls)))))
    with (cells g) by (unfold cells; simpl; by rewrite (proj1 Hl)).
  apply for_each_sim; [by exists ld, ls|].
  intros [g1 b1] [h1 b2] [y x] Hc%elem_of_cells (ld1 & ls1 & Hg1 & Hh1 & Hb).
  simpl in *. subst g1 h1 b2. unfold cast_sources_cell.
  change (tile (with_lights g ld1 ls1) y x) with (tile g y x).
  change (tile (with_lights h ld1 ls1) y x) with (tile h y x).
  assert (in_bounds h y x = true) as Hc' by by rewrite (locked_from_in_bounds g h).
  destruct (tile_total g y x Hwg Hc) as [t Ht].
  destruct (tile_total h y x Hwh Hc') as [t' Ht'].
  rewrite Ht, Ht'. cbn [mbind option_bind].
  assert (bool_decide (t' = SOURCE_ON) = bool_decide (t = SOURCE_ON)) as ->.
  { destruct Hl as [_ Hl]. destruct (Hl y x Hc) as [Heq|[Hm Hi]].
    - rewrite Ht, Ht' in Heq. by injection Heq as ->.
    - rewrite Ht in Hm. rewrite Ht' in Hi.
      injection Hm as ->. injection Hi as ->. done. }
  destruct (bool_decide (t = SOURCE_ON)); [|constructor; by exists ld1, ls1].
  apply (for_each_sim (sources_rel g h)
           (λ (st' : Game * Ledger) d,
              let '(g', beams') := st' in cast_beam_direct g' (y, x) d beams')
           (λ (st' : Game * Ledger) d,
              let '(g', beams') := st' in cast_beam_direct g' (y, x) d beams')
           UDLR (with_lights g ld1 ls1, b1) (with_lights h ld1 ls1, b1));
    [by exists ld1, ls1|].
  intros [g2 b2] [h2 b3] d _ (ld2 & ls2 & Hg2 & Hh2 & Hb2).
  simpl in *. subst g2 h2 b3.
  rewrite !cast_beam_direct_spec by done.
  constructor. eexists _, _. simpl. split; [done|].
  rewrite (locked_from_beam_path g h) by done. split; [done|].
  rewrite (neighbors_line_cfg g h) by apply Hl.
  f_equal. symmetry. apply (locked_from_beam_cells g h _ Hl).
  intros c' Hc2. by eapply neighbors_line_in_bounds.
Qed.

#[local] Transparent cast_beam_direct.

Lemma locked_from_refraction_loop g h :
  well_formed g = true → well_formed h = true → locked_from g h →
  ∀ fuel ld ls ch k ld' ls' ch' k',
    refraction_loop fuel (with_lights g ld ls) ch k
    = Some (with_lights g ld' ls', ch', k') →
    refraction_loop fuel (with_lights h ld ls) ch k
    = Some (with_lights h ld' ls', ch', k').
Proof.
  intros Hwg Hwh Hl fuel.
  induction fuel as [|fuel IH]; intros ld ls ch k ld' ls' ch' k'; simpl.
  - destruct (ch && _); [done|]. intros [= <- <- <- <-]. done.
  - destruct (ch && _).
    + rewrite !apply_crystals_spec by done.
      rewrite (locked_from_crystal_pass g h) by done. simpl. apply IH.
    + intros [= <- <- <- <-]. done.
Qed.

(** [recompute_light] gives the same two sets on a board and on the same
    board with some of its movable blocks made immovable. *)
Lemma locked_from_recompute_light g h ld ls :
  well_formed g = true → well_formed h = true → locked_from g h →
  recompute_light g = Some (with_lights g ld ls) →
  recompute_light h = Some (with_lights h ld ls).
Proof.
  intros Hwg Hwh Hl.
  pose proof (locked_from_cast_sources g h ∅ ∅ Hwg Hwh Hl) as Hsrc.
  unfold recompute_light, light_before_crystals.
  destruct Hsrc as [[g1 b1] [h1 b2] (ld1 & ls1 & Hg1 & Hh1 & Hb)|]; [|done].
  simpl in Hg1, Hh1, Hb. subst g1 h1 b2. cbn [mbind option_bind].
  unfold apply_scattering. rewrite !apply_scattering_items_spec by done.
  rewrite (locked_from_scatter_rays g h) by done.
  cbn [mbind option_bind].
  destruct (refraction_loop_spec g ld1
              (scatter_rays g (ledger_items b1) ∪ ls1) Hwg)
    as (ld' & ls' & ch & k & Hrun & _).
  rewrite Hrun.
  rewrite (locked_from_refraction_loop g h Hwg Hwh Hl _ _ _ _ _ _ _ _ _ Hrun).
  simpl. intros [= Hd Hs]. by rewrite Hd, Hs.
Qed.

(** [well_formed] and [recompute_light] read the extent and the board
    only. *)
Lemma well_formed_ext g h :
  cfg h = cfg g → base h = base g → well_formed h = well_formed g.
Proof. intros Hc Hb. unfold well_formed. by rewrite Hc, Hb. Qed.

Lemma tile_ext g h y x : base h = base g → tile h y x = tile g y x.
Proof. intros Hb. unfold tile. by rewrite Hb. Qed.

Lemma recompute_light_ext g h ld ls :
  well_formed g = true → cfg h = cfg g → base h = base g →
  recompute_light g = Some (with_lights g ld ls) →
  recompute_light h = Some (with_lights h ld ls).
Proof.
  intros Hwf Hc Hb. apply locked_from_recompute_light; [done | |].
  - by rewrite (well_formed_ext g h).
  - split; [done|]. intros y x _. left. by apply tile_ext.
Qed.

(** A locking loop over cells none of which holds a movable block does
    nothing. *)
Lemma lock_loop_nothing g l :
  (∀ c, c ∈ l → ∃ t, tile g c.1 c.2 = Some t ∧ t ≠ BLOCK_MOV) →
  for_each lock_cell g l = Some g.
Proof.
  induction l as [|[y x] l IH]; intros Hl; cbn [for_each]; [done|].
  destruct (Hl (y, x)) as (t & Ht & Hne); [left|]. simpl in Ht.
  unfold lock_cell at 1. simpl. rewrite Ht. simpl.
  rewrite bool_decide_eq_false_2 by done. simpl.
  apply IH. intros c' Hc'. apply Hl. by right.
Qed.

(** [after_change] in full on a well-formed game: the result is the game
    with the sets of the first recomputation and the locked board; doing
    it again changes nothing. *)
Lemma after_change_full g :
  well_formed g = true →
  ∃ ld1 ls1 g',
    recompute_light g = Some (with_lights g ld1 ls1)
    ∧ within g ld1 ∧ within g ls1
    ∧ after_change g = Some g'
    ∧ g' = with_base (with_lights g ld1 ls1) (base g')
    ∧ well_formed g' = true
    ∧ locked_from g g'
    ∧ recompute_light g' = Some g'
    ∧ (∀ y x, in_bounds g y x = true →
         tile g' y x
         = if bool_decide ((y, x) ∈ ld1)
              && bool_decide (tile g y x = Some BLOCK_MOV)
           then Some BLOCK_IMMOV else tile g y x)
    ∧ after_change g' = Some g'.
Proof.
  intros Hwf.
  destruct (recompute_light_spec g Hwf) as (ld1 & ls1 & Hre1 & Hin1 & Hin2).
  destruct (lock_loop_spec (elements ld1) (with_lights g ld1 ls1))
    as (g2 & Hlock & Hg2 & Hwf2 & Htile2); [done | |].
  { intros c Hc%elem_of_elements. by apply Hin1. }
  assert (∀ y x, in_bounds g y x = true →
            tile g2 y x
            = if bool_decide ((y, x) ∈ ld1)
                 && bool_decide (tile g y x = Some BLOCK_MOV)
              then Some BLOCK_IMMOV else tile g y x) as Htile.
  { intros y x Hyx. rewrite Htile2 by done.
    change (tile (with_lights g ld1 ls1) y x) with (tile g y x).
    destruct (decide ((y, x) ∈ ld1)) as [Hin|Hnin].
    - rewrite !(bool_decide_eq_true_2 (_ ∈ _)); [done.. |].
      by apply elem_of_elements.
    - rewrite !(bool_decide_eq_false_2 (_ ∈ _)); [done.. |].
      by rewrite elem_of_elements. }
  assert (locked_from g g2) as Hl.
  { split; [by rewrite Hg2|]. intros y x Hyx. rewrite Htile by done.
    destruct (bool_decide ((y, x) ∈ ld1)); simpl; [|by left].
    destruct (decide (tile g y x = Some BLOCK_MOV)) as [Hm|Hm].
    - rewrite bool_decide_eq_true_2 by done. by right.
    - rewrite bool_decide_eq_false_2 by done. by left. }
  assert (with_lights g2 ld1 ls1 = g2) as Hid by by rewrite Hg2.
  assert (recompute_light g2 = Some g2) as Hre2.
  { rewrite <- Hid at 2. by apply (locked_from_recompute_light g g2). }
  assert (after_change g = Some g2) as Hac.
  { unfold after_change. rewrite Hre1. simpl. rewrite Hlock. simpl. done. }
  exists ld1, ls1, g2. repeat (split; [done|]).
  unfold after_change. rewrite Hre2. simpl.
  assert (light_direct g2 = ld1) as -> by by rewrite Hg2.
  rewrite lock_loop_nothing; [done|].
  intros [y x] Hc%elem_of_elements. simpl.
  assert (in_bounds g y x = true) as Hyx by apply (Hin1 (y, x) Hc).
  rewrite Htile by done. rewrite (bool_decide_eq_true_2 (_ ∈ _)) by done. simpl.
  destruct (decide (tile g y x = Some BLOCK_MOV)) as [Hm|Hm].
  - rewrite bool_decide_eq_true_2 by done. by eexists.
  - rewrite bool_decide_eq_false_2 by done.
    destruct (tile_total g y x Hwf Hyx) as [t Ht]. rewrite Ht in *.
    exists t. split; [done|]. congruence.
Qed.

Lemma cast_sources_dark g :
  well_formed g = true → no_source_on g →
  cast_sources (with_lights g ∅ ∅) = Some (with_lights g ∅ ∅, ∅).
Proof.
  intros Hwf Hno. unfold cast_sources. rewrite for_each_grid.
  destruct (for_each_inv (λ st, st = (with_lights g ∅ ∅, ∅ : Ledger))
              (λ s (c : Coord), cast_sources_cell c.1 s c.2)
              (cells g) (with_lights g ∅ ∅, ∅)) as (st & Hrun & ->);
    [done | | exact Hrun].
  intros st [y x] Hc%elem_of_cells ->. simpl in Hc.
  unfold cast_sources_cell. cbn [fst snd].
  change (tile (with_lights g ∅ ∅) y x) with (tile g y x).
  destruct (tile_total g y x Hwf Hc) as [t Ht].
  pose proof (Hno y x Hc) as Hne. rewrite Ht in *. cbn [mbind option_bind].
  rewrite bool_decide_eq_false_2 by congruence. eauto.
Qed.

Lemma crystal_pass_dark g : crystal_pass g ∅ ∅ = (∅, ∅, false).
Proof.
  unfold crystal_pass. induction (cells g) as [|c l IH]; [done|].
  cbn [foldl]. unfold crystal_step at 2.
  rewrite (bool_decide_eq_false_2 (c ∈ _)) by set_solver.
  by rewrite andb_false_r.
Qed.

Lemma recompute_light_dark g :
  well_formed g = true → no_source_on g →
  recompute_light g = Some (with_lights g ∅ ∅).
Proof.
  intros Hwf Hno. unfold recompute_light, light_before_crystals.
  rewrite cast_sources_dark by done. cbn [mbind option_bind].
  unfold apply_scattering, ledger_items. rewrite map_to_list_empty.
  cbn [fmap list_fmap apply_scattering_items for_each mbind option_bind].
  cbn [refraction_loop]. simpl (true && _).
  rewrite apply_crystals_spec by done. rewrite crystal_pass_dark. done.
Qed.

(** ** Energy *)

Lemma spend_energy_fields g cost :
  cfg (spend_energy g cost).1 = cfg g
  ∧ base (spend_energy g cost).1 = base g
  ∧ start_base (spend_energy g cost).1 = start_base g
  ∧ selected (spend_energy g cost).1 = selected g
  ∧ light_direct (spend_energy g cost).1 = light_direct g
  ∧ light_scatter (spend_energy g cost).1 = light_scatter g.
Proof. unfold spend_energy. simpl. by destruct (bool_decide _). Qed.

Lemma spend_energy_one g :
  1 ≤ energy g ≤ energy_max (cfg g) →
  1 ≤ energy (spend_energy g 1).1 ≤ energy_max (cfg g)
  ∧ lives g - 1 ≤ lives (spend_energy g 1).1 ≤ lives g
  ∧ (energy g = 1 →
     spend_energy g 1
     = (with_energy (with_lives g (lives g - 1)) (energy_max (cfg g)),
        [msg_energy_depleted (lives g - 1)]))
  ∧ (1 < energy g → spend_energy g 1 = (with_energy g (energy g - 1), [])).
Proof.
  intros He. unfold spend_energy. simpl.
  destruct (decide (energy g - 1 ≤ 0)) as [Hz|Hz].
  - rewrite bool_decide_eq_true_2 by done. simpl.
    split; [lia|]. split; [lia|]. split; [done | lia].
  - rewrite bool_decide_eq_false_2 by done. simpl.
    split; [lia|]. split; [lia|]. split; [lia | done].
Qed.

(** ** The end of every action: energy spent, then [after_change] *)

Lemma locked_from_ext_l g1 g2 h :
  cfg g2 = cfg g1 → base g2 = base g1 → locked_from g2 h → locked_from g1 h.
Proof.
  intros Hc Hb [Hch Ht]. split; [congruence|].
  intros y x Hyx. rewrite <- (tile_ext g1 g2) by done. apply Ht.
  unfold in_bounds in *. by rewrite Hc.
Qed.

Lemma action_epilogue g1 :
  well_formed g1 = true →
  well_formed (with_base g1 (start_base g1)) = true →
  (∀ c, selected g1 = Some c → in_bounds g1 c.1 c.2 = true) →
  1 ≤ energy g1 ≤ energy_max (cfg g1) →
  ∃ g3,
    after_change (spend_energy g1 1).1 = Some g3
    ∧ game_ok g3
    ∧ cfg g3 = cfg g1 ∧ start_base g3 = start_base g1
    ∧ selected g3 = selected g1
    ∧ energy g3 = energy (spend_energy g1 1).1
    ∧ lives g3 = lives (spend_energy g1 1).1
    ∧ locked_from g1 g3
    ∧ (∀ y x, (y, x) ∈ light_direct g3 → tile g3 y x ≠ Some BLOCK_MOV).
Proof.
  intros Hwf Hwfs Hsel He.
  pose proof (spend_energy_fields g1 1) as (Hc & Hb & Hsb & Hs & _ & _).
  pose proof (spend_energy_one g1 He) as (He' & _).
  set (g2 := (spend_energy g1 1).1) in *.
  assert (well_formed g2 = true) as Hwf2 by by rewrite (well_formed_ext g1 g2).
  destruct (after_change_full g2 Hwf2)
    as (ld & ls & g3 & Hre & Hin & _ & Hac & Hg3 & Hwf3 & Hl & Hre3 & Htile & _).
  assert (cfg g3 = cfg g1) as Hc3 by by rewrite Hg3.
  assert (start_base g3 = start_base g1) as Hsb3 by by rewrite Hg3.
  assert (selected g3 = selected g1) as Hs3 by by rewrite Hg3.
  exists g3. split; [done|]. split; [|repeat split; try done].
  - split; [done|]. split; [|split; [|split; [|done]]].
    + rewrite <- Hwfs. apply well_formed_ext; simpl; [done | by rewrite Hsb3].
    + intros c Hc'. rewrite Hs3 in Hc'. unfold in_bounds. rewrite Hc3.
      by apply Hsel.
    + rewrite Hc3. by rewrite Hg3.
  - by rewrite Hg3.
  - by rewrite Hg3.
  - by apply (locked_from_ext_l g1 g2).
  - intros y x Hd. assert (light_direct g3 = ld) as Hld by by rewrite Hg3.
    rewrite Hld in Hd.
    assert (in_bounds g2 y x = true) as Hyx by apply (Hin (y, x) Hd).
    rewrite Htile by done. rewrite (bool_decide_eq_true_2 (_ ∈ _)) by done.
    simpl. destruct (decide (tile g2 y x = Some BLOCK_MOV)) as [Hm|Hm].
    + by rewrite bool_decide_eq_true_2.
    + by rewrite bool_decide_eq_false_2.
Qed.

(** ** [interact] *)

(** [interact] on a source cell. *)
Lemma interact_source g y x t :
  game_ok g → in_bounds g y x = true → tile g y x = Some t →
  t = SOURCE_OFF ∨ t = SOURCE_ON →
  ∃ g1 g',
    set_tile g y x (toggled t) = Some g1
    ∧ interact g y x = Some (g', (spend_energy g1 1).2)
    ∧ game_ok g'
    ∧ cfg g' = cfg g ∧ start_base g' = start_base g
    ∧ selected g' = selected g
    ∧ energy g' = energy (spend_energy g 1).1
    ∧ lives g' = lives (spend_energy g 1).1
    ∧ tile g' y x = Some (toggled t)
    ∧ (∀ y' x', in_bounds g y' x' = true → (y', x') ≠ (y, x) →
         tile g' y' x' = tile g y' x'
         ∨ (tile g y' x' = Some BLOCK_MOV ∧ tile g' y' x' = Some BLOCK_IMMOV))
    ∧ (∀ y' x', (y', x') ∈ light_direct g' → tile g' y' x' ≠ Some BLOCK_MOV).
Proof.
  intros (Hwf & Hwfs & Hsel & He & Hre) Hin Ht Hsrc.
  destruct (set_tile_in_bounds g y x (toggled t) Hwf Hin)
    as (g1 & Hset & Hg1 & Hwf1 & Hnew & Hold).
  assert (cfg g1 = cfg g) as Hc1 by by rewrite Hg1.
  destruct (action_epilogue g1)
    as (g3 & Hac & Hok & Hc3 & Hsb3 & Hs3 & He3 & Hl3 & Hlock & Hdark).
  { done. }
  { rewrite <- Hwfs. apply well_formed_ext; simpl; by rewrite Hg1. }
  { intros c Hc. unfold in_bounds. rewrite Hc1. apply Hsel. by rewrite Hg1 in Hc. }
  { rewrite Hc1. by rewrite Hg1. }
  assert (spend_energy g1 1
          = ((spend_energy g1 1).1, (spend_energy g1 1).2)) as Hpair
    by by destruct (spend_energy g1 1).
  exists g1, g3. split; [done|]. split.
  { unfold interact. rewrite Hin, Ht. simpl.
    destruct Hsrc as [-> | ->]; simpl in *.
    - rewrite Hset. simpl. rewrite Hpair. rewrite Hac. done.
    - rewrite Hset. simpl. rewrite Hpair. rewrite Hac. done. }
  assert (energy (spend_energy g1 1).1 = energy (spend_energy g 1).1
          ∧ lives (spend_energy g1 1).1 = lives (spend_energy g 1).1)
    as [Hee Hll].
  { unfold spend_energy. rewrite Hg1. simpl. by destruct (bool_decide _). }
  split; [done|]. split; [congruence|]. split; [by rewrite Hsb3, Hg1|].
  split; [by rewrite Hs3, Hg1|]. split; [congruence|]. split; [congruence|].
  destruct Hlock as [_ Hlock]. split; [|split; [|done]].
  - destruct (Hlock y x) as [Heq|[Hm _]].
    + unfold in_bounds. by rewrite Hc1.
    + by rewrite Heq.
    + rewrite Hnew in Hm. destruct Hsrc as [-> | ->]; discriminate.
  - intros y' x' Hyx Hne. rewrite <- (Hold y' x' Hyx Hne).
    apply Hlock. unfold in_bounds. by rewrite Hc1.
Qed.

(** [interact] anywhere else than on a source: only the selection
    changes. *)
Lemma interact_other g y x :
  well_formed g = true →
  (in_bounds g y x = false ∧ interact g y x = Some (g, [msg_out_of_bounds]))
  ∨ ∃ t, in_bounds g y x = true ∧ tile g y x = Some t
         ∧ ((t = SOURCE_OFF ∨ t = SOURCE_ON)
            ∨ (is_movable t = true
               ∧ interact g y x
                 = Some (with_selected g (Some (y, x)), [msg_selected (y, x)]))
            ∨ (is_movable t = false
               ∧ interact g y x
                 = Some (with_selected g None, [msg_selection_cleared]))).
Proof.
  intros Hwf. destruct (in_bounds g y x) eqn:Hin.
  - right. destruct (tile_total g y x Hwf Hin) as [t Ht]. exists t.
    split; [done|]. split; [done|]. unfold interact. rewrite Hin, Ht. simpl.
    destruct t; simpl; auto.
  - left. split; [done|]. unfold interact. by rewrite Hin.
Qed.

Lemma game_ok_with_selected g s :
  game_ok g → (∀ c, s = Some c → in_bounds g c.1 c.2 = true) →
  game_ok (with_selected g s).
Proof.
  intros (Hwf & Hwfs & Hsel & He & Hre) Hs.
  split; [done|]. split; [done|]. split; [done|]. split; [done|].
  assert (with_selected g s
          = with_lights (with_selected g s) (light_direct g) (light_scatter g))
    as Hid by done.
  rewrite Hid at 2. apply (recompute_light_ext g); try done.
  by rewrite with_lights_id.
Qed.

(** ** [move_selected] *)

(** A move that goes through. *)
Lemma move_success g dir sy sx t d :
  game_ok g → selected g = Some (sy, sx) →
  tile g sy sx = Some t → is_movable t = true →
  in_bounds g (sy + (DIRS dir).1) (sx + (DIRS dir).2) = true →
  tile g (sy + (DIRS dir).1) (sx + (DIRS dir).2) = Some d →
  stops_move d = false →
  ∃ g2 g',
    move_selected g dir = Some (g', (spend_energy g2 1).2)
    ∧ energy g2 = energy g ∧ lives g2 = lives g ∧ cfg g2 = cfg g
    ∧ game_ok g'
    ∧ cfg g' = cfg g ∧ start_base g' = start_base g
    ∧ selected g' = Some (sy + (DIRS dir).1, sx + (DIRS dir).2)
    ∧ energy g' = energy (spend_energy g 1).1
    ∧ lives g' = lives (spend_energy g 1).1
    ∧ tile g' sy sx = Some BG
    ∧ (tile g' (sy + (DIRS dir).1) (sx + (DIRS dir).2) = Some t
       ∨ (t = BLOCK_MOV
          ∧ tile g' (sy + (DIRS dir).1) (sx + (DIRS dir).2)
            = Some BLOCK_IMMOV))
    ∧ (∀ y x, in_bounds g y x = true → (y, x) ≠ (sy, sx) →
         (y, x) ≠ (sy + (DIRS dir).1, sx + (DIRS dir).2) →
         tile g' y x = tile g y x
         ∨ (tile g y x = Some BLOCK_MOV ∧ tile g' y x = Some BLOCK_IMMOV))
    ∧ (∀ y x, (y, x) ∈ light_direct g' → tile g' y x ≠ Some BLOCK_MOV).
Proof.
  intros (Hwf & Hwfs & Hsel & He & Hre) Hs Ht Hmov Hin Hd Hstop.
  set (ny := sy + (DIRS dir).1) in *. set (nx := sx + (DIRS dir).2) in *.
  assert (in_bounds g sy sx = true) as Hsrc by apply (Hsel (sy, sx) Hs).
  assert ((ny, nx) ≠ (sy, sx)) as Hne.
  { unfold ny, nx. destruct dir; simpl; intros [= ? ?]; lia. }
  destruct (set_tile_in_bounds g ny nx t Hwf Hin)
    as (g1 & Hset1 & Hg1 & Hwf1 & Hnew1 & Hold1).
  assert (cfg g1 = cfg g) as Hc1 by by rewrite Hg1.
  assert (in_bounds g1 sy sx = true) as Hsrc1
    by (unfold in_bounds; by rewrite Hc1).
  destruct (set_tile_in_bounds g1 sy sx BG Hwf1 Hsrc1)
    as (g2 & Hset2 & Hg2 & Hwf2 & Hnew2 & Hold2).
  assert (cfg g2 = cfg g) as Hc2 by by rewrite Hg2, Hg1.
  assert (∀ y x, in_bounds g2 y x = in_bounds g y x) as Hb2
    by (intros; unfold in_bounds; by rewrite Hc2).
  set (g3 := with_selected g2 (Some (ny, nx))).
  destruct (action_epilogue g3)
    as (g5 & Hac & Hok & Hc5 & Hsb5 & Hs5 & He5 & Hl5 & Hlock & Hdark).
  { done. }
  { rewrite <- Hwfs. apply well_formed_ext; simpl; [done | by rewrite Hg2, Hg1]. }
  { intros c [= <-]. simpl. change (in_bounds g2 ny nx = true). by rewrite Hb2. }
  { simpl. rewrite Hc2. by rewrite Hg2, Hg1. }
  assert (spend_energy g3 1
          = ((spend_energy g3 1).1, (spend_energy g3 1).2)) as Hpair
    by by destruct (spend_energy g3 1).
  assert (tile g3 sy sx = Some BG) as Hsrc3 by done.
  assert (tile g3 ny nx = Some t) as Hdst3.
  { change (tile g2 ny nx = Some t). rewrite Hold2; [done | | done].
    unfold in_bounds. by rewrite Hc1. }
  exists g3, g5. split.
  { unfold move_selected. rewrite Hs, Ht. simpl. rewrite Hmov. simpl.
    destruct (DIRS dir) as [dy dx] eqn:Hdir. simpl in ny, nx.
    fold ny nx. rewrite Hin, Hd. simpl.
    assert ((if bool_decide (t = BLOCK_MOV) then stops_move d
             else if bool_decide (t = CRYSTAL) then stops_move d else false)
            = false) as ->.
    { rewrite Hstop. by repeat destruct (bool_decide _). }
    rewrite Hset1. simpl. rewrite Hset2. simpl. fold g3.
    rewrite Hpair, Hac. done. }
  assert (energy (spend_energy g3 1).1 = energy (spend_energy g 1).1
          ∧ lives (spend_energy g3 1).1 = lives (spend_energy g 1).1)
    as [Hee Hll].
  { unfold spend_energy, g3. rewrite Hg2, Hg1. simpl.
    by destruct (bool_decide _). }
  split; [unfold g3; simpl; by rewrite Hg2, Hg1|].
  split; [unfold g3; simpl; by rewrite Hg2, Hg1|].
  split; [exact Hc2|]. split; [done|].
  split; [rewrite Hc5; exact Hc2|].
  split; [rewrite Hsb5; unfold g3; simpl; by rewrite Hg2, Hg1|].
  split; [by rewrite Hs5|]. split; [congruence|]. split; [congruence|].
  destruct Hlock as [_ Hlock]. split; [|split; [|split; [|done]]].
  - destruct (Hlock sy sx) as [Heq|[Hm _]].
    + change (in_bounds g2 sy sx = true). by rewrite Hb2.
    + by rewrite Heq.
    + rewrite Hsrc3 in Hm. discriminate.
  - destruct (Hlock ny nx) as [Heq|[Hm Hi]].
    + change (in_bounds g2 ny nx = true). by rewrite Hb2.
    + left. by rewrite Heq.
    + right. rewrite Hdst3 in Hm. by injection Hm as ->.
  - intros y x Hyx Hn1 Hn2.
    assert (tile g3 y x = tile g y x) as <-.
    { change (tile g2 y x = tile g y x).
      rewrite Hold2; [by apply Hold1 | | done].
      unfold in_bounds. by rewrite Hc1. }
    apply Hlock. change (in_bounds g2 y x = true). by rewrite Hb2.
Qed.

(** The four ways in which [move_selected] refuses to move, and the one
    in which it moves. *)
Lemma move_selected_cases g dir :
  game_ok g →
  move_selected g dir = Some (g, [msg_nothing_selected])
  ∨ move_selected g dir = Some (with_selected g None, [msg_no_longer_movable])
  ∨ move_selected g dir = Some (g, [msg_blocked_by_boundary])
  ∨ move_selected g dir = Some (g, [msg_blocked])
  ∨ ∃ sy sx t d,
      selected g = Some (sy, sx) ∧ tile g sy sx = Some t
      ∧ is_movable t = true
      ∧ in_bounds g (sy + (DIRS dir).1) (sx + (DIRS dir).2) = true
      ∧ tile g (sy + (DIRS dir).1) (sx + (DIRS dir).2) = Some d
      ∧ stops_move d = false.
Proof.
  intros (Hwf & Hwfs & Hsel & He & Hre). unfold move_selected.
  destruct (selected g) as [[sy sx]|] eqn:Hs; [|by left].
  assert (in_bounds g sy sx = true) as Hsrc by by apply (Hsel (sy, sx)).
  destruct (tile_total g sy sx Hwf Hsrc) as [t Ht]. rewrite Ht. simpl.
  destruct (is_movable t) eqn:Hmov; simpl; [|right; by left].
  destruct (DIRS dir) as [dy dx] eqn:Hdir. simpl.
  destruct (in_bounds g (sy + dy) (sx + dx)) eqn:Hin; simpl;
    [|right; right; by left].
  destruct (tile_total g _ _ Hwf Hin) as [d Hd]. rewrite Hd. simpl.
  destruct (stops_move d) eqn:Hstop.
  - right; right; right; left.
    assert ((if bool_decide (t = BLOCK_MOV) then true
             else if bool_decide (t = CRYSTAL) then true else false) = true)
      as ->; [|done].
    destruct t; try discriminate; done.
  - right; right; right; right. by exists sy, sx, t, d.
Qed.

(** ** [reset_level] *)

Lemma reset_level_full g :
  game_ok g →
  ∃ g',
    reset_level g = Some (g', [msg_level_reset])
    ∧ game_ok g'
    ∧ cfg g' = cfg g ∧ start_base g' = start_base g
    ∧ lives g' = lives g ∧ energy g' = energy_max (cfg g)
    ∧ selected g' = None
    ∧ locked_from (with_base g (start_base g)) g'
    ∧ (∀ y x, (y, x) ∈ light_direct g' → tile g' y x ≠ Some BLOCK_MOV)
    ∧ reset_level g' = Some (g', [msg_level_reset]).
Proof.
  intros (Hwf & Hwfs & Hsel & He & Hre). unfold reset_level.
  set (g3 := with_energy (with_selected (with_base g (start_base g)) None)
                         (energy_max (cfg g))).
  change (with_energy (with_selected (with_base g (start_base g)) None)
            (energy_max (cfg (with_selected (with_base g (start_base g)) None))))
    with g3.
  assert (well_formed g3 = true) as Hwf3 by exact Hwfs.
  destruct (after_change_full g3 Hwf3)
    as (ld & ls & g4 & Hre3 & Hin & _ & Hac & Hg4 & Hwf4 & Hl & Hre4 & Htile & _).
  exists g4. rewrite Hac. simpl. split; [done|].
  assert (cfg g4 = cfg g) as Hc4 by by rewrite Hg4.
  assert (start_base g4 = start_base g) as Hsb4 by by rewrite Hg4.
  split; [|split; [done|]; split; [done|]; split; [by rewrite Hg4|];
           split; [by rewrite Hg4|]; split; [by rewrite Hg4|];
           split; [exact Hl|]; split].
  - split; [done|]. split; [|split; [|split; [|done]]].
    + rewrite <- Hwfs. apply well_formed_ext; simpl; [done | by rewrite Hsb4].
    + intros c Hc. by rewrite Hg4 in Hc.
    + rewrite Hc4. rewrite Hg4. simpl. lia.
  - intros y x Hd. assert (light_direct g4 = ld) as Hld by by rewrite Hg4.
    rewrite Hld in Hd.
    assert (in_bounds g3 y x = true) as Hyx by apply (Hin (y, x) Hd).
    rewrite Htile by done. rewrite (bool_decide_eq_true_2 (_ ∈ _)) by done.
    simpl. destruct (decide (tile g3 y x = Some BLOCK_MOV)) as [Hm|Hm].
    + by rewrite bool_decide_eq_true_2.
    + by rewrite bool_decide_eq_false_2.
  - assert (with_energy (with_selected (with_base g4 (start_base g4)) None)
              (energy_max (cfg g4))
            = with_lights g3 ld ls) as ->.
    { rewrite Hg4. reflexivity. }
    change (after_change (with_lights g3 ld ls)) with (after_change g3).
    by rewrite Hac.
Qed.

(** ** [is_win] *)

Lemma block_coords_spec g l :
  well_formed g = true → (∀ c, c ∈ l → in_bounds g c.1 c.2 = true) →
  block_coords g l = Some (filter (λ c, is_block_at g c = true) l).
Proof.
  intros Hwf. induction l as [|c l IH]; intros Hl; simpl; [done|].
  destruct (tile_total g c.1 c.2 Hwf) as [t Ht]; [apply Hl; left|].
  rewrite Ht. simpl. rewrite IH by (intros c' Hc'; apply Hl; by right). simpl.
  assert (is_block_at g c = is_block t) as Hb
    by (unfold is_block_at; by rewrite Ht).
  rewrite filter_cons. rewrite Hb.
  destruct (is_block t); [by rewrite decide_True | by rewrite decide_False].
Qed.

Lemma filter_ext_in {A : Type} (P Q : A → Prop)
    `{!∀ x, Decision (P x), !∀ x, Decision (Q x)} (l : list A) :
  (∀ x, x ∈ l → P x ↔ Q x) → filter P l = filter Q l.
Proof.
  induction l as [|a l IH]; intros HPQ; [done|].
  rewrite !filter_cons. rewrite IH by (intros x Hx; apply HPQ; by right).
  destruct (decide (P a)) as [HP|HP].
  - rewrite decide_True; [done|]. by apply HPQ; [left|].
  - rewrite decide_False; [done|]. intros HQ. apply HP. by apply HPQ; [left|].
Qed.

Lemma block_coords_cells g :
  well_formed g = true →
  block_coords g (cells g)
  = Some (filter (λ c, is_block_at g c = true) (cells g)).
Proof.
  intros Hwf. apply block_coords_spec; [done|].
  intros c Hc. by apply elem_of_cells.
Qed.

Lemma elem_of_sorted_set (l : list Z) (y : Z) : y ∈ sorted_set l ↔ y ∈ l.
Proof.
  unfold sorted_set. rewrite merge_sort_Permutation. apply elem_of_remove_dups.
Qed.

(** ** [__post_init__] *)

Lemma default_base_rows c row :
  row ∈ default_base c →
  length row = Z.to_nat (width c) ∧ ∀ n, n ∈ row → n = V_to_int BG.
Proof.
  unfold default_base. intros (y & -> & _)%list_elem_of_fmap. split.
  - unfold range. by rewrite !length_fmap, length_seq.
  - by intros n (x & -> & _)%list_elem_of_fmap.
Qed.

Lemma default_base_well_formed c sb e l s ld ls :
  0 ≤ width c → 0 ≤ height c →
  well_formed (mkGame c (default_base c) sb e l s ld ls) = true.
Proof.
  intros Hw Hh. apply well_formed_spec. simpl. split.
  - unfold default_base, range. rewrite !length_fmap, length_seq. lia.
  - intros row [Hlen Hcells]%default_base_rows. split; [lia|].
    intros n ->%Hcells. simpl. lia.
Qed.

Lemma default_base_tile c sb e l s ld ls y x :
  0 ≤ width c → 0 ≤ height c →
  in_bounds (mkGame c (default_base c) sb e l s ld ls) y x = true →
  tile (mkGame c (default_base c) sb e l s ld ls) y x = Some BG.
Proof.
  intros Hw Hh Hin.
  destruct (tile_in_bounds _ y x (default_base_well_formed c sb e l s ld ls Hw Hh) Hin)
    as (row & n & t & Hrow & _ & Hn & Ht & Htile).
  simpl in Hrow. apply list_elem_of_lookup_2 in Hrow.
  apply default_base_rows in Hrow as [_ Hcells].
  apply list_elem_of_lookup_2, Hcells in Hn. subst n.
  rewrite Htile, <- Ht. done.
Qed.

(** * Further properties of the engine and of the game *)

(** X1.  [neighbors_line] yields, in order, the cells
    [(y + k*dy, x + k*dx)] for [k = 1, 2, ...]: each is on the board, no
    cell comes twice, and the cell after the last one is off the board
    (the walk stops at the boundary and nowhere else). *)
Theorem X1_neighbors_line_contract g y x dir :
  (∀ (i : nat) c,
     neighbors_line g y x dir !! i = Some c →
     c = (y + (Z.of_nat i + 1) * (DIRS dir).1,
          x + (Z.of_nat i + 1) * (DIRS dir).2)
     ∧ in_bounds g c.1 c.2 = true)
  ∧ NoDup (neighbors_line g y x dir)
  ∧ in_bounds g
      (y + (Z.of_nat (length (neighbors_line g y x dir)) + 1) * (DIRS dir).1)
      (x + (Z.of_nat (length (neighbors_line g y x dir)) + 1) * (DIRS dir).2)
    = false.
Proof.
  split; [|split].
  - intros i c. apply neighbors_line_lookup.
  - apply neighbors_line_NoDup.
  - apply neighbors_line_exits.
Qed.

(** X2.  On a well-formed board, [set_tile] at an in-range cell returns;
    reading that cell back gives the kind written, every other in-range
    cell reads as before, and the board stays well-formed with the same
    extent. *)
Theorem X2_set_tile_then_tile g y x v :
  well_formed g = true → in_bounds g y x = true →
  ∃ g', set_tile g y x v = Some g'
        ∧ tile g' y x = Some v
        ∧ (∀ y' x', in_bounds g y' x' = true → (y', x') ≠ (y, x) →
             tile g' y' x' = tile g y' x')
        ∧ well_formed g' = true ∧ cfg g' = cfg g.
Proof.
  intros Hwf Hin.
  destruct (set_tile_in_bounds g y x v Hwf Hin)
    as (g' & Hset & Hg' & Hwf' & Hnew & Hold).
  exists g'. repeat (split; [done|]). by rewrite Hg'.
Qed.

Lemma X2_set_tile_then_tile_witness :
  ∃ g', set_tile scenario_play 1 3 CRYSTAL = Some g'
        ∧ tile g' 1 3 = Some CRYSTAL
        ∧ (∀ y' x', in_bounds scenario_play y' x' = true → (y', x') ≠ (1, 3) →
             tile g' y' x' = tile scenario_play y' x')
        ∧ well_formed g' = true ∧ cfg g' = cfg scenario_play.
Proof. apply (X2_set_tile_then_tile scenario_play 1 3 CRYSTAL); reflexivity. Defined.

(** X3.  On a well-formed game [recompute_light] returns; it changes
    nothing but the two light sets, and every coordinate it puts in
    either set is on the board. *)
Theorem X3_recompute_light_on_board g :
  well_formed g = true →
  ∃ g', recompute_light g = Some g'
        ∧ g' = with_lights g (light_direct g') (light_scatter g')
        ∧ ∀ c, c ∈ light_direct g' ∪ light_scatter g' →
               in_bounds g c.1 c.2 = true.
Proof.
  intros Hwf.
  destruct (recompute_light_spec g Hwf) as (ld & ls & Hre & HD & HS).
  exists (with_lights g ld ls). split; [done|]. split; [done|].
  intros c [Hc|Hc]%elem_of_union; auto.
Qed.

Lemma X3_recompute_light_on_board_witness :
  ∃ g', recompute_light scenario_crystals = Some g'
        ∧ g' = with_lights scenario_crystals (light_direct g') (light_scatter g')
        ∧ ∀ c, c ∈ light_direct g' ∪ light_scatter g' →
               in_bounds scenario_crystals c.1 c.2 = true.
Proof. apply (X3_recompute_light_on_board scenario_crystals). reflexivity. Defined.

(** X4.  Light comes from switched-on sources only: on a well-formed
    board without a [SOURCE_ON] cell, [recompute_light] leaves both sets
    empty, whatever blocks and crystals the board holds. *)
Theorem X4_no_source_no_light g :
  well_formed g = true →
  (∀ y x, in_bounds g y x = true → tile g y x ≠ Some SOURCE_ON) →
  recompute_light g = Some (with_lights g ∅ ∅).
Proof. apply recompute_light_dark. Qed.

Lemma X4_no_source_no_light_witness :
  recompute_light scenario_play = Some (with_lights scenario_play ∅ ∅).
Proof.
  apply (X4_no_source_no_light scenario_play); [reflexivity|].
  intros y x [Hy Hx]%in_bounds_spec. simpl in Hy, Hx.
  assert (y = 0 ∨ y = 1 ∨ y = 2 ∨ y = 3 ∨ y = 4) as Hy' by lia.
  assert (x = 0 ∨ x = 1 ∨ x = 2 ∨ x = 3 ∨ x = 4) as Hx' by lia.
  destruct Hy' as [-> | [-> | [-> | [-> | ->]]]];
    destruct Hx' as [-> | [-> | [-> | [-> | ->]]]]; vm_compute; discriminate.
Defined.

(** X5.  The flag returned by [apply_crystals] is accurate: on a
    well-formed game the pass returns [False] exactly when it left both
    light sets as they were. *)
Theorem X5_apply_crystals_flag g :
  well_formed g = true →
  ∃ g' changed,
    apply_crystals g = Some (g', changed)
    ∧ (changed = false ↔ g' = g).
Proof.
  intros Hwf.
  pose proof (apply_crystals_spec g (light_direct g) (light_scatter g) Hwf)
    as Hpass.
  rewrite with_lights_id in Hpass.
  eexists _, _. split; [exact Hpass|].
  rewrite crystal_pass_flag. split.
  - intros [-> ->]. apply with_lights_id.
  - intros Heq. split.
    + by apply (f_equal light_direct) in Heq.
    + by apply (f_equal light_scatter) in Heq.
Qed.

Lemma X5_apply_crystals_flag_witness :
  ∃ g' changed,
    apply_crystals scenario_crystals_lit = Some (g', changed)
    ∧ (changed = false ↔ g' = scenario_crystals_lit).
Proof. apply (X5_apply_crystals_flag scenario_crystals_lit). reflexivity. Defined.

(** Both values of the flag on lit states.  From [scenario_crystals_lit]
    the crystal at (2,2) casts into unlit cells: the flag is raised and
    the game differs.  In the game [recompute_light] returns, both
    crystals are lit and cast again, into cells that are lit already:
    the flag stays down and the game is the same. *)
Example scenario_crystals_flags :
  (∃ g1, apply_crystals scenario_crystals_lit = Some (g1, true)
         ∧ ((1, 2) ∉ light_direct scenario_crystals_lit)
         ∧ ((1, 2) ∈ light_direct g1))
  ∧ (∃ g3, recompute_light scenario_crystals = Some g3
           ∧ (2, 2) ∈ light_direct g3 ∧ (4, 2) ∈ light_direct g3
           ∧ apply_crystals g3 = Some (g3, false)).
Proof.
  split.
  - eexists. split; [vm_compute; reflexivity|].
    split; apply (bool_decide_unpack _); vm_compute; exact I.
  - eexists. split; [vm_compute; reflexivity|].
    split; [apply (bool_decide_unpack _); vm_compute; exact I|].
    split; [apply (bool_decide_unpack _); vm_compute; exact I|].
    vm_compute. reflexivity.
Qed.

(** X6.  [recompute_light] does not tell movable from immovable blocks:
    on two well-formed boards of the same extent that differ only in
    movable blocks of the first being immovable in the second, it
    returns the same two sets. *)
Theorem X6_recompute_ignores_mobility g h :
  well_formed g = true → well_formed h = true →
  cfg h = cfg g →
  (∀ y x, in_bounds g y x = true →
     tile h y x = tile g y x
     ∨ (tile g y x = Some BLOCK_MOV ∧ tile h y x = Some BLOCK_IMMOV)) →
  ∃ g' h',
    recompute_light g = Some g' ∧ recompute_light h = Some h'
    ∧ light_direct h' = light_direct g'
    ∧ light_scatter h' = light_scatter g'.
Proof.
  intros Hwg Hwh Hcfg Htiles.
  destruct (recompute_light_spec g Hwg) as (ld & ls & Hre & _).
  exists (with_lights g ld ls), (with_lights h ld ls).
  split; [done|]. split; [|done].
  by apply (locked_from_recompute_light g h).
Qed.

Lemma X6_recompute_ignores_mobility_witness :
  ∃ g' h',
    recompute_light scenario_block = Some g'
    ∧ recompute_light scenario_locked = Some h'
    ∧ light_direct h' = light_direct g'
    ∧ light_scatter h' = light_scatter g'.
Proof.
  apply (X6_recompute_ignores_mobility scenario_block scenario_locked);
    [reflexivity | reflexivity | reflexivity |].
  intros y x [Hy Hx]%in_bounds_spec. simpl in Hy, Hx.
  assert (y = 0 ∨ y = 1 ∨ y = 2 ∨ y = 3 ∨ y = 4) as Hy' by lia.
  assert (x = 0 ∨ x = 1 ∨ x = 2 ∨ x = 3 ∨ x = 4) as Hx' by lia.
  destruct Hy' as [-> | [-> | [-> | [-> | ->]]]];
    destruct Hx' as [-> | [-> | [-> | [-> | ->]]]];
    first [left; reflexivity | right; split; reflexivity].
Defined.

(** X7.  The second [recompute_light] of [after_change] finds what the
    first one found: the light sets [after_change] leaves are those
    computed before the locking. *)
Theorem X7_after_change_lights g :
  well_formed g = true →
  ∃ g1 g',
    recompute_light g = Some g1 ∧ after_change g = Some g'
    ∧ light_direct g' = light_direct g1
    ∧ light_scatter g' = light_scatter g1.
Proof.
  intros Hwf.
  destruct (after_change_full g Hwf)
    as (ld & ls & g' & Hre & _ & _ & Hac & Hg' & _).
  exists (with_lights g ld ls), g'. split; [done|]. split; [done|].
  rewrite Hg'. done.
Qed.

Lemma X7_after_change_lights_witness :
  ∃ g1 g',
    recompute_light scenario_block = Some g1
    ∧ after_change scenario_block = Some g'
    ∧ light_direct g' = light_direct g1
    ∧ light_scatter g' = light_scatter g1.
Proof. apply (X7_after_change_lights scenario_block). reflexivity. Defined.

(** X8.  After [after_change] no movable block is left under direct
    light: every directly lit cell holds something else than
    [BLOCK_MOV]. *)
Theorem X8_no_lit_movable_block g :
  well_formed g = true →
  ∃ g', after_change g = Some g'
        ∧ ∀ y x, (y, x) ∈ light_direct g' → tile g' y x ≠ Some BLOCK_MOV.
Proof.
  intros Hwf.
  destruct (after_change_full g Hwf)
    as (ld & ls & g' & Hre & Hin & _ & Hac & Hg' & _ & _ & _ & Htile & _).
  exists g'. split; [done|]. intros y x Hd.
  assert (light_direct g' = ld) as Hld by by rewrite Hg'.
  rewrite Hld in Hd.
  rewrite Htile by apply (Hin (y, x) Hd).
  rewrite (bool_decide_eq_true_2 (_ ∈ _)) by done. simpl.
  destruct (decide (tile g y x = Some BLOCK_MOV)) as [Hm|Hm].
  - by rewrite bool_decide_eq_true_2.
  - by rewrite bool_decide_eq_false_2.
Qed.

Lemma X8_no_lit_movable_block_witness :
  ∃ g', after_change scenario_block = Some g'
        ∧ ∀ y x, (y, x) ∈ light_direct g' → tile g' y x ≠ Some BLOCK_MOV.
Proof. apply (X8_no_lit_movable_block scenario_block). reflexivity. Defined.

(** X9.  [after_change] is idempotent: invoked on its own result it
    returns that result unchanged. *)
Theorem X9_after_change_idempotent g :
  well_formed g = true →
  ∃ g', after_change g = Some g' ∧ after_change g' = Some g'.
Proof.
  intros Hwf.
  destruct (after_change_full g Hwf)
    as (ld & ls & g' & _ & _ & _ & Hac & _ & _ & _ & _ & _ & Hidem).
  by exists g'.
Qed.

Lemma X9_after_change_idempotent_witness :
  ∃ g', after_change scenario_block = Some g' ∧ after_change g' = Some g'.
Proof. apply (X9_after_change_idempotent scenario_block). reflexivity. Defined.

(** X10.  Spending one unit of energy from a level between 1 and the
    maximum leaves the level in that range: the last unit costs a life
    and refills the energy, any other unit only lowers it by one. *)
Theorem X10_spend_energy_range g :
  1 ≤ energy g ≤ energy_max (cfg g) →
  1 ≤ energy (spend_energy g 1).1 ≤ energy_max (cfg g)
  ∧ (energy g = 1 →
     energy (spend_energy g 1).1 = energy_max (cfg g)
     ∧ lives (spend_energy g 1).1 = lives g - 1
     ∧ (spend_energy g 1).2 = [msg_energy_depleted (lives g - 1)])
  ∧ (1 < energy g →
     energy (spend_energy g 1).1 = energy g - 1
     ∧ lives (spend_energy g 1).1 = lives g
     ∧ (spend_energy g 1).2 = []).
Proof.
  intros He. destruct (spend_energy_one g He) as (Hr & _ & Hlast & Hmore).
  split; [done|]. split.
  - intros H1. by rewrite (Hlast H1).
  - intros H1. by rewrite (Hmore H1).
Qed.

Lemma X10_spend_energy_range_witness :
  1 ≤ energy (spend_energy scenario_play 1).1 ≤ energy_max (cfg scenario_play)
  ∧ (energy scenario_play = 1 →
     energy (spend_energy scenario_play 1).1 = energy_max (cfg scenario_play)
     ∧ lives (spend_energy scenario_play 1).1 = lives scenario_play - 1
     ∧ (spend_energy scenario_play 1).2
       = [msg_energy_depleted (lives scenario_play - 1)])
  ∧ (1 < energy scenario_play →
     energy (spend_energy scenario_play 1).1 = energy scenario_play - 1
     ∧ lives (spend_energy scenario_play 1).1 = lives scenario_play
     ∧ (spend_energy scenario_play 1).2 = []).
Proof.
  apply (X10_spend_energy_range scenario_play). cbv. split; discriminate.
Defined.

(** A concrete game satisfies [game_ok]: every part is checked by
    evaluation. *)
Ltac game_ok_by_eval :=
  split; [reflexivity|]; split; [reflexivity|];
  split; [first [by intros c [= <-] | intros c; discriminate]|];
  split; [cbv; split; discriminate|];
  vm_compute; reflexivity.

(** X11.  [interact] keeps the game sound at every coordinate, in range
    or not: from a game that satisfies [game_ok] it returns a game that
    satisfies it, with the same extent and start layout and at most one
    life less. *)
Theorem X11_interact_keeps_game_ok g y x :
  game_ok g →
  ∃ g' out,
    interact g y x = Some (g', out) ∧ game_ok g'
    ∧ cfg g' = cfg g ∧ start_base g' = start_base g
    ∧ lives g - 1 ≤ lives g' ≤ lives g.
Proof.
  intros Hok. pose proof Hok as (Hwf & _ & _ & He & _).
  destruct (interact_other g y x Hwf)
    as [[Hout Hrun]|(t & Hin & Ht & [Hsrc|[[_ Hrun]|[_ Hrun]]])].
  - eexists _, _. split; [exact Hrun|]. split; [done|].
    split; [done|]. split; [done|]. lia.
  - destruct (interact_source g y x t Hok Hin Ht Hsrc)
      as (g1 & g' & _ & Hrun & Hok' & Hc & Hsb & _ & _ & Hl & _).
    eexists _, _. split; [exact Hrun|]. repeat (split; [done|]).
    rewrite Hl. destruct (spend_energy_one g He) as (_ & Hlives & _). lia.
  - eexists _, _. split; [exact Hrun|].
    split; [|split; [done|]; split; [done|]; simpl; lia].
    apply game_ok_with_selected; [done|]. by intros c [= <-].
  - eexists _, _. split; [exact Hrun|].
    split; [|split; [done|]; split; [done|]; simpl; lia].
    by apply game_ok_with_selected.
Qed.

Lemma X11_interact_keeps_game_ok_witness :
  ∃ g' out,
    interact scenario_play 2 0 = Some (g', out) ∧ game_ok g'
    ∧ cfg g' = cfg scenario_play ∧ start_base g' = start_base scenario_play
    ∧ lives scenario_play - 1 ≤ lives g' ≤ lives scenario_play.
Proof.
  apply (X11_interact_keeps_game_ok scenario_play 2 0).
  game_ok_by_eval.
Defined.

(** X12.  [interact] on a source toggles it: the cell holds the other
    source kind afterwards, one unit of energy is spent, the selection
    is kept, and every other cell of the board is as before unless it
    was a movable block that the new light locked. *)
Theorem X12_interact_toggles_source g y x t :
  game_ok g → in_bounds g y x = true → tile g y x = Some t →
  t = SOURCE_OFF ∨ t = SOURCE_ON →
  ∃ g' out,
    interact g y x = Some (g', out)
    ∧ tile g' y x = Some (toggled t)
    ∧ selected g' = selected g
    ∧ energy g' = energy (spend_energy g 1).1
    ∧ lives g' = lives (spend_energy g 1).1
    ∧ ∀ y' x', in_bounds g y' x' = true → (y', x') ≠ (y, x) →
        tile g' y' x' = tile g y' x'
        ∨ (tile g y' x' = Some BLOCK_MOV ∧ (y', x') ∈ light_direct g'
           ∧ tile g' y' x' = Some BLOCK_IMMOV).
Proof.
  intros Hok Hin Ht Hsrc.
  destruct (interact_source g y x t Hok Hin Ht Hsrc)
    as (g1 & g' & Hset & Hrun & Hok' & Hc & Hsb & Hs & He & Hl & Hnew & Hold & _).
  eexists _, _. split; [exact Hrun|]. repeat (split; [done|]).
  intros y' x' Hyx Hne.
  destruct (Hold y' x' Hyx Hne) as [Heq|[Hm Hi]]; [by left|].
  right. split; [done|]. split; [|done].
  (* the cell was locked, so the first recomputation lit it directly *)
  destruct (set_tile_in_bounds g y x (toggled t) (proj1 Hok) Hin)
    as (g1' & Hset' & Hg1 & Hwf1 & _ & Hold1).
  rewrite Hset in Hset'. injection Hset' as <-.
  pose proof (spend_energy_fields g1 1) as (Hc2 & Hb2 & _).
  assert (well_formed (spend_energy g1 1).1 = true) as Hwf2
    by by rewrite (well_formed_ext g1).
  destruct (after_change_full _ Hwf2)
    as (ld & ls & g3 & _ & _ & _ & Hac & Hg3 & _ & _ & _ & Htile & _).
  assert (interact g y x = Some (g3, (spend_energy g1 1).2)) as Hrun'.
  { unfold interact. rewrite Hin, Ht. simpl.
    assert (spend_energy g1 1
            = ((spend_energy g1 1).1, (spend_energy g1 1).2)) as Hpair
      by by destruct (spend_energy g1 1).
    destruct Hsrc as [-> | ->]; simpl in *;
      rewrite Hset; simpl; rewrite Hpair, Hac; done. }
  rewrite Hrun in Hrun'. injection Hrun' as ->.
  assert (in_bounds (spend_energy g1 1).1 y' x' = true) as Hyx2.
  { unfold in_bounds. rewrite Hc2. rewrite Hg1. exact Hyx. }
  specialize (Htile y' x' Hyx2). rewrite Hi in Htile.
  assert (light_direct g3 = ld) as -> by by rewrite Hg3.
  destruct (decide ((y', x') ∈ ld)) as [|Hn]; [done|].
  rewrite (bool_decide_eq_false_2 (_ ∈ _)) in Htile by done. simpl in Htile.
  rewrite (tile_ext g1) in Htile by done.
  rewrite (Hold1 y' x' Hyx Hne), Hm in Htile. discriminate.
Qed.

Lemma X12_interact_toggles_source_witness :
  ∃ g' out,
    interact scenario_play 2 0 = Some (g', out)
    ∧ tile g' 2 0 = Some (toggled SOURCE_OFF)
    ∧ selected g' = selected scenario_play
    ∧ energy g' = energy (spend_energy scenario_play 1).1
    ∧ lives g' = lives (spend_energy scenario_play 1).1
    ∧ ∀ y' x', in_bounds scenario_play y' x' = true → (y', x') ≠ (2, 0) →
        tile g' y' x' = tile scenario_play y' x'
        ∨ (tile scenario_play y' x' = Some BLOCK_MOV
           ∧ (y', x') ∈ light_direct g'
           ∧ tile g' y' x' = Some BLOCK_IMMOV).
Proof.
  apply (X12_interact_toggles_source scenario_play 2 0 SOURCE_OFF).
  - game_ok_by_eval.
  - reflexivity.
  - reflexivity.
  - by left.
Defined.

(** X13.  Toggling a source twice brings it back: after two [interact]
    calls on the same source cell the cell holds the kind it held at
    first. *)
Theorem X13_interact_twice_restores_source g y x t :
  game_ok g → in_bounds g y x = true → tile g y x = Some t →
  t = SOURCE_OFF ∨ t = SOURCE_ON →
  ∃ g1 out1 g2 out2,
    interact g y x = Some (g1, out1)
    ∧ interact g1 y x = Some (g2, out2)
    ∧ tile g1 y x = Some (toggled t)
    ∧ tile g2 y x = Some t.
Proof.
  intros Hok Hin Ht Hsrc.
  destruct (interact_source g y x t Hok Hin Ht Hsrc)
    as (g0 & g1 & _ & Hrun1 & Hok1 & Hc1 & _ & _ & _ & _ & Hnew1 & _).
  assert (in_bounds g1 y x = true) as Hin1
    by (unfold in_bounds; by rewrite Hc1).
  assert (toggled t = SOURCE_OFF ∨ toggled t = SOURCE_ON) as Hsrc1
    by (destruct Hsrc as [-> | ->]; simpl; auto).
  destruct (interact_source g1 y x (toggled t) Hok1 Hin1 Hnew1 Hsrc1)
    as (g0' & g2 & _ & Hrun2 & _ & _ & _ & _ & _ & _ & Hnew2 & _).
  eexists _, _, _, _. split; [exact Hrun1|]. split; [exact Hrun2|].
  split; [done|]. rewrite Hnew2. by destruct Hsrc as [-> | ->].
Qed.

Lemma X13_interact_twice_restores_source_witness :
  ∃ g1 out1 g2 out2,
    interact scenario_play 2 0 = Some (g1, out1)
    ∧ interact g1 2 0 = Some (g2, out2)
    ∧ tile g1 2 0 = Some (toggled SOURCE_OFF)
    ∧ tile g2 2 0 = Some SOURCE_OFF.
Proof.
  apply (X13_interact_twice_restores_source scenario_play 2 0 SOURCE_OFF).
  - game_ok_by_eval.
  - reflexivity.
  - reflexivity.
  - by left.
Defined.

(** X14.  [move_selected] keeps the game sound in every direction and
    whatever is selected: from a game that satisfies [game_ok] it
    returns a game that satisfies it, with the same extent and start
    layout and at most one life less. *)
Theorem X14_move_selected_keeps_game_ok g dir :
  game_ok g →
  ∃ g' out,
    move_selected g dir = Some (g', out) ∧ game_ok g'
    ∧ cfg g' = cfg g ∧ start_base g' = start_base g
    ∧ lives g - 1 ≤ lives g' ≤ lives g.
Proof.
  intros Hok. pose proof Hok as (_ & _ & _ & He & _).
  destruct (move_selected_cases g dir Hok)
    as [Hrun|[Hrun|[Hrun|[Hrun|(sy & sx & t & d & Hs & Ht & Hm & Hin & Hd & Hst)]]]].
  - eexists _, _. split; [exact Hrun|]. split; [done|].
    split; [done|]. split; [done|]. lia.
  - eexists _, _. split; [exact Hrun|].
    split; [|split; [done|]; split; [done|]; simpl; lia].
    by apply game_ok_with_selected.
  - eexists _, _. split; [exact Hrun|]. split; [done|].
    split; [done|]. split; [done|]. lia.
  - eexists _, _. split; [exact Hrun|]. split; [done|].
    split; [done|]. split; [done|]. lia.
  - destruct (move_success g dir sy sx t d Hok Hs Ht Hm Hin Hd Hst)
      as (g2 & g' & Hrun & _ & _ & _ & Hok' & Hc & Hsb & _ & _ & Hl & _).
    eexists _, _. split; [exact Hrun|]. repeat (split; [done|]).
    rewrite Hl. destruct (spend_energy_one g He) as (_ & Hlives & _). lia.
Qed.

Lemma X14_move_selected_keeps_game_ok_witness :
  ∃ g' out,
    move_selected (with_selected scenario_play (Some (2, 2))) D = Some (g', out)
    ∧ game_ok g'
    ∧ cfg g' = cfg (with_selected scenario_play (Some (2, 2)))
    ∧ start_base g' = start_base (with_selected scenario_play (Some (2, 2)))
    ∧ lives (with_selected scenario_play (Some (2, 2))) - 1 ≤ lives g'
      ≤ lives (with_selected scenario_play (Some (2, 2))).
Proof.
  apply (X14_move_selected_keeps_game_ok
           (with_selected scenario_play (Some (2, 2))) D).
  game_ok_by_eval.
Defined.

(** X15.  A move that goes through: when the selected cell holds a
    movable block or a crystal and the next cell in the direction is on
    the board and holds none of block, crystal or source, the piece is
    at the next cell afterwards (as an immovable block if it is a
    movable block that direct light now reaches), the cell it left is
    empty, the selection follows it, one unit of energy is spent, and
    every other cell is as before unless it was a movable block that got
    locked. *)
Theorem X15_move_selected_moves g dir sy sx t d :
  game_ok g → selected g = Some (sy, sx) →
  tile g sy sx = Some t → is_movable t = true →
  in_bounds g (sy + (DIRS dir).1) (sx + (DIRS dir).2) = true →
  tile g (sy + (DIRS dir).1) (sx + (DIRS dir).2) = Some d →
  stops_move d = false →
  ∃ g' out,
    move_selected g dir = Some (g', out)
    ∧ selected g' = Some (sy + (DIRS dir).1, sx + (DIRS dir).2)
    ∧ tile g' sy sx = Some BG
    ∧ (tile g' (sy + (DIRS dir).1) (sx + (DIRS dir).2) = Some t
       ∨ (t = BLOCK_MOV
          ∧ tile g' (sy + (DIRS dir).1) (sx + (DIRS dir).2)
            = Some BLOCK_IMMOV))
    ∧ energy g' = energy (spend_energy g 1).1
    ∧ lives g' = lives (spend_energy g 1).1
    ∧ (∀ y x, in_bounds g y x = true → (y, x) ≠ (sy, sx) →
         (y, x) ≠ (sy + (DIRS dir).1, sx + (DIRS dir).2) →
         tile g' y x = tile g y x
         ∨ (tile g y x = Some BLOCK_MOV ∧ tile g' y x = Some BLOCK_IMMOV)).
Proof.
  intros Hok Hs Ht Hm Hin Hd Hst.
  destruct (move_success g dir sy sx t d Hok Hs Ht Hm Hin Hd Hst)
    as (g2 & g' & Hrun & _ & _ & _ & _ & _ & _ & Hs' & He & Hl & Hsrc & Hdst
        & Hother & _).
  eexists _, _. split; [exact Hrun|]. repeat (split; [done|]). done.
Qed.

Lemma X15_move_selected_moves_witness :
  ∃ g' out,
    move_selected (with_selected scenario_play (Some (2, 2))) D = Some (g', out)
    ∧ selected g' = Some (2 + (DIRS D).1, 2 + (DIRS D).2)
    ∧ tile g' 2 2 = Some BG
    ∧ (tile g' (2 + (DIRS D).1) (2 + (DIRS D).2) = Some BLOCK_MOV
       ∨ (BLOCK_MOV = BLOCK_MOV
          ∧ tile g' (2 + (DIRS D).1) (2 + (DIRS D).2) = Some BLOCK_IMMOV))
    ∧ energy g'
      = energy (spend_energy (with_selected scenario_play (Some (2, 2))) 1).1
    ∧ lives g'
      = lives (spend_energy (with_selected scenario_play (Some (2, 2))) 1).1
    ∧ (∀ y x,
         in_bounds (with_selected scenario_play (Some (2, 2))) y x = true →
         (y, x) ≠ (2, 2) → (y, x) ≠ (2 + (DIRS D).1, 2 + (DIRS D).2) →
         tile g' y x = tile (with_selected scenario_play (Some (2, 2))) y x
         ∨ (tile (with_selected scenario_play (Some (2, 2))) y x
            = Some BLOCK_MOV
            ∧ tile g' y x = Some BLOCK_IMMOV)).
Proof.
  apply (X15_move_selected_moves (with_selected scenario_play (Some (2, 2))) D
                                 2 2 BLOCK_MOV BG).
  - game_ok_by_eval.
  - reflexivity.
  - reflexivity.
  - reflexivity.
  - reflexivity.
  - reflexivity.
  - reflexivity.
Defined.

(** X16.  A refused move is free: whenever [move_selected] answers with
    one of its four refusals (nothing selected, no longer movable,
    boundary, blocked), the board, the energy, the lives and the light
    sets are untouched; a move that goes through never prints one of
    them. *)
Theorem X16_move_selected_refused_free g dir g' out :
  game_ok g → move_selected g dir = Some (g', out) →
  out = [msg_nothing_selected] ∨ out = [msg_no_longer_movable]
  ∨ out = [msg_blocked_by_boundary] ∨ out = [msg_blocked] →
  base g' = base g ∧ energy g' = energy g ∧ lives g' = lives g
  ∧ light_direct g' = light_direct g ∧ light_scatter g' = light_scatter g
  ∧ (selected g' = selected g ∨ selected g' = None).
Proof.
  intros Hok Hrun Hout. pose proof Hok as (_ & _ & _ & He & _).
  destruct (move_selected_cases g dir Hok)
    as [Hr|[Hr|[Hr|[Hr|(sy & sx & t & d & Hs & Ht & Hm & Hin & Hd & Hst)]]]];
    try (rewrite Hr in Hrun; injection Hrun as <- <-; simpl; by auto 10).
  exfalso.
  destruct (move_success g dir sy sx t d Hok Hs Ht Hm Hin Hd Hst)
    as (g2 & g5 & Hr & He2 & Hl2 & Hc2 & _).
  rewrite Hr in Hrun. injection Hrun as <- <-.
  assert (1 ≤ energy g2 ≤ energy_max (cfg g2)) as He' by by rewrite He2, Hc2.
  destruct (spend_energy_one g2 He') as (_ & _ & Hlast & Hmore).
  destruct (decide (energy g2 = 1)) as [H1|H1].
  - rewrite (Hlast H1) in Hout. simpl in Hout.
    destruct Hout as [?|[?|[?|?]]]; discriminate.
  - rewrite Hmore in Hout by lia. simpl in Hout.
    destruct Hout as [?|[?|[?|?]]]; discriminate.
Qed.

Lemma X16_move_selected_refused_free_witness :
  base (with_selected scenario_play (Some (4, 2)))
  = base (with_selected scenario_play (Some (4, 2)))
  ∧ energy (with_selected scenario_play (Some (4, 2)))
    = energy (with_selected scenario_play (Some (4, 2)))
  ∧ lives (with_selected scenario_play (Some (4, 2)))
    = lives (with_selected scenario_play (Some (4, 2)))
  ∧ light_direct (with_selected scenario_play (Some (4, 2)))
    = light_direct (with_selected scenario_play (Some (4, 2)))
  ∧ light_scatter (with_selected scenario_play (Some (4, 2)))
    = light_scatter (with_selected scenario_play (Some (4, 2)))
  ∧ (selected (with_selected scenario_play (Some (4, 2)))
     = selected (with_selected scenario_play (Some (4, 2)))
     ∨ selected (with_selected scenario_play (Some (4, 2))) = None).
Proof.
  apply (X16_move_selected_refused_free
           (with_selected scenario_play (Some (4, 2))) D
           (with_selected scenario_play (Some (4, 2)))
           [msg_blocked_by_boundary]).
  - game_ok_by_eval.
  - reflexivity.
  - right; right; left. reflexivity.
Defined.

(** X17.  A block under direct light cannot be moved: in the game that
    [after_change] returns, selecting a directly lit cell that holds a
    block and asking for a move only clears the selection. *)
Theorem X17_lit_block_cannot_move h g c t dir :
  well_formed h = true → after_change h = Some g →
  c ∈ light_direct g → tile g c.1 c.2 = Some t → is_block t = true →
  move_selected (with_selected g (Some c)) dir
  = Some (with_selected g None, [msg_no_longer_movable]).
Proof.
  intros Hwf Hac Hc Ht Hb.
  destruct (after_change_full h Hwf)
    as (ld & ls & g' & _ & Hin & _ & Hac' & Hg' & _ & _ & _ & Htile & _).
  rewrite Hac in Hac'. injection Hac' as <-.
  destruct c as [y x]. simpl in Ht.
  assert (t = BLOCK_IMMOV) as ->.
  { assert (light_direct g = ld) as Hld by by rewrite Hg'.
    rewrite Hld in Hc. rewrite Htile in Ht by apply (Hin (y, x) Hc).
    rewrite (bool_decide_eq_true_2 (_ ∈ _)) in Ht by done. simpl in Ht.
    destruct (decide (tile h y x = Some BLOCK_MOV)) as [Hm|Hm].
    - rewrite bool_decide_eq_true_2 in Ht by done. congruence.
    - rewrite bool_decide_eq_false_2 in Ht by done.
      destruct t; try discriminate; [|done]. by rewrite Ht in Hm. }
  unfold move_selected. simpl.
  change (tile (with_selected g (Some (y, x))) y x) with (tile g y x).
  by rewrite Ht.
Qed.

Lemma X17_lit_block_cannot_move_witness :
  ∃ g, after_change scenario_block = Some g
       ∧ move_selected (with_selected g (Some (2, 2))) R
         = Some (with_selected g None, [msg_no_longer_movable]).
Proof.
  eexists. split; [vm_compute; reflexivity|].
  apply (X17_lit_block_cannot_move scenario_block _ (2, 2) BLOCK_IMMOV R).
  - reflexivity.
  - vm_compute. reflexivity.
  - apply (bool_decide_unpack _). vm_compute. exact I.
  - vm_compute. reflexivity.
  - reflexivity.
Defined.



(** [scenario_played] is a game in play: it is what three commands make
    of [scenario_play], with a moved block, a lit source, spent energy
    and a selection.  [reset_level] undoes all of it: the block is back
    at (2,2), the source is off, the energy is full, nothing is selected
    and nothing is lit. *)
Example scenario_played_reset :
  (∃ g1 out1 g2 out2 out3,
     interact scenario_play 2 2 = Some (g1, out1)
     ∧ move_selected g1 D = Some (g2, out2)
     ∧ interact g2 2 0 = Some (scenario_played, out3))
  ∧ reset_level scenario_played = Some (scenario_play, [msg_level_reset])
  ∧ tile scenario_played 3 2 = Some BLOCK_MOV
  ∧ tile scenario_play 3 2 = Some BG
  ∧ tile scenario_played 2 0 = Some SOURCE_ON
  ∧ tile scenario_play 2 0 = Some SOURCE_OFF
  ∧ energy scenario_played = 18 ∧ energy scenario_play = 20
  ∧ selected scenario_played = Some (3, 2) ∧ selected scenario_play = None
  ∧ (2, 1) ∈ light_direct scenario_played
  ∧ light_direct scenario_play = ∅.
Proof.
  split.
  { eexists _, _, _, _, _. split; [vm_compute; reflexivity|].
    split; [vm_compute; reflexivity|]. vm_compute. reflexivity. }
  split; [vm_compute; reflexivity|].
  do 8 (split; [reflexivity|]).
  split; [apply (bool_decide_unpack _); vm_compute; exact I | reflexivity].
Qed.

(** X19.  [reset_level] is idempotent: a second reset right after the
    first returns the same game. *)
Theorem X19_reset_level_idempotent g :
  game_ok g →
  ∃ g', reset_level g = Some (g', [msg_level_reset])
        ∧ reset_level g' = Some (g', [msg_level_reset]).
Proof.
  intros Hok.
  destruct (reset_level_full g Hok) as (g' & Hrun & _ & _ & _ & _ & _ & _ & _ & _ & Hidem).
  by exists g'.
Qed.

Lemma X19_reset_level_idempotent_witness :
  ∃ g', reset_level scenario_played = Some (g', [msg_level_reset])
        ∧ reset_level g' = Some (g', [msg_level_reset]).
Proof.
  apply (X19_reset_level_idempotent scenario_played). game_ok_by_eval.
Defined.

Lemma is_win_locked g h :
  well_formed g = true → well_formed h = true → locked_from g h →
  is_win h = is_win g.
Proof.
  intros Hwg Hwh Hl. unfold is_win.
  rewrite !block_coords_cells by done.
  assert (cells h = cells g) as -> by (unfold cells; by rewrite (proj1 Hl)).
  assert (filter (λ c, is_block_at h c = true) (cells g)
          = filter (λ c, is_block_at g c = true) (cells g)) as ->; [|done].
  apply filter_ext_in. intros c Hc%elem_of_cells.
  by rewrite (locked_from_block g h).
Qed.

(** X20.  Locking never changes whether the level is won: on a
    well-formed game [is_win] returns, and it returns the same answer
    on the game that [after_change] leaves. *)
Theorem X20_is_win_ignores_lock g :
  well_formed g = true →
  ∃ g' won,
    after_change g = Some g' ∧ is_win g = Some won ∧ is_win g' = Some won.
Proof.
  intros Hwf.
  destruct (after_change_full g Hwf)
    as (ld & ls & g' & _ & _ & _ & Hac & _ & Hwf' & Hl & _).
  assert (is_Some (is_win g)) as [won Hwon].
  { unfold is_win. rewrite block_coords_cells by done. simpl.
    repeat (destruct (bool_decide _) || destruct (_ && _)
            || destruct (negb _)); by eexists. }
  exists g', won. split; [done|]. split; [done|].
  by rewrite (is_win_locked g g').
Qed.

Lemma X20_is_win_ignores_lock_witness :
  ∃ g' won,
    after_change scenario_block = Some g'
    ∧ is_win scenario_block = Some won ∧ is_win g' = Some won.
Proof. apply (X20_is_win_ignores_lock scenario_block). reflexivity. Defined.

(** X21.  A won level holds a complete grid of blocks: if [is_win]
    answers [True] there is a block, and for any two blocks the cell in
    the row of the first and the column of the second holds a block
    too. *)
Theorem X21_is_win_complete_grid g :
  well_formed g = true → is_win g = Some true →
  (∃ c, in_bounds g c.1 c.2 = true ∧ is_block_at g c = true)
  ∧ ∀ y1 x1 y2 x2,
      in_bounds g y1 x1 = true → is_block_at g (y1, x1) = true →
      in_bounds g y2 x2 = true → is_block_at g (y2, x2) = true →
      is_block_at g (y1, x2) = true.
Proof.
  intros Hwf. unfold is_win. rewrite block_coords_cells by done. simpl.
  set (blocks := filter (λ c, is_block_at g c = true) (cells g)).
  assert (∀ c, c ∈ blocks ↔ in_bounds g c.1 c.2 = true ∧ is_block_at g c = true)
    as Hblocks.
  { intros c. unfold blocks. rewrite list_elem_of_filter, elem_of_cells. tauto. }
  destruct (decide (blocks = [])) as [Hnil|Hnil].
  { by rewrite bool_decide_eq_true_2. }
  rewrite bool_decide_eq_false_2 by done. intros Hwin. split.
  { destruct blocks as [|c ?] eqn:Hb; [done|]. exists c. apply Hblocks. left. }
  intros y1 x1 y2 x2 Hin1 Hb1 Hin2 Hb2.
  assert ((y1, x1) ∈ blocks) as H1 by by apply Hblocks.
  assert ((y2, x2) ∈ blocks) as H2 by by apply Hblocks.
  assert (y1 ∈ sorted_set blocks.*1) as Hy1.
  { apply elem_of_sorted_set, list_elem_of_fmap. by exists (y1, x1). }
  assert (x2 ∈ sorted_set blocks.*2) as Hx2.
  { apply elem_of_sorted_set, list_elem_of_fmap. by exists (y2, x2). }
  assert (x1 ∈ sorted_set blocks.*2) as Hx1.
  { apply elem_of_sorted_set, list_elem_of_fmap. by exists (y1, x1). }
  destruct (bool_decide (length (sorted_set blocks.*1) = 1%nat)
            && bool_decide (length (sorted_set blocks.*2) = 1%nat)) eqn:Hone.
  - apply andb_true_iff in Hone as [_ Hxs%bool_decide_eq_true].
    destruct (sorted_set blocks.*2) as [|b [|? ?]]; try done.
    apply list_elem_of_singleton in Hx1, Hx2. by subst.
  - destruct (negb _); [done|]. injection Hwin as Hwin.
    apply bool_decide_eq_true in Hwin.
    assert ((y1, x2) ∈ (list_to_set blocks : gset Coord)) as Hin.
    { rewrite <- Hwin. apply elem_of_list_to_set, elem_of_grid. done. }
    apply elem_of_list_to_set, Hblocks in Hin. apply Hin.
Qed.

Lemma X21_is_win_complete_grid_witness :
  (∃ c, in_bounds scenario_grid c.1 c.2 = true
        ∧ is_block_at scenario_grid c = true)
  ∧ ∀ y1 x1 y2 x2,
      in_bounds scenario_grid y1 x1 = true →
      is_block_at scenario_grid (y1, x1) = true →
      in_bounds scenario_grid y2 x2 = true →
      is_block_at scenario_grid (y2, x2) = true →
      is_block_at scenario_grid (y1, x2) = true.
Proof.
  apply (X21_is_win_complete_grid scenario_grid); [reflexivity|].
  vm_compute. reflexivity.
Defined.

(** X22.  [Game(cfg)] without a layout: for a non-negative extent
    [__post_init__] returns the game whose board and start layout are
    the all-empty grid of that extent, with full energy and lives, no
    selection and no light. *)
Theorem X22_post_init_default c :
  0 ≤ width c → 0 ≤ height c →
  post_init c []
  = Some (mkGame c (default_base c) (default_base c) (energy_max c)
                 (lives_max c) None ∅ ∅)
  ∧ Z.of_nat (length (default_base c)) = height c
  ∧ ∀ y x, 0 ≤ y < height c → 0 ≤ x < width c →
      tile (mkGame c (default_base c) (default_base c) (energy_max c)
                   (lives_max c) None ∅ ∅) y x = Some BG.
Proof.
  intros Hw Hh.
  set (g := mkGame c (default_base c) (default_base c) (energy_max c)
                   (lives_max c) None ∅ ∅).
  assert (well_formed g = true) as Hwf by by apply default_base_well_formed.
  assert (∀ y x, in_bounds g y x = true → tile g y x = Some BG) as Htile
    by (intros y x; by apply default_base_tile).
  split; [|split].
  - unfold post_init. simpl. fold g.
    rewrite recompute_light_dark; [done | done |].
    intros y x Hin. by rewrite Htile.
  - by apply well_formed_spec in Hwf as [? _].
  - intros y x Hy Hx. apply Htile. by apply in_bounds_spec.
Qed.

Lemma X22_post_init_default_witness :
  post_init cfg5 []
  = Some (mkGame cfg5 (default_base cfg5) (default_base cfg5)
                 (energy_max cfg5) (lives_max cfg5) None ∅ ∅)
  ∧ Z.of_nat (length (default_base cfg5)) = height cfg5
  ∧ ∀ y x, 0 ≤ y < height cfg5 → 0 ≤ x < width cfg5 →
      tile (mkGame cfg5 (default_base cfg5) (default_base cfg5)
                   (energy_max cfg5) (lives_max cfg5) None ∅ ∅) y x
      = Some BG.
Proof. apply (X22_post_init_default cfg5); cbv; discriminate. Defined.

(** X23.  A game built by [__post_init__] from a well-formed layout is
    sound: for a non-empty layout that fits the extent and a maximal
    energy of at least 1, [post_init] returns a game that satisfies
    [game_ok], whose board and start layout are the layout given. *)
Theorem X23_post_init_game_ok c b :
  b ≠ [] → well_formed (new_game c b) = true → 1 ≤ energy_max c →
  ∃ g, post_init c b = Some g ∧ game_ok g
       ∧ cfg g = c ∧ base g = b ∧ start_base g = b
       ∧ energy g = energy_max c ∧ lives g = lives_max c
       ∧ selected g = None.
Proof.
  intros Hb Hwf He.
  destruct (recompute_light_spec (new_game c b) Hwf) as (ld & ls & Hre & _).
  exists (with_lights (new_game c b) ld ls). split.
  { unfold post_init. rewrite bool_decide_eq_false_2 by done. exact Hre. }
  split; [|done].
  split; [done|]. split; [done|]. split; [done|]. split; [simpl; lia|].
  by rewrite recompute_light_with_lights.
Qed.

Lemma X23_post_init_game_ok_witness :
  ∃ g, post_init cfg5 (base scenario_B) = Some g ∧ game_ok g
       ∧ cfg g = cfg5 ∧ base g = base scenario_B
       ∧ start_base g = base scenario_B
       ∧ energy g = energy_max cfg5 ∧ lives g = lives_max cfg5
       ∧ selected g = None.
Proof.
  apply (X23_post_init_game_ok cfg5 (base scenario_B)).
  - discriminate.
  - reflexivity.
  - cbv. discriminate.
Defined.

(** ** Counting pieces *)

Lemma range_NoDup n : NoDup (range n).
Proof.
  unfold range. apply NoDup_fmap_2; [|apply NoDup_seq].
  intros a b. lia.
Qed.

Lemma grid_NoDup ys xs : NoDup ys → NoDup xs → NoDup (grid ys xs).
Proof.
  intros Hys Hxs. induction Hys as [|y ys Hy Hys IH]; simpl; [constructor|].
  apply NoDup_app. split; [|split; [|done]].
  - apply NoDup_fmap_2; [|done]. by intros a b [= ->].
  - intros c (x & -> & _)%list_elem_of_fmap [Hin _]%elem_of_grid. done.
Qed.

Lemma cells_NoDup g : NoDup (cells g).
Proof. apply grid_NoDup; apply range_NoDup. Qed.

Lemma elem_of_pieces g p c :
  c ∈ pieces g p ↔
  in_bounds g c.1 c.2 = true ∧ kind_piece <$> tile g c.1 c.2 = Some p.
Proof. unfold pieces. rewrite list_elem_of_filter, elem_of_cells. tauto. Qed.

Lemma census_size g p :
  census g p = size (list_to_set (pieces g p) : gset Coord).
Proof.
  unfold census. rewrite size_list_to_set; [done|].
  apply NoDup_filter, cells_NoDup.
Qed.

(** Two boards of the same extent whose cells hold the same pieces. *)
Lemma census_same g h p :
  cfg h = cfg g →
  (∀ y x, in_bounds g y x = true →
     kind_piece <$> tile h y x = kind_piece <$> tile g y x) →
  census h p = census g p.
Proof.
  intros Hc Ht. unfold census, pieces.
  assert (cells h = cells g) as -> by (unfold cells; by rewrite Hc).
  f_equal. apply filter_ext_in. intros [y x] Hyx%elem_of_cells. simpl.
  by rewrite Ht.
Qed.

(** A piece moved from [a] to an empty cell [b]. *)
Lemma census_moved g h a b p :
  cfg h = cfg g → a ≠ b →
  in_bounds g a.1 a.2 = true → in_bounds g b.1 b.2 = true →
  kind_piece <$> tile g b.1 b.2 = Some piece_none →
  kind_piece <$> tile h a.1 a.2 = Some piece_none →
  kind_piece <$> tile h b.1 b.2 = kind_piece <$> tile g a.1 a.2 →
  (∀ y x, in_bounds g y x = true → (y, x) ≠ a → (y, x) ≠ b →
     kind_piece <$> tile h y x = kind_piece <$> tile g y x) →
  p ≠ piece_none →
  census h p = census g p.
Proof.
  destruct a as [ay ax], b as [by' bx]. simpl.
  intros Hc Hab Hina Hinb Hgb Hha Hhb Hother Hp.
  assert (∀ c, in_bounds h c.1 c.2 = in_bounds g c.1 c.2) as Hinb'
    by (intros; unfold in_bounds; by rewrite Hc).
  rewrite !census_size.
  destruct (decide (kind_piece <$> tile g ay ax = Some p)) as [Hga|Hga].
  - assert ((list_to_set (pieces h p) : gset Coord)
            = (list_to_set (pieces g p) ∖ {[(ay, ax)]}) ∪ {[(by', bx)]}) as ->.
    { apply set_eq. intros [y x].
      rewrite elem_of_union, elem_of_difference, !elem_of_list_to_set,
        !elem_of_pieces, !elem_of_singleton, Hinb'. simpl. split.
      - intros [Hin Hk].
        destruct (decide ((y, x) = (by', bx))) as [|Hnb]; [by right|]. left.
        destruct (decide ((y, x) = (ay, ax))) as [[= -> ->]|Hna]; [congruence|].
        rewrite <- Hother by done. done.
      - intros [[[Hin Hk] Hna]|[= -> ->]]; [|split; [done | congruence]].
        split; [done|].
        destruct (decide ((y, x) = (by', bx))) as [[= -> ->]|Hnb]; [congruence|].
        by rewrite Hother. }
    assert ((ay, ax) ∈ (list_to_set (pieces g p) : gset Coord)) as Ha.
    { apply elem_of_list_to_set, elem_of_pieces. done. }
    rewrite size_union, size_difference, !size_singleton.
    + assert (size (list_to_set (pieces g p) : gset Coord) ≠ 0)%nat; [|lia].
      intros Hz. apply size_empty_inv in Hz.
      apply (Hz (ay, ax)) in Ha. done.
    + by apply singleton_subseteq_l.
    + apply disjoint_singleton_r. rewrite elem_of_difference.
      intros [[_ Hk]%elem_of_list_to_set%elem_of_pieces _]. simpl in Hk.
      congruence.
  - f_equal. apply set_eq. intros [y x].
    rewrite !elem_of_list_to_set, !elem_of_pieces, Hinb'. simpl.
    destruct (decide ((y, x) = (ay, ax))) as [[= -> ->]|Hna].
    { split; intros [_ Hk]; congruence. }
    destruct (decide ((y, x) = (by', bx))) as [[= -> ->]|Hnb].
    { split; intros [_ Hk]; congruence. }
    split; intros [Hin Hk]; (split; [done|]).
    + by rewrite <- Hother.
    + by rewrite Hother.
Qed.

Lemma locked_kind_piece g h y x :
  tile h y x = tile g y x
  ∨ (tile g y x = Some BLOCK_MOV ∧ tile h y x = Some BLOCK_IMMOV) →
  kind_piece <$> tile h y x = kind_piece <$> tile g y x.
Proof. intros [-> | [-> ->]]; done. Qed.

Lemma stops_move_piece d : stops_move d = false ↔ kind_piece d = piece_none.
Proof. destruct d; simpl; split; congruence. Qed.

Lemma is_movable_piece t : is_movable t = true → kind_piece t ≠ piece_none.
Proof. destruct t; simpl; congruence. Qed.

(** X24.  [interact] on anything but a source only changes the
    selection: if the board, the energy, the lives or a light set
    differs afterwards, the coordinate was on the board and held
    [SOURCE_ON] or [SOURCE_OFF]. *)
Theorem X24_interact_frame g y x g' out :
  game_ok g → interact g y x = Some (g', out) →
  base g' ≠ base g ∨ energy g' ≠ energy g ∨ lives g' ≠ lives g
  ∨ light_direct g' ≠ light_direct g ∨ light_scatter g' ≠ light_scatter g →
  in_bounds g y x = true
  ∧ (tile g y x = Some SOURCE_ON ∨ tile g y x = Some SOURCE_OFF).
Proof.
  intros Hok Hrun Hdiff. pose proof Hok as (Hwf & _).
  destruct (interact_other g y x Hwf)
    as [[Hout Hr]|(t & Hin & Ht & [Hsrc|[[_ Hr]|[_ Hr]]])].
  - rewrite Hr in Hrun. injection Hrun as <- <-. naive_solver.
  - split; [done|]. rewrite Ht. destruct Hsrc as [-> | ->]; auto.
  - rewrite Hr in Hrun. injection Hrun as <- <-. simpl in Hdiff. naive_solver.
  - rewrite Hr in Hrun. injection Hrun as <- <-. simpl in Hdiff. naive_solver.
Qed.

Lemma X24_interact_frame_witness :
  in_bounds scenario_play 2 0 = true
  ∧ (tile scenario_play 2 0 = Some SOURCE_ON
     ∨ tile scenario_play 2 0 = Some SOURCE_OFF).
Proof.
  destruct (interact scenario_play 2 0) as [[g' out]|] eqn:Hrun;
    [|vm_compute in Hrun; discriminate].
  apply (X24_interact_frame scenario_play 2 0 g' out).
  - game_ok_by_eval.
  - exact Hrun.
  - left. vm_compute in Hrun. injection Hrun as <- _. vm_compute. discriminate.
Defined.

(** X25.  [interact] conserves the pieces: the numbers of blocks
    (movable or not), of crystals and of sources (on or off) on the
    board are the same before and after. *)
Theorem X25_interact_conserves_pieces g y x g' out p :
  game_ok g → interact g y x = Some (g', out) →
  census g' p = census g p.
Proof.
  intros Hok Hrun. pose proof Hok as (Hwf & _).
  destruct (interact_other g y x Hwf)
    as [[Hout Hr]|(t & Hin & Ht & [Hsrc|[[_ Hr]|[_ Hr]]])];
    try (rewrite Hr in Hrun; injection Hrun as <- <-; by apply census_same).
  destruct (interact_source g y x t Hok Hin Ht Hsrc)
    as (g1 & g2 & _ & Hr & _ & Hc & _ & _ & _ & _ & Hnew & Hold & _).
  rewrite Hr in Hrun. injection Hrun as <- _.
  apply census_same; [done|]. intros y' x' Hyx.
  destruct (decide ((y', x') = (y, x))) as [[= -> ->]|Hne].
  - rewrite Hnew, Ht. by destruct Hsrc as [-> | ->].
  - by apply locked_kind_piece, Hold.
Qed.

Lemma X25_interact_conserves_pieces_witness :
  ∃ g' out,
    interact scenario_play 2 0 = Some (g', out)
    ∧ census g' piece_source = census scenario_play piece_source.
Proof.
  eexists _, _. split; [vm_compute; reflexivity|].
  eapply (X25_interact_conserves_pieces scenario_play 2 0).
  - game_ok_by_eval.
  - vm_compute. reflexivity.
Defined.

(** X26.  [move_selected] conserves the pieces: whether the move goes
    through or not, the numbers of blocks, of crystals and of sources on
    the board are the same before and after. *)
Theorem X26_move_selected_conserves_pieces g dir g' out p :
  game_ok g → move_selected g dir = Some (g', out) → p ≠ piece_none →
  census g' p = census g p.
Proof.
  intros Hok Hrun Hp.
  destruct (move_selected_cases g dir Hok)
    as [Hr|[Hr|[Hr|[Hr|(sy & sx & t & d & Hs & Ht & Hm & Hin & Hd & Hst)]]]];
    try (rewrite Hr in Hrun; injection Hrun as <- <-; by apply census_same).
  destruct (move_success g dir sy sx t d Hok Hs Ht Hm Hin Hd Hst)
    as (g2 & g5 & Hr & _ & _ & _ & _ & Hc & _ & _ & _ & _ & Hsrc & Hdst
        & Hother & _).
  rewrite Hr in Hrun. injection Hrun as <- _.
  destruct Hok as (_ & _ & Hsel & _).
  apply (census_moved g g5 (sy, sx) (sy + (DIRS dir).1, sx + (DIRS dir).2));
    simpl; try done.
  - destruct dir; simpl; intros [= ? ?]; lia.
  - by apply (Hsel (sy, sx)).
  - rewrite Hd. simpl. f_equal. by apply stops_move_piece.
  - by rewrite Hsrc.
  - rewrite Ht. destruct Hdst as [-> | [-> ->]]; done.
  - intros y x Hyx Hn1 Hn2. by apply locked_kind_piece, Hother.
Qed.

Lemma X26_move_selected_conserves_pieces_witness :
  ∃ g' out,
    move_selected (with_selected scenario_play (Some (4, 2))) U
    = Some (g', out)
    ∧ census g' piece_crystal
      = census (with_selected scenario_play (Some (4, 2))) piece_crystal.
Proof.
  eexists _, _. split; [vm_compute; reflexivity|].
  eapply (X26_move_selected_conserves_pieces
            (with_selected scenario_play (Some (4, 2))) U).
  - game_ok_by_eval.
  - vm_compute. reflexivity.
  - discriminate.
Defined.
